(** * Windowed PCA: sign polarization and result aggregation

    A shallow embedding of [windowed_pca/code/utils.py] (function [polarize])
    and [windowed_pca/code/windowed_pca.py] (functions [pca], [windowed_pca]
    and, of [main], the call of [read_metadata] and lines 265-326).

    Conventions of the embedding.
    - A Python exception is a value of [exn]; code that may raise returns
      [result].  The module-level lists of [windowed_pca.py] and the error
      stream are threaded through a state-and-exception monad [M].
    - A coordinate is an exact rational ([Q]) standing for the float the
      program holds.  Modules [Utils] and [WindowedPca] compute on these
      rationals exactly.  Module [Float] writes the comparison of the
      voting loop and the midpoint of a window with their rounding made
      explicit, for any rounding that has the properties of record
      [Float.rounding]; what depends on that comparison is stated with
      it, and the two models are proved to agree on rows whose values
      are floats of comparable magnitudes.
    - A missing coordinate is [None : cell].  The table [windowed_pca]
      builds holds Python's [None] where a window was skipped; pandas
      turns a [None] that is multiplied by -1 into NaN.  For pandas both
      are the missing value ([dropna], [to_numpy(na_value=0)], the sums
      and variances that skip them), and the model has this one missing
      value; only the test [== None] of the voting loop tells them apart.
      The model is therefore exact for [polarize] on the tables
      [windowed_pca] builds, and for a run on a table that [polarize]
      returned as long as the guide rows hold no missing value.
    - A pandas DataFrame is a record of its row labels, column labels and
      rows.  The pandas and numpy operations the program calls are
      modelled by list functions of the same name.  [sort_values] is
      modelled by a stable insertion sort; the properties proved about
      the selection do not depend on how equal keys are ordered.
    - [allel.pca] and the window parser are outside the sources: the first
      is a parameter, the second is replaced by the list of windows it
      yields.
    - The functions around the pipeline are embedded as well:
      [parse_arguments] of both files, [fetch_variant_file_samples], the
      first steps of [main] (output directory, unique ids) and what
      [plot_w_stats] computes for its covers of the missing stretches.
      There a file is the list of its lines, the file system is the
      predicate telling which paths exist, and the builtin [int] is a
      parameter.
    - The writer and the reader of the two output files belong to
      pandas; module [Serial] models them from the specification
      (seven decimals, the token NA). *)

From Stdlib Require Import String Ascii DecimalString.
From Stdlib Require Import List ZArith QArith Qabs Qminmax Qround Bool.
From Stdlib Require Import Lia Lqa Permutation Sorted.
Import ListNotations.

(** ** Python values, exceptions and the error monad *)

Module Py.

Inductive exn : Type :=
| AttributeError
| KeyError
| IndexError
| TypeError
| ValueError
| AxisError.

Inductive result (A : Type) : Type :=
| Ok (a : A)
| Raise (e : exn).

Arguments Ok {A} a.
Arguments Raise {A} e.

Definition bind {A B : Type} (m : result A) (k : A -> result B) : result B :=
  match m with
  | Ok a => k a
  | Raise e => Raise e
  end.

(** The dynamically typed arguments [polarize] receives. *)
Inductive pyval : Type :=
| PyNone
| PyInt (z : Z)
| PyStr (s : string).

(** Truth value of an object in an [if]. *)
Definition truthy (v : pyval) : bool :=
  match v with
  | PyNone => false
  | PyInt z => negb (Z.eqb z 0)
  | PyStr s => negb (String.eqb s EmptyString)
  end.

(** [s.split(',')] on a [str]. *)
Fixpoint split_comma_aux (cur : string) (s : string) : list string :=
  match s with
  | EmptyString => [cur]
  | String c s' =>
      if Ascii.eqb c ","%char
      then cur :: split_comma_aux EmptyString s'
      else split_comma_aux (cur ++ String c EmptyString)%string s'
  end.

Definition split_comma (s : string) : list string :=
  split_comma_aux EmptyString s.

(** [v.split(',')]: only a [str] has the attribute. *)
Definition py_split (v : pyval) : result (list string) :=
  match v with
  | PyStr s => Ok (split_comma s)
  | _ => Raise AttributeError
  end.

(** [l[0:k]]: a negative bound counts from the end, [None] keeps all. *)
Definition slice0 {A : Type} (l : list A) (k : pyval) : result (list A) :=
  match k with
  | PyNone => Ok l
  | PyInt z =>
      if (0 <=? z)%Z then Ok (firstn (Z.to_nat z) l)
      else Ok (firstn (length l - Z.to_nat (- z)) l)
  | PyStr _ => Raise TypeError
  end.

(** [str(n)] for an [int]. *)
Definition str_int (n : Z) : string :=
  NilZero.string_of_int (Z.to_int n).

Fixpoint mapM {A B : Type} (f : A -> result B) (l : list A) : result (list B) :=
  match l with
  | [] => Ok []
  | x :: xs =>
      match f x with
      | Raise e => Raise e
      | Ok y =>
          match mapM f xs with
          | Raise e => Raise e
          | Ok ys => Ok (y :: ys)
          end
      end
  end.

End Py.

Import Py.

Notation "x <- e ;; k" := (Py.bind e (fun x => k))
  (at level 61, e at next level, right associativity).

(** ** Coordinates *)

Open Scope Q_scope.

(** A cell of a coordinate table: a number, or [None]. *)
Abbreviation cell := (option Q) (only parsing).

(** [x*-1]. *)
Definition neg1 (x : Q) : Q := x * (-1).

(** [x > y] on numbers. *)
Definition Qgtb (x y : Q) : bool := negb (Qle_bool x y).

(** ** pandas and numpy operations used by the program *)

Module Pd.

Record DataFrame : Type := mkDF {
  index : list string;
  columns : list Z;
  values : list (list cell)
}.

(** A Series: labels with one value each; [None] is NaN. *)
Definition Series : Type := list (string * option Q).

(** The table is rectangular and every row has a label. *)
Definition wf (df : DataFrame) : Prop :=
  length (values df) = length (index df) /\
  Forall (fun row => length row = length (columns df)) (values df).

Definition rows_of (df : DataFrame) : list (string * list cell) :=
  combine (index df) (values df).

Definition cell_at (df : DataFrame) (i j : nat) : option cell :=
  match nth_error (values df) i with
  | Some row => nth_error row j
  | None => None
  end.

(** [df.loc[labels]]: the rows carrying each label, in the order of
    [labels]; [KeyError] when a label names no row. *)
Definition lookup_rows (rows : list (string * list cell)) (l : string)
  : list (string * list cell) :=
  filter (fun p => String.eqb (fst p) l) rows.

Fixpoint loc_rows (rows : list (string * list cell)) (labels : list string)
  : result (list (string * list cell)) :=
  match labels with
  | [] => Ok []
  | l :: ls =>
      match lookup_rows rows l with
      | [] => Raise KeyError
      | found => rest <- loc_rows rows ls ;; Ok (found ++ rest)
      end
  end.

Definition loc (df : DataFrame) (labels : list string) : result DataFrame :=
  rs <- loc_rows (rows_of df) labels ;;
  Ok (mkDF (map fst rs) (columns df) (map snd rs)).

(** [df.dropna(axis=1)]: drop every column that holds a missing value. *)
Definition present (c : cell) : bool :=
  match c with
  | Some _ => true
  | None => false
  end.

Definition column_complete (rows : list (list cell)) (j : nat) : bool :=
  forallb (fun row => match nth_error row j with
                      | Some c => present c
                      | None => true
                      end) rows.

Fixpoint keep_mask {A : Type} (mask : list bool) (l : list A) : list A :=
  match mask, l with
  | b :: mask', x :: l' =>
      if b then x :: keep_mask mask' l' else keep_mask mask' l'
  | _, _ => []
  end.

Definition complete_mask (df : DataFrame) : list bool :=
  map (column_complete (values df)) (seq 0 (length (columns df))).

Definition dropna (df : DataFrame) : DataFrame :=
  let mask := complete_mask df in
  mkDF (index df) (keep_mask mask (columns df))
       (map (keep_mask mask) (values df)).

(** [df.abs()]. *)
Definition df_abs (df : DataFrame) : DataFrame :=
  mkDF (index df) (columns df) (map (map (option_map Qabs)) (values df)).

(** The numbers of a row, missing values skipped. *)
Fixpoint numbers (row : list cell) : list Q :=
  match row with
  | [] => []
  | Some x :: row' => x :: numbers row'
  | None :: row' => numbers row'
  end.

Definition Qsum (l : list Q) : Q := fold_right Qplus 0 l.

(** Sample variance (one degree of freedom removed); NaN below two values. *)
Definition variance (l : list Q) : option Q :=
  match l with
  | [] | [_] => None
  | _ =>
      let n := inject_Z (Z.of_nat (length l)) in
      let mean := Qsum l / n in
      Some (Qsum (map (fun x => (x - mean) * (x - mean)) l) / (n - 1))
  end.

(** [df.var(axis=1)] and [df.sum(axis=1)]. *)
Definition var (df : DataFrame) : Series :=
  map (fun p => (fst p, variance (numbers (snd p)))) (rows_of df).

Definition sum (df : DataFrame) : Series :=
  map (fun p => (fst p, Some (Qsum (numbers (snd p))))) (rows_of df).

(** Order of the keys in [sort_values]; NaN goes last either way. *)
Definition key_le (ascending : bool) (a b : option Q) : bool :=
  match a, b with
  | Some x, Some y => if ascending then Qle_bool x y else Qle_bool y x
  | Some _, None => true
  | None, Some _ => false
  | None, None => true
  end.

Fixpoint insert_by (ascending : bool) (p : string * option Q) (s : Series)
  : Series :=
  match s with
  | [] => [p]
  | q :: s' =>
      if key_le ascending (snd p) (snd q) then p :: q :: s'
      else q :: insert_by ascending p s'
  end.

(** [s.sort_values(ascending=...)]: equal keys keep their order. *)
Definition sort_values (ascending : bool) (s : Series) : Series :=
  fold_right (insert_by ascending) [] s.

Definition series_index (s : Series) : list string := map fst s.

(** [df.to_numpy(na_value=0)], flattened. *)
Definition to_numpy0 (df : DataFrame) : list Q :=
  flat_map (map (fun c : cell => match c with
                                 | Some x => x
                                 | None => 0
                                 end)) (values df).

(** [arr.min()] and [arr.max()]: [ValueError] on an empty array. *)
Definition arr_min (l : list Q) : result Q :=
  match l with
  | [] => Raise ValueError
  | x :: xs => Ok (fold_left Qmin xs x)
  end.

Definition arr_max (l : list Q) : result Q :=
  match l with
  | [] => Raise ValueError
  | x :: xs => Ok (fold_left Qmax xs x)
  end.

(** [df * -1]: missing values stay missing. *)
Definition df_neg (df : DataFrame) : DataFrame :=
  mkDF (index df) (columns df) (map (map (option_map neg1)) (values df)).

(** [df[idx] = df[idx]*-1]: every column labelled [idx] is negated. *)
Fixpoint flip_in_row (idx : Z) (cols : list Z) (row : list cell) : list cell :=
  match cols, row with
  | c :: cs, x :: xs =>
      (if Z.eqb c idx then option_map neg1 x else x) :: flip_in_row idx cs xs
  | _, _ => row
  end.

Definition flip_column (idx : Z) (df : DataFrame) : DataFrame :=
  mkDF (index df) (columns df)
       (map (flip_in_row idx (columns df)) (values df)).

(** [np.array(rows, dtype=int).transpose()] for rows of length [n]. *)
Definition transpose (n : nat) (rows : list (list Z)) : list (list Z) :=
  map (fun j => map (fun r => nth j r 0%Z) rows) (seq 0 n).

Definition Zsum (l : list Z) : Z := fold_right Z.add 0%Z l.

End Pd.

Import Pd.

(** ** utils.py *)

Module Utils.

(** One pass of the loop body of [polarize] over the windows after the
    first: the state is [prev_window] and the votes appended so far. *)
Definition vote_step (st : Q * list Z) (window : cell) : Q * list Z :=
  let '(prev_window, out) := st in
  match window with
  | None => (prev_window, out ++ [0%Z])
  | Some w =>
      if Qgtb (Qabs (w - prev_window)) (Qabs (w - neg1 prev_window))
      then (neg1 w, out ++ [1%Z])
      else (w, out ++ [(-1)%Z])
  end.

(** The votes of one guide sample; [row[0]] raises on an empty row. *)
Definition row_votes (row : list cell) : result (list Z) :=
  match row with
  | [] => Raise IndexError
  | r0 :: rest =>
      let prev_window := match r0 with
                         | Some x => x
                         | None => 0
                         end in
      Ok (snd (fold_left vote_step rest (prev_window, [0%Z])))
  end.

(** Lines 120-126: the guide samples and the frame of their rows.  The
    branch taken when [guide_samples] is truthy splits [mean_threshold]. *)
Definition select_guides (w_pca_df : DataFrame)
  (var_threshold mean_threshold guide_samples : pyval)
  : result (DataFrame * list string) :=
  if truthy guide_samples then
    guide_samples <- py_split mean_threshold ;;
    guide_samples_df <- loc w_pca_df guide_samples ;;
    Ok (guide_samples_df, guide_samples)
  else
    guide_samples <-
      slice0 (series_index
                (sort_values true (var (df_abs (dropna w_pca_df)))))
             var_threshold ;;
    guide_samples_df <- loc w_pca_df guide_samples ;;
    guide_samples <-
      slice0 (series_index
                (sort_values false (sum (df_abs (dropna guide_samples_df)))))
             mean_threshold ;;
    Ok (guide_samples_df, guide_samples).

(** Lines 156-157: the votes of every window summed over the guide rows;
    numpy refuses [axis=1] on the array built from no row at all. *)
Definition switch_lst (rows_lst : list (list Z)) : result (list Z) :=
  match rows_lst with
  | [] => Raise AxisError
  | r :: _ => Ok (map Zsum (transpose (length r) rows_lst))
  end.

(** Lines 160-162: the loop over [zip(columns, switch_lst)]. *)
Definition switch_step (df : DataFrame) (p : Z * Z) : DataFrame :=
  if (snd p <? 0)%Z then flip_column (fst p) df else df.

Definition switch_windows (w_pca_df : DataFrame) (switch : list Z)
  : DataFrame :=
  fold_left switch_step (combine (columns w_pca_df) switch) w_pca_df.

(** Lines 164-166: switch the Y axis. *)
Definition switch_axis (w_pca_df : DataFrame) : result DataFrame :=
  lo <- arr_min (to_numpy0 w_pca_df) ;;
  hi <- arr_max (to_numpy0 w_pca_df) ;;
  Ok (if Qgtb (Qabs lo) (Qabs hi) then df_neg w_pca_df else w_pca_df).

(** Lines 129-168, from the guide samples on. *)
Definition polarize_with (w_pca_df guide_samples_df : DataFrame)
  (guide_samples : list string) : result DataFrame :=
  guide_samples_df <- loc guide_samples_df guide_samples ;;
  rows_lst <- mapM row_votes (values guide_samples_df) ;;
  switch <- switch_lst rows_lst ;;
  switch_axis (switch_windows w_pca_df switch).

Definition polarize (w_pca_df : DataFrame)
  (var_threshold mean_threshold guide_samples : pyval) : result DataFrame :=
  sel <- select_guides w_pca_df var_threshold mean_threshold guide_samples ;;
  polarize_with w_pca_df (fst sel) (snd sel).

(** Binding of the arguments of a call: none of the four parameters of
    [polarize] has a default, so a call that leaves one out raises. *)
Definition call_polarize (w_pca_df : option DataFrame)
  (var_threshold mean_threshold guide_samples : option pyval)
  : result DataFrame :=
  match w_pca_df, var_threshold, mean_threshold, guide_samples with
  | Some d, Some v, Some m, Some g => polarize d v m g
  | _, _, _, _ => Raise TypeError
  end.

End Utils.

(** ** windowed_pca.py *)

Module WindowedPca.

(** The settings at the head of the module. *)
Module Settings.
Definition min_var_per_w : Z := 50.
Definition mean_threshold : Z := 3.
Definition float_precision : Z := 7.
End Settings.

(** The module-level lists [pca] appends to, and what was printed to
    the error stream. *)
Record globals : Type := mkGlobals {
  w_mid_lst : list Z;
  w_pca_lst : list (list cell);
  w_stats_lst : list (option Q * option Q * Z);
  stderr : list string
}.

(** Code that updates the globals and may raise: the updates made before
    an exception stay. *)
Definition M (A : Type) : Type := globals -> globals * result A.

Definition ret {A : Type} (a : A) : M A := fun g => (g, Ok a).

Definition raise {A : Type} (e : exn) : M A := fun g => (g, Raise e).

Definition bindM {A B : Type} (m : M A) (k : A -> M B) : M B :=
  fun g =>
    match m g with
    | (g', Ok a) => k a g'
    | (g', Raise e) => (g', Raise e)
    end.

Definition lift {A : Type} (r : result A) : M A := fun g => (g, r).

Definition print_err (s : string) : M unit :=
  fun g => (mkGlobals (w_mid_lst g) (w_pca_lst g) (w_stats_lst g)
                      (stderr g ++ [s]), Ok tt).

Definition append_mid (w_mid : Z) : M unit :=
  fun g => (mkGlobals (w_mid_lst g ++ [w_mid]) (w_pca_lst g) (w_stats_lst g)
                      (stderr g), Ok tt).

Definition append_pca (v : list cell) : M unit :=
  fun g => (mkGlobals (w_mid_lst g) (w_pca_lst g ++ [v]) (w_stats_lst g)
                      (stderr g), Ok tt).

Definition append_stats (r : option Q * option Q * Z) : M unit :=
  fun g => (mkGlobals (w_mid_lst g) (w_pca_lst g) (w_stats_lst g ++ [r])
                      (stderr g), Ok tt).

Definition reset_lists : M unit :=
  fun g => (mkGlobals [] [] [] (stderr g), Ok tt).

Definition get : M globals := fun g => (g, Ok g).

Notation "x <~ e ;; k" := (bindM e (fun x => k))
  (at level 61, e at next level, right associativity).
Notation "e ;;; k" := (bindM e (fun _ => k))
  (at level 61, right associativity).

(** What the program reads off the value of [allel.pca]: the two columns
    of the coordinates and the two leading explained-variance ratios. *)
Record allel_model : Type := mkAllel {
  coords_0 : list Q;
  coords_1 : list Q;
  explained_variance_ratio_0 : Q;
  explained_variance_ratio_1 : Q
}.

(** The list [out] of [pca]. *)
Record window_out : Type := mkWindowOut {
  out_0 : list cell;
  out_1 : list cell;
  out_2 : option Q;
  out_3 : option Q;
  out_4 : Z
}.

Definition newline : string := String (ascii_of_nat 10) EmptyString.

Section Pipeline.

(** [allel.pca] on the genotype array of a window (scikit-allel). *)
Variable allel_pca : list (list Z) -> result allel_model.

(** The setting [min_var_per_w] and the argument [pc]. *)
Variable min_var_per_w : Z.
Variable pc : Z.

Definition skip_notice (w_start w_size n_variants : Z) : string :=
  ("[INFO] Skipped window " ++ str_int w_start ++ "-"
   ++ str_int (w_start + w_size - 1) ++ " with " ++ str_int n_variants
   ++ " variants (threshold is " ++ str_int min_var_per_w
   ++ " variants per window)")%string.

(** Lines 122-164: the value of [out]. *)
Definition window_result (win : list (list Z)) (w_start w_size : Z)
  : M window_out :=
  let n_variants := Z.of_nat (length win) in
  if (min_var_per_w <=? n_variants)%Z then
    model <~ lift (allel_pca win) ;;
    ret (mkWindowOut (map Some (coords_0 model))
                     (map Some (coords_1 model))
                     (Some (explained_variance_ratio_0 model * 100))
                     (Some (explained_variance_ratio_1 model * 100))
                     n_variants)
  else
    print_err (skip_notice w_start w_size n_variants) ;;;
    match win with
    | [] => raise IndexError
    | win_0 :: _ =>
        let empty_array := repeat (@None Q) (length win_0) in
        ret (mkWindowOut empty_array empty_array None None n_variants)
    end.

Definition pca (win : list (list Z)) (w_start w_size : Z) : M unit :=
  let win := map (@tl Z) win in
  let w_mid := ((2 * w_start + w_size - 2) ÷ 2)%Z in
  out <~ window_result win w_start w_size ;;
  append_mid w_mid ;;;
  (if (pc =? 1)%Z then append_pca (out_0 out) else ret tt) ;;;
  append_stats (out_2 out, out_3 out, out_4 out).

(** Modelled from the spec: [window_parser.win_vcf] and
    [window_parser.win_gt_file] are not among the sources.  The Window
    Source yields the windows in position order and hands each one, with
    its start, to the callback it was given. *)
Fixpoint window_source (windows : list (list (list Z) * Z)) (w_size : Z)
  (func : list (list Z) -> Z -> Z -> M unit) : M unit :=
  match windows with
  | [] => ret tt
  | w :: ws =>
      func (fst w) (snd w) w_size ;;; window_source ws w_size func
  end.

(** The shape pandas sees for [np.transpose(w_pca_lst)]: an empty list
    gives a one-dimensional empty array, read as no row and one column. *)
Definition transposed_shape (l : list (list cell)) : result (nat * nat) :=
  match l with
  | [] => Ok (0, 1)%nat
  | v :: vs =>
      if forallb (fun u => Nat.eqb (length u) (length v)) vs
      then Ok (length v, length l)
      else Raise ValueError
  end.

Definition np_transpose (n : nat) (l : list (list cell)) : list (list cell) :=
  map (fun i => map (fun v => nth i v None) l) (seq 0 n).

(** [pd.DataFrame(np.transpose(w_pca_lst), index=..., columns=...)]. *)
Definition coordinate_frame (l : list (list cell)) (ids : list string)
  (mids : list Z) : result DataFrame :=
  shape <- transposed_shape l ;;
  if Nat.eqb (fst shape) (length ids) && Nat.eqb (snd shape) (length mids)
  then Ok (mkDF ids mids (np_transpose (length ids) l))
  else Raise ValueError.

(** The statistics table: one row [pct_explained_pc_1, pct_explained_pc_2,
    n_variants] per window midpoint. *)
Record StatsFrame : Type := mkStats {
  stats_index : list Z;
  stats_rows : list (option Q * option Q * Z)
}.

Definition windowed_pca (ids : list string)
  (windows : list (list (list Z) * Z)) (w_size : Z)
  : M (DataFrame * StatsFrame) :=
  reset_lists ;;;
  window_source windows w_size pca ;;;
  g <~ get ;;
  w_pca_df <~ lift (coordinate_frame (w_pca_lst g) ids (w_mid_lst g)) ;;
  ret (w_pca_df, mkStats (w_mid_lst g) (w_stats_lst g)).

(** Lines 265-326 of [main], the branch on the two output files:
    [previous] holds the two tables read back when both files exist.
    This is a part of [main], not the whole of it: [main] gets here only
    when lines 232-263 have returned, and the call of [read_metadata]
    among them is embedded as [Metadata.main_read_metadata]. *)
Definition main_data_path (previous : option (DataFrame * StatsFrame))
  (ids : list string) (windows : list (list (list Z) * Z)) (w_size : Z)
  (guide_samples : string) : M (DataFrame * StatsFrame) :=
  match previous with
  | Some tables =>
      print_err
        (newline ++ "[INFO] Plotting data from previous run")%string ;;;
      ret tables
  | None =>
      print_err
        (newline ++ "[INFO] Conducting windowed PCA" ++ newline)%string ;;;
      tables <~ windowed_pca ids windows w_size ;;
      w_pca_df <~ lift (Utils.call_polarize (Some (fst tables)) None
                          (Some (PyInt Settings.mean_threshold))
                          (Some (PyStr guide_samples))) ;;
      print_err (newline ++ "[INFO] Writing output TSVs")%string ;;;
      ret (w_pca_df, snd tables)
  end.

End Pipeline.

End WindowedPca.

(** ** The rules of the specification, in its own words *)

Module Spec.

(** One window after the first: from the running reference [prev] and the
    window value to the vote and the next reference. *)
Inductive vote_rule (prev : Q) : cell -> Z -> Q -> Prop :=
| vote_missing :
    vote_rule prev None 0%Z prev
| vote_flip (v : Q) :
    Qabs (v - (- prev)) < Qabs (v - prev) ->
    vote_rule prev (Some v) 1%Z (- v)
| vote_keep (v : Q) :
    ~ Qabs (v - (- prev)) < Qabs (v - prev) ->
    vote_rule prev (Some v) (-1)%Z v.

Inductive votes_from : Q -> list cell -> list Z -> Prop :=
| votes_nil (prev : Q) :
    votes_from prev [] []
| votes_cons (prev prev' : Q) (v : cell) (vote : Z)
    (vs : list cell) (votes : list Z) :
    vote_rule prev v vote prev' ->
    votes_from prev' vs votes ->
    votes_from prev (v :: vs) (vote :: votes).

(** A number held by the track (a finite value). *)
Definition finite_value (df : DataFrame) (x : Q) : Prop :=
  exists i j, cell_at df i j = Some (Some x).

(** A finite value of the largest magnitude is non-negative. *)
Definition largest_magnitude_nonneg (df : DataFrame) : Prop :=
  exists x, finite_value df x /\ 0 <= x /\
            forall y, finite_value df y -> Qabs y <= Qabs x.

(** Every selected guide sample has a value in every window. *)
Definition only_complete_samples (df : DataFrame) (names : list string)
  : Prop :=
  forall s row, In s names -> In (s, row) (rows_of df) -> ~ In None row.

End Spec.

(** ** Notions used to state the properties *)

Module Aux.

(** The effect of one step of the switching loop on a single row. *)
Definition row_step (cols : list Z) (row : list cell) (p : Z * Z)
  : list cell :=
  if (snd p <? 0)%Z then flip_in_row (fst p) cols row else row.

(** Some pair of the loop switches the column labelled [c]. *)
Definition flipped_by (ps : list (Z * Z)) (c : Z) : bool :=
  existsb (fun p => (snd p <? 0)%Z && (fst p =? c)%Z) ps.

(** The votes a window received, summed over the guide samples. *)
Definition summed_vote (rows_lst : list (list Z)) (j : nat) : Z :=
  Zsum (map (fun votes => nth j votes 0%Z) rows_lst).

(** The order [sort_values] puts two entries of a Series in. *)
Definition key_rel (ascending : bool) (p q : string * option Q) : Prop :=
  key_le ascending (snd p) (snd q) = true.

(** The key of the first selection: the variance of the magnitudes of a
    row over the windows that no row of [df] misses. *)
Definition stability (df : DataFrame) (row : list cell) : option Q :=
  variance (numbers (map (option_map Qabs)
                         (keep_mask (complete_mask df) row))).

(** The key of the second selection: the sum of the magnitudes of a row
    over the windows that no row of [df] misses. *)
Definition magnitude (df : DataFrame) (row : list cell) : Q :=
  Qsum (numbers (map (option_map Qabs)
                     (keep_mask (complete_mask df) row))).

(** A cell and what a change of sign can make of it. *)
Definition sign_of (x y : cell) : Prop :=
  y = x \/ y = option_map Qopp x.

Definition sign_of_row (row row' : list cell) : Prop :=
  Forall2 sign_of row row'.

(** Same labels, and each row a change of signs of the row it was. *)
Definition sign_of_frame (df df' : DataFrame) : Prop :=
  index df' = index df /\ columns df' = columns df /\
  Forall2 sign_of_row (values df) (values df').

(** A row with the cells at the positions marked [true] negated. *)
Fixpoint sflip (marks : list bool) (row : list cell) : list cell :=
  match marks, row with
  | b :: marks', x :: row' =>
      (if b then option_map neg1 x else x) :: sflip marks' row'
  | _, _ => row
  end.

(** A vote list with the votes at the positions marked [true] negated. *)
Fixpoint vflip (marks : list bool) (votes : list Z) : list Z :=
  match marks, votes with
  | b :: marks', v :: votes' =>
      (if b then (- v)%Z else v) :: vflip marks' votes'
  | _, _ => votes
  end.

(** A frame with every row rewritten. *)
Definition map_rows (f : list cell -> list cell) (df : DataFrame)
  : DataFrame :=
  mkDF (index df) (columns df) (map f (values df)).

(** A rewriting of rows that keeps every magnitude (and so every missing
    value). *)
Definition keeps_magnitudes (f : list cell -> list cell) : Prop :=
  forall row, map (option_map Qabs) (f row) = map (option_map Qabs) row.

(** The sign of a number: -1, 0 or 1. *)
Definition Qsgn (x : Q) : Z := Z.sgn (Qnum x).

(** The vote of a window against a reference of sign [s]. *)
Definition sign_vote (s : Z) (c : cell) : Z :=
  match c with
  | None => 0%Z
  | Some v => if (Qsgn v * s =? -1)%Z then 1%Z else (-1)%Z
  end.

(** A cell that is missing or not zero. *)
Definition steady_cell (c : cell) : Prop :=
  match c with
  | Some v => Qsgn v <> 0%Z
  | None => True
  end.

(** A guide row whose first window has a value and none of whose values
    is zero. *)
Definition steady_row (row : list cell) : Prop :=
  match row with
  | Some x :: rest => Qsgn x <> 0%Z /\ Forall steady_cell rest
  | _ => False
  end.

(** A cell that holds a number other than zero. *)
Definition nonzero_number (c : cell) : Prop :=
  match c with
  | Some v => Qsgn v <> 0%Z
  | None => False
  end.

End Aux.

(** ** Concrete tracks *)

Module Examples.

Open Scope string_scope.

(** Three samples, three windows; the third sample misses window 2. *)
Definition track3 : DataFrame :=
  mkDF ["s1"; "s2"; "s3"] [500; 1500; 2500]%Z
       [[Some 1; Some 1; Some (-1)];
        [Some 2; Some (-2); Some 3];
        [Some (-3); None; Some 5]].


(** Two samples, four windows, the first window skipped. *)
Definition skipped_first : DataFrame :=
  mkDF ["s1"; "s2"] [500; 1500; 2500; 3500]%Z
       [[None; Some 1; Some 1; Some 1];
        [None; Some 1; Some (-1); Some 1]].

(** A stand-in for [allel.pca] on two samples. *)
Definition engine2 (win : list (list Z)) : result WindowedPca.allel_model :=
  Ok (WindowedPca.mkAllel [1; -1] [2; -2] (3 # 5) (1 # 5)).

(** One window of two variants over two samples, starting at 1. *)
Definition window2 : list (list (list Z) * Z) :=
  [([[100; 0; 2]; [200; 1; 1]]%Z, 1%Z)].

Definition no_globals : WindowedPca.globals :=
  WindowedPca.mkGlobals [] [] [] [].

End Examples.

(** ** Python text *)

(** The methods of [str] the two files call.  A string is a sequence of
    code points below 256. *)
Module Text.

Definition tab : ascii := ascii_of_nat 9.
Definition newline_char : ascii := ascii_of_nat 10.
Definition slash : ascii := "/"%char.

(** [s.split(sep)] for a separator of one character. *)
Fixpoint split (sep : ascii) (s : string) : list string :=
  match s with
  | EmptyString => [EmptyString]
  | String c s' =>
      if Ascii.eqb c sep then EmptyString :: split sep s'
      else match split sep s' with
           | h :: t => String c h :: t
           | [] => [String c EmptyString]
           end
  end.

(** [sep.join(l)]. *)
Fixpoint join (sep : string) (l : list string) : string :=
  match l with
  | [] => EmptyString
  | [x] => x
  | x :: l' => (x ++ sep ++ join sep l')%string
  end.

(** The characters of a string, as [sep.join(s)] iterates over them. *)
Fixpoint chars (s : string) : list string :=
  match s with
  | EmptyString => []
  | String c s' => String c EmptyString :: chars s'
  end.

(** [c in s] for one character. *)
Fixpoint contains (c : ascii) (s : string) : bool :=
  match s with
  | EmptyString => false
  | String d s' => Ascii.eqb d c || contains c s'
  end.

(** [s.startswith(p)] and [s.endswith(p)]. *)
Definition startswith (p s : string) : bool := String.prefix p s.

Fixpoint endswith (p s : string) : bool :=
  String.eqb p s ||
  match s with
  | EmptyString => false
  | String _ s' => endswith p s'
  end.

(** The white space [str.strip()] removes, among the code points below
    256: 9 to 13, 28 to 32, 133 and 160. *)
Definition is_space (c : ascii) : bool :=
  let n := nat_of_ascii c in
  ((9 <=? n) && (n <=? 13) || (28 <=? n) && (n <=? 32)
   || (n =? 133) || (n =? 160))%nat.

Fixpoint lstrip (s : string) : string :=
  match s with
  | EmptyString => EmptyString
  | String c s' => if is_space c then lstrip s' else s
  end.

Fixpoint rstrip (s : string) : string :=
  match s with
  | EmptyString => EmptyString
  | String c s' =>
      match rstrip s' with
      | EmptyString => if is_space c then EmptyString else String c EmptyString
      | r => String c r
      end
  end.

Definition strip (s : string) : string := rstrip (lstrip s).

(** [s.lower()] on code points below 256: A to Z and the capital letters
    from 192 to 222 (215, the multiplication sign, is no letter). *)
Definition lower_char (c : ascii) : ascii :=
  let n := nat_of_ascii c in
  if ((65 <=? n) && (n <=? 90)
      || (192 <=? n) && (n <=? 222) && negb (n =? 215))%nat
  then ascii_of_nat (n + 32)
  else c.

Fixpoint lower (s : string) : string :=
  match s with
  | EmptyString => EmptyString
  | String c s' => String (lower_char c) (lower s')
  end.

(** The last character of a string. *)
Fixpoint last_char (s : string) : option ascii :=
  match s with
  | EmptyString => None
  | String c EmptyString => Some c
  | String _ s' => last_char s'
  end.

End Text.

(** ** Exceptions raised outside [polarize] and [pca] *)

Module Py2.

Inductive exn2 : Type :=
| UnboundLocalError
| SystemExit
| FileExistsError.

Inductive result2 (A : Type) : Type :=
| Ok2 (a : A)
| Raise2 (e : exn2).

Arguments Ok2 {A} a.
Arguments Raise2 {A} e.

End Py2.

(** ** windowed_pca.py, the functions around the pipeline *)

Module WindowedPcaMore.

Import Text Py2.

(** The globals [parse_arguments] sets. *)
Record arguments : Type := mkArguments {
  variant_file_path : string;
  metadata_path : string;
  output_prefix : string;
  chrom : string;
  start : Z;
  stop : Z;
  w_size : Z;
  w_step : Z;
  pc : Z;
  taxon : string;
  group : string;
  color_taxon : string;
  guide_samples : string
}.

(** [l[i]] on a list. *)
Definition item {A : Type} (l : list A) (i : nat) : result A :=
  match nth_error l i with
  | Some x => Ok x
  | None => Raise IndexError
  end.

Section Arguments.

(** The builtin [int] on a [str], and the text of the help message. *)
Variable py_int : string -> result Z.
Variable usage : string.

(** Lines 86-95, after the arguments are unpacked. *)
Definition parse_region (variant_file_path metadata_path output_prefix region
  w_size w_step pc taxon group color_taxon guide_samples : string)
  : result arguments :=
  chrom <- item (split ":"%char region) 0 ;;
  after <- item (split ":"%char region) 1 ;;
  start <- item (split "-"%char after) 0 ;;
  after' <- item (split ":"%char region) 1 ;;
  stop <- item (split "-"%char after') 1 ;;
  start <- py_int start ;;
  stop <- py_int stop ;;
  w_size <- py_int w_size ;;
  w_step <- py_int w_step ;;
  pc <- py_int pc ;;
  Ok (mkArguments variant_file_path metadata_path (lower output_prefix)
        chrom start stop w_size w_step pc taxon group color_taxon
        guide_samples).

(** [parse_arguments] on [sys.argv]: what it prints to the error stream
    and what it returns.  The twelve names of line 42 take exactly twelve
    values. *)
Definition parse_arguments (argv : list string)
  : list string * result arguments :=
  match argv with
  | [_; variant_file_path; metadata_path; output_prefix; region; w_size;
     w_step; pc; taxon; group; color_taxon; guide_samples] =>
      let printed :=
        if (length argv <? 12)%nat then [usage] else [] in
      (printed,
       parse_region variant_file_path metadata_path output_prefix region
         w_size w_step pc taxon group color_taxon guide_samples)
  | _ => ([], Raise ValueError)
  end.

End Arguments.

(** [fetch_variant_file_samples]: [lines] are the lines the file yields,
    each with its line end. *)
Definition header_step (found : option (list string)) (line : string)
  : option (list string) :=
  if startswith "#CHROM" line
  then Some (skipn 9 (split tab (strip line)))
  else found.

Definition fetch_variant_file_samples (variant_file_path : string)
  (lines : list string) : result2 (list string) :=
  if endswith ".vcf" variant_file_path
     || endswith ".vcf.gz" variant_file_path
  then
    match fold_left header_step lines None with
    | Some variant_file_sample_lst => Ok2 variant_file_sample_lst
    | None => Raise2 UnboundLocalError
    end
  else if endswith ".tsv" variant_file_path
          || endswith ".tsv.gz" variant_file_path
  then Ok2 (skipn 2 (split tab (strip (hd EmptyString lines))))
  else Raise2 UnboundLocalError.

(** Lines 234-237 of [main]: the path whose existence is tested, and the
    call of [os.makedirs], which refuses a path that exists.  [exists_]
    tells which paths exist; the value is the directory created, if any. *)
Definition probe_path (output_prefix : string) : string :=
  (join "/" (chars (last (split slash output_prefix) EmptyString)) ++ "/")
  %string.

Definition prepare_output_dir (exists_ : string -> bool)
  (output_prefix : string) : result2 (option string) :=
  if contains slash output_prefix then
    if negb (exists_ (probe_path output_prefix)) then
      if exists_ output_prefix then Raise2 FileExistsError
      else Ok2 (Some output_prefix)
    else Ok2 None
  else Ok2 None.

(** Lines 257-263 of [main]: [len(ids) == len(set(ids))], else a notice
    on the error stream and [sys.exit()]. *)
Definition duplicate_ids_notice : string :=
  String newline_char
    ("[ERROR] Duplicate sample IDs (first metadata column)"
     ++ String newline_char EmptyString).

Definition check_ids (ids : list string) : list string * result2 unit :=
  if Nat.eqb (length ids) (length (nodup string_dec ids))
  then ([], Ok2 tt)
  else ([duplicate_ids_notice], Raise2 SystemExit).

End WindowedPcaMore.

(** ** utils.py, the functions around [polarize] *)

Module UtilsMore.

Import Text.

Section Arguments.

Variable py_int : string -> result Z.
Variable usage : string.

(** The globals this [parse_arguments] sets: [pc] stays a [str]. *)
Record arguments : Type := mkArguments {
  variant_file_path : string;
  metadata_path : string;
  output_prefix : string;
  chrom : string;
  start : Z;
  stop : Z;
  w_size : Z;
  w_step : Z;
  pc : string;
  taxon : string;
  group : string;
  color_taxon : string;
  guide_samples : string
}.

Definition parse_region (variant_file_path metadata_path output_prefix region
  w_size w_step pc taxon group color_taxon guide_samples : string)
  : result arguments :=
  chrom <- WindowedPcaMore.item (split ":"%char region) 0 ;;
  after <- WindowedPcaMore.item (split ":"%char region) 1 ;;
  start <- WindowedPcaMore.item (split "-"%char after) 0 ;;
  after' <- WindowedPcaMore.item (split ":"%char region) 1 ;;
  stop <- WindowedPcaMore.item (split "-"%char after') 1 ;;
  start <- py_int start ;;
  stop <- py_int stop ;;
  w_size <- py_int w_size ;;
  w_step <- py_int w_step ;;
  Ok (mkArguments variant_file_path metadata_path (lower output_prefix)
        chrom start stop w_size w_step pc taxon group color_taxon
        guide_samples).

(** Lines 16-69: the help message is printed when [sys.argv] does not
    hold thirteen values. *)
Definition parse_arguments (argv : list string)
  : list string * result arguments :=
  match argv with
  | [_; variant_file_path; metadata_path; output_prefix; region; w_size;
     w_step; pc; taxon; group; color_taxon; guide_samples] =>
      let printed :=
        if negb (length argv =? 13)%nat then [usage] else [] in
      (printed,
       parse_region variant_file_path metadata_path output_prefix region
         w_size w_step pc taxon group color_taxon guide_samples)
  | _ => ([], Raise ValueError)
  end.

End Arguments.

(** A value of the column [pct_explained_pc_1]: a number, NaN, or [None]
    (a column that holds nothing else keeps its [None]s). *)
Inductive pct : Type :=
| PctNum (x : Q)
| PctNaN
| PctNone.

(** [a > b] between two such values. *)
Definition py_gt (a b : pct) : result bool :=
  match a, b with
  | PctNone, _ | _, PctNone => Raise TypeError
  | PctNum x, PctNum y => Ok (Qgtb x y)
  | _, _ => Ok false
  end.

(** The builtin [max] on a sequence: the first item, replaced by each
    later item that is greater. *)
Fixpoint max_from (maxitem : pct) (l : list pct) : result pct :=
  match l with
  | [] => Ok maxitem
  | item :: l' =>
      greater <- py_gt item maxitem ;;
      max_from (if greater then item else maxitem) l'
  end.

Definition py_max (l : list pct) : result pct :=
  match l with
  | [] => Raise ValueError
  | x :: l' => max_from x l'
  end.

(** Lines 264-269 of [plot_w_stats]: one pass of the loop over
    [zip(index, n_variants)]; the state is [missing_stretches] and
    [stretch]. *)
Definition stretch_step (min_var_per_w : Z)
  (st : list (list Z) * list Z) (row : Z * Z) : list (list Z) * list Z :=
  let '(missing_stretches, stretch) := st in
  let '(w_mid, n_variants) := row in
  if (min_var_per_w <=? n_variants)%Z then
    match stretch with
    | [] => (missing_stretches, stretch)
    | _ => (missing_stretches ++ [stretch], [])
    end
  else (missing_stretches, stretch ++ [w_mid]).

(** Lines 262-270. *)
Definition missing_stretches (min_var_per_w : Z) (rows : list (Z * Z))
  : list (list Z) :=
  let '(missing_stretches, stretch) :=
    fold_left (stretch_step min_var_per_w) rows ([], []) in
  match stretch with
  | [] => missing_stretches
  | _ => missing_stretches ++ [stretch]
  end.

(** [x[0]] and [x[-1]]. *)
Definition first_item (x : list Z) : result Z :=
  match x with
  | [] => Raise IndexError
  | a :: _ => Ok a
  end.

Definition last_item (x : list Z) : result Z :=
  match x with
  | [] => Raise IndexError
  | a :: x' => Ok (last x' a)
  end.

(** Line 288: the edges 0.0001 before and after every stretch. *)
Definition gap_edges (missing_stretches : list (list Z)) : result (list Q) :=
  lower <- mapM (fun x => a <- first_item x ;;
                          Ok (inject_Z a - (1 # 10000)))
                missing_stretches ;;
  upper <- mapM (fun x => a <- last_item x ;;
                          Ok (inject_Z a + (1 # 10000)))
                missing_stretches ;;
  Ok (lower ++ upper).

(** What [plot_w_stats] computes from the table before it draws the
    covers of the missing stretches: [pc_1_max], the stretches and the
    edges.  A row of the table is its midpoint, [pct_explained_pc_1] and
    [n_variants]. *)
Definition stretch_data (w_stats_df : list (Z * pct * Z))
  (min_var_per_w : Z) : result (pct * list (list Z) * list Q) :=
  pc_1_max <- py_max (map (fun r => snd (fst r)) w_stats_df) ;;
  let stretches :=
    missing_stretches min_var_per_w
      (map (fun r => (fst (fst r), snd r)) w_stats_df) in
  edges <- gap_edges stretches ;;
  Ok (pc_1_max, stretches, edges).

End UtilsMore.

(** ** Rounding *)

(** The arithmetic of the program is that of floats.  In this module the
    comparison of line 146 of utils.py and the midpoint of line 126 of
    windowed_pca.py are written with the rounding made explicit: [fl x]
    is the float the machine holds for the exact result [x].  Negation,
    multiplication by -1, absolute value and comparison are exact on
    floats and carry no rounding.  The keys by which the guide samples
    are selected stay exact; what is proved of [polarize] here holds
    whichever samples are selected. *)
Module Float.

(** What is assumed of [fl], each a property of rounding to nearest: it
    depends on the value only, it is monotone and odd, a sum of two
    positive floats is rounded to more than the larger one as soon as
    the larger is less than [ratio] times the smaller ([ratio] is 2^53
    for binary64), and the halves of the integers up to [ratio] are
    floats. *)
Record rounding (fl : Q -> Q) (ratio : Q) : Prop := mkRounding {
  fl_compat : forall x y, x == y -> fl x == fl y;
  fl_mono : forall x y, x <= y -> fl x <= fl y;
  fl_odd : forall x, fl (- x) == - fl x;
  fl_gap : forall M m, fl M == M -> fl m == m -> 0 < m -> 0 < M ->
                       M < ratio * m -> M < fl (M + m);
  fl_half : forall k : Z, Qabs (inject_Z k) <= ratio ->
                          fl (inject_Z k / 2) == inject_Z k / 2
}.

(** [int(x)] on a float: truncation towards zero. *)
Definition Qtrunc (x : Q) : Z :=
  if Qle_bool 0 x then Qfloor x else Qceiling x.

Section Rounding.

Variable fl : Q -> Q.

(** Lines 141-151 of [polarize], the two differences of line 146
    rounded. *)
Definition vote_step (st : Q * list Z) (window : cell) : Q * list Z :=
  let '(prev_window, out) := st in
  match window with
  | None => (prev_window, out ++ [0%Z])
  | Some w =>
      if Qgtb (Qabs (fl (w - prev_window)))
              (Qabs (fl (w - neg1 prev_window)))
      then (neg1 w, out ++ [1%Z])
      else (w, out ++ [(-1)%Z])
  end.

Definition row_votes (row : list cell) : result (list Z) :=
  match row with
  | [] => Raise IndexError
  | r0 :: rest =>
      let prev_window := match r0 with
                         | Some x => x
                         | None => 0
                         end in
      Ok (snd (fold_left vote_step rest (prev_window, [0%Z])))
  end.

Definition polarize_with (w_pca_df guide_samples_df : DataFrame)
  (guide_samples : list string) : result DataFrame :=
  guide_samples_df <- loc guide_samples_df guide_samples ;;
  rows_lst <- mapM row_votes (values guide_samples_df) ;;
  switch <- Utils.switch_lst rows_lst ;;
  Utils.switch_axis (Utils.switch_windows w_pca_df switch).

Definition polarize (w_pca_df : DataFrame)
  (var_threshold mean_threshold guide_samples : pyval) : result DataFrame :=
  sel <- Utils.select_guides w_pca_df var_threshold mean_threshold
           guide_samples ;;
  polarize_with w_pca_df (fst sel) (snd sel).

(** Line 126 of [pca]: [int(w_start + w_size/2 - 1)], the quotient, the
    conversion of [w_start], the sum and the difference rounded. *)
Definition w_mid (w_start w_size : Z) : Z :=
  Qtrunc (fl (fl (fl (inject_Z w_start) + fl (inject_Z w_size / 2)) - 1)).

End Rounding.

End Float.

(** ** Notions used to state the properties of the rounded arithmetic *)

Module AuxFloat.

(** Every number of the row is a float. *)
Definition held (fl : Q -> Q) (row : list cell) : Prop :=
  forall x, In (Some x) row -> fl x == x.

(** No number of the row is [ratio] times another in magnitude, or
    more. *)
Definition balanced (ratio : Q) (row : list cell) : Prop :=
  forall x y, In (Some x) row -> In (Some y) row ->
              Qabs x < ratio * Qabs y.

(** A guide row on which the rounded comparison decides as the exact one:
    a value in the first window, no zero, floats, of comparable
    magnitudes. *)
Definition sound_row (fl : Q -> Q) (ratio : Q) (row : list cell) : Prop :=
  Aux.steady_row row /\ held fl row /\ balanced ratio row.

(** A row without a missing value and without a zero, of floats of
    comparable magnitudes. *)
Definition regular_row (fl : Q -> Q) (ratio : Q) (row : list cell) : Prop :=
  Forall Aux.nonzero_number row /\ held fl row /\ balanced ratio row.

End AuxFloat.

(** ** The two tables as text *)

(** Modelled from the spec: the tables are written by pandas' [to_csv]
    and read back by [read_csv], which are not among the sources.  The
    specification says: tab-delimited tables with 7-decimal-digit float
    precision and the literal missing-value token NA. *)
Module Serial.

(** Modelled from the spec: a field of the text is the token NA or a
    decimal with seven digits after the point; [Decimal n] is the
    decimal of value [n / 10^7]. *)
Inductive field : Type :=
| NA
| Decimal (n : Z).

Definition ten7 : Q := 10000000.

(** Modelled from the spec: rounding to the nearest integer, an exact
    half going to the even one, as ['%.7f'] rounds. *)
Definition nearest (x : Q) : Z :=
  let f := Qfloor x in
  match Qcompare (x - inject_Z f) (1 # 2) with
  | Lt => f
  | Gt => (f + 1)%Z
  | Eq => if Z.even f then f else (f + 1)%Z
  end.

(** Modelled from the spec: a cell written with seven decimals, a
    missing one as NA. *)
Definition write_cell (c : cell) : field :=
  match c with
  | None => NA
  | Some x => Decimal (nearest (x * ten7))
  end.

(** Modelled from the spec: a field read back. *)
Definition read_field (f : field) : cell :=
  match f with
  | NA => None
  | Decimal n => Some (inject_Z n / ten7)
  end.

(** Modelled from the spec: the text of a coordinate table. *)
Record text_table : Type := mkText {
  text_index : list string;
  text_columns : list Z;
  text_fields : list (list field)
}.

(** Modelled from the spec: writing and reading the coordinate table
    (lines 313-319 and 271-277 of [main]). *)
Definition to_csv (df : DataFrame) : text_table :=
  mkText (index df) (columns df) (map (map write_cell) (values df)).

Definition read_csv (t : text_table) : DataFrame :=
  mkDF (text_index t) (text_columns t) (map (map read_field) (text_fields t)).

Definition round_trip (df : DataFrame) : DataFrame := read_csv (to_csv df).

(** Modelled from the spec: the same for the statistics table (lines
    320-326 and 278-283); the variant counts are integers and are
    written as they are. *)
Definition stats_round_trip (s : WindowedPca.StatsFrame)
  : WindowedPca.StatsFrame :=
  WindowedPca.mkStats (WindowedPca.stats_index s)
    (map (fun r => (read_field (write_cell (fst (fst r))),
                    read_field (write_cell (snd (fst r))),
                    snd r))
         (WindowedPca.stats_rows s)).

(** A cell and the cell read back for it: missing for missing; a number
    of magnitude up to 10^6 for a number within 10^-7 of it, and the
    number itself when it has at most seven decimals. *)
Definition reread (c c' : cell) : Prop :=
  match c, c' with
  | None, None => True
  | Some x, Some y =>
      Qabs x <= 1000000 ->
      Qabs (y - x) < 1 # 10000000 /\
      (forall k : Z, x == inject_Z k / ten7 -> y == x)
  | _, _ => False
  end.

End Serial.

(** ** The call of [read_metadata] in [main] *)

Module Metadata.

Import Text.

(** A value passed for a path: a [str], or a list of [str]. *)
Inductive pyobj : Type :=
| ObjStr (s : string)
| ObjList (l : list string).

(** How a call ends: it returns, it raises one of the exceptions of
    [exn], or it raises what opening or reading a file raises. *)
Inductive outcome (E A : Type) : Type :=
| Returned (a : A)
| PyRaise (e : exn)
| IoRaise (e : E).

Arguments Returned {E A} a.
Arguments PyRaise {E A} e.
Arguments IoRaise {E A} e.

Section ReadMetadata.

(** The file system and pandas: [readline p] opens the file at [p] as
    text (through gzip when the name ends in [.gz]) and reads its first
    line; [read_csv_path p] is [pd.read_csv] on a path; [rest] stands for
    lines 88-108 of [read_metadata], pandas operations on the table
    read. *)
Variables E table : Type.
Variable readline : string -> E + string.
Variable read_csv_path : string -> outcome E table.
Variable rest : table -> list string -> string -> string -> outcome E table.

(** [pd.read_csv(filepath_or_buffer, sep='\t')]: a list is neither a
    path nor a buffer. *)
Definition read_csv (filepath_or_buffer : pyobj) : outcome E table :=
  match filepath_or_buffer with
  | ObjStr p => read_csv_path p
  | ObjList _ => PyRaise ValueError
  end.

(** [read_metadata(variant_file_path, metadata_path, taxon, group)],
    utils.py lines 72-108. *)
Definition read_metadata (variant_file_path metadata_path : pyobj)
  (taxon group : string) : outcome E table :=
  match variant_file_path with
  | ObjList _ => PyRaise AttributeError
  | ObjStr p =>
      match readline p with
      | inl e => IoRaise e
      | inr line =>
          let samples_lst := skipn 2 (split tab (strip line)) in
          match read_csv metadata_path with
          | Returned metadata_df => rest metadata_df samples_lst taxon group
          | PyRaise e => PyRaise e
          | IoRaise e => IoRaise e
          end
      end
  end.

(** Lines 250-255 of [main]: the call
    [read_metadata(metadata_path, variant_file_sample_lst, taxon=taxon,
    group=group)]. *)
Definition main_read_metadata (metadata_path : string)
  (variant_file_sample_lst : list string) (taxon group : string)
  : outcome E table :=
  read_metadata (ObjStr metadata_path) (ObjList variant_file_sample_lst)
    taxon group.

End ReadMetadata.

End Metadata.

(** ** Auxiliary notions for the functions around the pipeline *)

Module AuxMore.

(** The stretches once the one being collected is closed. *)
Definition stretch_close (st : list (list Z) * list Z) : list (list Z) :=
  match snd st with
  | [] => fst st
  | _ => fst st ++ [snd st]
  end.

(** A window counted below the threshold. *)
Definition below_threshold (min_var_per_w : Z) (row : Z * Z) : bool :=
  (snd row <? min_var_per_w)%Z.

End AuxMore.

(** * Properties *)

Import Utils Aux.

(** ** Arithmetic of coordinates *)

Lemma neg1_opp (x : Q) : neg1 x = - x.
Proof.
  destruct x as [n d]. unfold neg1, Qmult, Qopp. simpl.
  f_equal; [lia | apply Pos.mul_1_r].
Qed.

Lemma Qopp_opp_eq (x : Q) : - - x = x.
Proof.
  destruct x as [n d]. unfold Qopp. simpl. f_equal. lia.
Qed.

Lemma Qabs_neg1 (x : Q) : Qabs (neg1 x) = Qabs x.
Proof.
  rewrite neg1_opp. destruct x as [n d]. unfold Qabs, Qopp. simpl.
  f_equal. lia.
Qed.

Lemma Qgtb_true_iff (x y : Q) : Qgtb x y = true <-> y < x.
Proof.
  unfold Qgtb. rewrite negb_true_iff, <- not_true_iff_false, Qle_bool_iff.
  split; [apply Qnot_le_lt | apply Qlt_not_le].
Qed.

Lemma Qgtb_false_iff (x y : Q) : Qgtb x y = false <-> ~ y < x.
Proof.
  rewrite <- Qgtb_true_iff. destruct (Qgtb x y); split; congruence.
Qed.

(** ** The votes of a guide sample *)

Lemma vote_step_rule (prev : Q) (out : list Z) (v : cell) :
  exists vote prev',
    vote_step (prev, out) v = (prev', out ++ [vote]) /\
    Spec.vote_rule prev v vote prev'.
Proof.
  destruct v as [w|]; unfold vote_step.
  - destruct (Qgtb (Qabs (w - prev)) (Qabs (w - neg1 prev))) eqn:E.
    + exists 1%Z, (neg1 w). split; [reflexivity|].
      rewrite neg1_opp in *. constructor. now apply Qgtb_true_iff.
    + exists (-1)%Z, w. split; [reflexivity|].
      rewrite neg1_opp in *. constructor. now apply Qgtb_false_iff.
  - exists 0%Z, prev. split; [reflexivity | constructor].
Qed.

Lemma fold_votes_from (rest : list cell) :
  forall (prev : Q) (out : list Z),
  exists votes,
    snd (fold_left vote_step rest (prev, out)) = out ++ votes /\
    Spec.votes_from prev rest votes.
Proof.
  induction rest as [|v rest IH]; intros prev out; cbn [fold_left].
  - exists []. split; [cbn [snd]; now rewrite app_nil_r | constructor].
  - destruct (vote_step_rule prev out v) as (vote & prev' & Hstep & Hrule).
    rewrite Hstep.
    destruct (IH prev' (out ++ [vote])) as (votes & Hfold & Hvotes).
    exists (vote :: votes). split.
    + rewrite Hfold, <- app_assoc. reflexivity.
    + econstructor; eassumption.
Qed.

(** The rules leave no choice: a reference and a row have one vote list. *)
Lemma vote_rule_fun (prev : Q) (v : cell) (vote1 vote2 : Z) (p1 p2 : Q) :
  Spec.vote_rule prev v vote1 p1 -> Spec.vote_rule prev v vote2 p2 ->
  vote1 = vote2 /\ p1 = p2.
Proof.
  intros H1 H2; inversion H1; subst; inversion H2; subst;
    solve [auto | contradiction].
Qed.

Lemma votes_from_fun (rest : list cell) :
  forall (prev : Q) (votes1 votes2 : list Z),
  Spec.votes_from prev rest votes1 -> Spec.votes_from prev rest votes2 ->
  votes1 = votes2.
Proof.
  induction rest as [|v rest IH]; intros prev votes1 votes2 H1 H2;
    inversion H1; subst; inversion H2; subst; [reflexivity|].
  match goal with
  | Ha : Spec.vote_rule prev v _ _, Hb : Spec.vote_rule prev v _ _ |- _ =>
      destruct (vote_rule_fun _ _ _ _ _ _ Ha Hb) as [-> ->]
  end.
  f_equal. eapply IH; eassumption.
Qed.


(** ** Lists, the error monad and frames *)

Lemma nth_error_combine {A B : Type} (l : list A) (l' : list B) (n : nat) :
  nth_error (combine l l') n =
  match nth_error l n, nth_error l' n with
  | Some a, Some b => Some (a, b)
  | _, _ => None
  end.
Proof.
  revert l' n. induction l as [|a l IH]; intros [|b l'] [|n]; simpl;
    try reflexivity.
  - now destruct (nth_error l n).
  - apply IH.
Qed.

Lemma NoDup_fst_combine {A B : Type} (l : list A) (l' : list B) :
  NoDup l -> NoDup (map fst (combine l l')).
Proof.
  revert l'. induction l as [|a l IH]; intros [|b l'] H; simpl;
    try constructor.
  - inversion H; subst. intros Hin. apply in_map_iff in Hin.
    destruct Hin as ([a' b'] & Ha & Hin). simpl in Ha. subst a'.
    apply in_combine_l in Hin. contradiction.
  - inversion H; subst. now apply IH.
Qed.

Lemma mapM_Forall2 {A B : Type} (f : A -> result B) (l : list A) :
  forall ys, mapM f l = Ok ys -> Forall2 (fun x y => f x = Ok y) l ys.
Proof.
  induction l as [|x l IH]; simpl; intros ys H.
  - inversion H. constructor.
  - destruct (f x) as [y|e] eqn:Hx; [|discriminate].
    destruct (mapM f l) as [ys'|e] eqn:Hl; [|discriminate].
    inversion H; subst. constructor; auto.
Qed.

Lemma bind_Ok {A B : Type} (m : result A) (k : A -> result B) (b : B) :
  Py.bind m k = Ok b -> exists a, m = Ok a /\ k a = Ok b.
Proof.
  destruct m as [a|e]; simpl; [eauto | discriminate].
Qed.

Lemma frame_eta (df : DataFrame) :
  mkDF (index df) (columns df) (values df) = df.
Proof. now destruct df. Qed.

(** ** Switching the windows *)

Lemma flip_in_row_nth_error (idx : Z) (cols : list Z) :
  forall (row : list cell) (j : nat),
  nth_error (flip_in_row idx cols row) j =
  match nth_error cols j with
  | Some c =>
      if (c =? idx)%Z then option_map (option_map neg1) (nth_error row j)
      else nth_error row j
  | None => nth_error row j
  end.
Proof.
  induction cols as [|c cols IH]; intros [|x row] [|j]; simpl;
    try reflexivity; try apply IH.
  - now destruct (c =? idx)%Z.
  - now destruct (nth_error cols j) as [c'|]; [destruct (c' =? idx)%Z|].
  - now destruct (c =? idx)%Z.
Qed.


Lemma fold_switch_step (ps : list (Z * Z)) :
  forall df,
  fold_left switch_step ps df =
  mkDF (index df) (columns df)
       (map (fun row => fold_left (row_step (columns df)) ps row)
            (values df)).
Proof.
  induction ps as [|p ps IH]; intros df; simpl.
  - rewrite map_id. symmetry. apply frame_eta.
  - rewrite IH. unfold switch_step, row_step.
    destruct (snd p <? 0)%Z; simpl; [|reflexivity].
    now rewrite map_map.
Qed.

Lemma flipped_by_absent (ps : list (Z * Z)) (c : Z) :
  ~ In c (map fst ps) -> flipped_by ps c = false.
Proof.
  intros Hnot. apply not_true_iff_false. intros H.
  apply existsb_exists in H. destruct H as (p & Hin & Hp).
  apply andb_true_iff in Hp. destruct Hp as [_ Hc].
  apply Z.eqb_eq in Hc. subst c. apply Hnot. now apply in_map.
Qed.

Lemma row_fold_nth_error (cols : list Z) (ps : list (Z * Z)) :
  NoDup (map fst ps) ->
  forall (row : list cell) (j : nat),
  nth_error (fold_left (row_step cols) ps row) j =
  match nth_error cols j with
  | Some c =>
      if flipped_by ps c then option_map (option_map neg1) (nth_error row j)
      else nth_error row j
  | None => nth_error row j
  end.
Proof.
  induction ps as [|p ps IH]; intros Hnd row j; simpl.
  - now destruct (nth_error cols j).
  - inversion Hnd as [|? ? Hnotin Hnd']; subst.
    rewrite (IH Hnd'). unfold row_step.
    destruct (snd p <? 0)%Z eqn:Hneg.
    + rewrite flip_in_row_nth_error.
      destruct (nth_error cols j) as [c|]; [|reflexivity].
      rewrite (Z.eqb_sym (fst p) c).
      destruct (c =? fst p)%Z eqn:Hc; simpl; [|reflexivity].
      apply Z.eqb_eq in Hc. subst c.
      now rewrite (flipped_by_absent _ _ Hnotin).
    + now destruct (nth_error cols j) as [c|].
Qed.

Lemma flipped_by_combine (cols : list Z) (sw : list Z) (j : nat) (c : Z) :
  NoDup cols -> nth_error cols j = Some c ->
  flipped_by (combine cols sw) c = (nth j sw 0 <? 0)%Z.
Proof.
  intros Hnd Hc.
  destruct (nth j sw 0 <? 0)%Z eqn:Hneg.
  - apply existsb_exists. exists (c, nth j sw 0%Z). split.
    + apply (nth_error_In _ j). rewrite nth_error_combine, Hc.
      destruct (nth_error sw j) as [v|] eqn:Hv.
      * now rewrite (nth_error_nth _ _ 0%Z Hv).
      * rewrite (nth_error_nth_None _ _ 0%Z Hv) in Hneg. discriminate.
    + simpl. now rewrite Hneg, Z.eqb_refl.
  - apply not_true_iff_false. intros H.
    apply existsb_exists in H. destruct H as ([c' v] & Hin & Hp).
    simpl in Hp. apply andb_true_iff in Hp. destruct Hp as [Hv Hc'].
    apply Z.eqb_eq in Hc'. subst c'.
    apply In_nth_error in Hin. destruct Hin as [k Hk].
    rewrite nth_error_combine in Hk.
    destruct (nth_error cols k) as [ck|] eqn:Hck; [|discriminate].
    destruct (nth_error sw k) as [vk|] eqn:Hvk; [|discriminate].
    inversion Hk; subst ck vk.
    assert (k = j) as ->.
    { apply (proj1 (NoDup_nth_error cols) Hnd).
      - apply nth_error_Some. congruence.
      - congruence. }
    rewrite (nth_error_nth _ _ 0%Z Hvk) in Hneg. congruence.
Qed.

(** A cell after the loop, for distinct column labels. *)
Lemma switch_windows_cell (df : DataFrame) (sw : list Z) (i j : nat) :
  NoDup (columns df) -> (j < length (columns df))%nat ->
  cell_at (switch_windows df sw) i j =
  if (nth j sw 0 <? 0)%Z
  then option_map (option_map neg1) (cell_at df i j)
  else cell_at df i j.
Proof.
  intros Hnd Hj. unfold switch_windows, cell_at.
  rewrite fold_switch_step. simpl. rewrite nth_error_map.
  destruct (nth_error (values df) i) as [row|]; simpl.
  - rewrite row_fold_nth_error by now apply NoDup_fst_combine.
    destruct (nth_error (columns df) j) as [c|] eqn:Hc.
    + now rewrite (flipped_by_combine _ sw _ _ Hnd Hc).
    + apply nth_error_None in Hc. lia.
  - now destruct (nth j sw 0 <? 0)%Z.
Qed.


(** The entries of [switch_lst] are the summed votes. *)
Lemma switch_lst_nth (rows_lst : list (list Z)) (sw : list Z) (n j : nat) :
  Forall (fun votes => length votes = n) rows_lst ->
  switch_lst rows_lst = Ok sw ->
  (j < n)%nat ->
  length sw = n /\ nth j sw 0%Z = summed_vote rows_lst j.
Proof.
  intros Hlen Hsw Hj. unfold switch_lst in Hsw.
  destruct rows_lst as [|r rows]; [discriminate|].
  inversion Hsw; subst sw; clear Hsw.
  inversion Hlen; subst. unfold transpose.
  rewrite !length_map, length_seq. split; [reflexivity|].
  apply nth_error_nth. rewrite nth_error_map, nth_error_map, nth_error_seq.
  apply Nat.ltb_lt in Hj. rewrite Hj. reflexivity.
Qed.

Lemma votes_from_length (rest : list cell) :
  forall prev votes, Spec.votes_from prev rest votes ->
  length votes = length rest.
Proof.
  induction rest as [|v rest IH]; intros prev votes H; inversion H; subst;
    simpl; [reflexivity|]. f_equal. eapply IH; eassumption.
Qed.

Lemma row_votes_length (row : list cell) (votes : list Z) :
  row_votes row = Ok votes -> length votes = length row.
Proof.
  destruct row as [|first rest]; [discriminate|]. unfold row_votes.
  set (prev := match first with Some x => x | None => 0 end).
  destruct (fold_votes_from rest prev [0%Z]) as (votes' & Hfold & Hvotes).
  rewrite Hfold. intros H; inversion H; subst. simpl. f_equal.
  eapply votes_from_length; eassumption.
Qed.

(** C2.  A window is switched exactly when the votes it received, summed
    over the guide samples, are strictly negative: then every number of
    its column is multiplied by -1 and every missing value stays missing;
    a window whose summed vote is zero or positive keeps its column. *)
Theorem C2_switch_iff_negative_sum :
  forall (w_pca_df : DataFrame) (guide_rows : list (list cell))
         (rows_lst : list (list Z)) (switch : list Z),
    NoDup (columns w_pca_df) ->
    Forall (fun row => length row = length (columns w_pca_df)) guide_rows ->
    mapM row_votes guide_rows = Ok rows_lst ->
    switch_lst rows_lst = Ok switch ->
    forall (i j : nat),
      (j < length (columns w_pca_df))%nat ->
      ((summed_vote rows_lst j < 0)%Z ->
       (forall x, cell_at w_pca_df i j = Some (Some x) ->
                  cell_at (switch_windows w_pca_df switch) i j
                  = Some (Some (x * (-1)))) /\
       (cell_at w_pca_df i j = Some None ->
        cell_at (switch_windows w_pca_df switch) i j = Some None)) /\
      ((0 <= summed_vote rows_lst j)%Z ->
       cell_at (switch_windows w_pca_df switch) i j = cell_at w_pca_df i j).
Proof.
  intros df guide_rows rows_lst sw Hnd Hlen Hvotes Hsw i j Hj.
  assert (Hrect : Forall (fun votes => length votes = length (columns df))
                         rows_lst).
  { apply mapM_Forall2 in Hvotes. clear Hsw.
    induction Hvotes as [|row votes rows votess Hrow _ IH]; constructor.
    - inversion Hlen; subst. apply row_votes_length in Hrow. congruence.
    - inversion Hlen; subst. now apply IH. }
  destruct (switch_lst_nth _ _ _ _ Hrect Hsw Hj) as [_ Hnth].
  rewrite (switch_windows_cell _ sw i _ Hnd Hj), Hnth.
  split.
  - intros Hneg. apply Z.ltb_lt in Hneg. rewrite Hneg.
    split; [intros x Hx | intros Hx]; now rewrite Hx.
  - intros Hpos. apply Z.ltb_ge in Hpos. now rewrite Hpos.
Qed.

Lemma C2_switch_iff_negative_sum_witness :
  NoDup (columns Examples.track3) /\
  Forall (fun row => length row = length (columns Examples.track3))
         [[Some 1; Some 1; Some (-1)]] /\
  mapM row_votes [[Some 1; Some 1; Some (-1)]] = Ok [[0; -1; 1]%Z] /\
  switch_lst [[0; -1; 1]%Z] = Ok [0; -1; 1]%Z /\
  (1 < length (columns Examples.track3))%nat /\
  ((summed_vote [[0; -1; 1]%Z] 1 < 0)%Z ->
   (forall x, cell_at Examples.track3 1 1 = Some (Some x) ->
              cell_at (switch_windows Examples.track3 [0; -1; 1]%Z) 1 1
              = Some (Some (x * (-1)))) /\
   (cell_at Examples.track3 1 1 = Some None ->
    cell_at (switch_windows Examples.track3 [0; -1; 1]%Z) 1 1 = Some None)) /\
  ((0 <= summed_vote [[0; -1; 1]%Z] 1)%Z ->
   cell_at (switch_windows Examples.track3 [0; -1; 1]%Z) 1 1
   = cell_at Examples.track3 1 1).
Proof.
  assert (Hnd : NoDup (columns Examples.track3)).
  { simpl. repeat constructor; simpl; intros H;
      repeat (destruct H as [H|H]; [discriminate|]); exact H. }
  assert (Hlen : Forall (fun row => length row
                                    = length (columns Examples.track3))
                        [[Some 1; Some 1; Some (-1)]]).
  { repeat constructor. }
  assert (Hj : (1 < length (columns Examples.track3))%nat).
  { simpl. lia. }
  repeat (split; [first [exact Hnd | exact Hlen | exact Hj | reflexivity]|]).
  exact (C2_switch_iff_negative_sum Examples.track3
           [[Some 1; Some 1; Some (-1)]] [[0; -1; 1]%Z] [0; -1; 1]%Z
           Hnd Hlen
           (eq_refl : mapM row_votes [[Some 1; Some 1; Some (-1)]]
                      = Ok [[0; -1; 1]%Z])
           (eq_refl : switch_lst [[0; -1; 1]%Z] = Ok [0; -1; 1]%Z)
           1%nat 1%nat Hj).
Defined.

(** ** The PCA engine and the aggregation of its results *)

Import WindowedPca.

Lemma window_result_lists (allel_pca : list (list Z) -> result allel_model)
  (T : Z) (win : list (list Z)) (w_start w_size : Z) (g : globals) :
  w_mid_lst (fst (window_result allel_pca T win w_start w_size g))
  = w_mid_lst g /\
  w_pca_lst (fst (window_result allel_pca T win w_start w_size g))
  = w_pca_lst g /\
  w_stats_lst (fst (window_result allel_pca T win w_start w_size g))
  = w_stats_lst g.
Proof.
  unfold window_result. destruct (T <=? Z.of_nat (length win))%Z.
  - unfold bindM, lift. destruct (allel_pca win); simpl; auto.
  - unfold bindM, print_err. destruct win; simpl; auto.
Qed.

(** A window below the threshold that holds at least one variant: no call
    to the engine, a notice on the error stream, and an output whose
    coordinates are all missing. *)
Lemma window_result_sparse (allel_pca : list (list Z) -> result allel_model)
  (T : Z) (win_0 : list Z) (win : list (list Z)) (w_start w_size : Z)
  (g : globals) :
  (Z.of_nat (length (win_0 :: win)) < T)%Z ->
  window_result allel_pca T (win_0 :: win) w_start w_size g =
  (mkGlobals (w_mid_lst g) (w_pca_lst g) (w_stats_lst g)
     (stderr g ++ [skip_notice T w_start w_size
                     (Z.of_nat (length (win_0 :: win)))]),
   Ok (mkWindowOut (repeat None (length win_0)) (repeat None (length win_0))
         None None (Z.of_nat (length (win_0 :: win))))).
Proof.
  intros Hlt. unfold window_result.
  apply Z.leb_gt in Hlt. rewrite Hlt. reflexivity.
Qed.

(** What [pca] records for such a window. *)
Lemma pca_sparse_window (allel_pca : list (list Z) -> result allel_model)
  (T pc : Z) (win_0 : list Z) (win : list (list Z)) (w_start w_size : Z)
  (g : globals) :
  (Z.of_nat (length (win_0 :: win)) < T)%Z ->
  pca allel_pca T pc (win_0 :: win) w_start w_size g =
  (mkGlobals
     (w_mid_lst g ++ [((2 * w_start + w_size - 2) ÷ 2)%Z])
     (if (pc =? 1)%Z
      then w_pca_lst g ++ [repeat None (length (tl win_0))]
      else w_pca_lst g)
     (w_stats_lst g ++ [(None, None, Z.of_nat (length (win_0 :: win)))])
     (stderr g ++ [skip_notice T w_start w_size
                     (Z.of_nat (length (win_0 :: win)))]),
   Ok tt).
Proof.
  intros Hlt. unfold pca, bindM. cbn [map].
  rewrite window_result_sparse
    by (cbn [length] in *; now rewrite length_map).
  cbn [length]. rewrite length_map.
  destruct (pc =? 1)%Z; reflexivity.
Qed.

(** C3.  On the window that holds no variant at all, which is below the
    threshold of 50, [pca] prints the notice and then raises [IndexError]
    at [win[0]]: no result with missing coordinates and variant count 0 is
    recorded. *)
Theorem C3_empty_window_raises :
  forall (allel_pca : list (list Z) -> result allel_model)
         (pc w_start w_size : Z) (g : globals),
    pca allel_pca Settings.min_var_per_w pc [] w_start w_size g =
    (mkGlobals (w_mid_lst g) (w_pca_lst g) (w_stats_lst g)
       (stderr g ++ [skip_notice Settings.min_var_per_w w_start w_size 0]),
     Raise IndexError).
Proof.
  intros. reflexivity.
Qed.

Lemma pca_lists_second_component
  (allel_pca : list (list Z) -> result allel_model)
  (T : Z) (win : list (list Z)) (w_start w_size : Z) (g : globals) :
  w_pca_lst (fst (pca allel_pca T 2 win w_start w_size g)) = w_pca_lst g.
Proof.
  unfold pca, bindM.
  pose proof (window_result_lists allel_pca T (map (@tl Z) win)
                w_start w_size g) as (_ & Hp & _).
  destruct (window_result allel_pca T (map (@tl Z) win) w_start w_size g)
    as [g' [out|e]]; simpl in *; assumption.
Qed.

Lemma window_source_second_component
  (allel_pca : list (list Z) -> result allel_model) (T w_size : Z)
  (windows : list (list (list Z) * Z)) :
  forall g,
  w_pca_lst (fst (window_source windows w_size (pca allel_pca T 2) g))
  = w_pca_lst g.
Proof.
  induction windows as [|w ws IH]; intros g; simpl; [reflexivity|].
  unfold bindM at 1.
  pose proof (pca_lists_second_component allel_pca T (fst w) (snd w)
                w_size g) as Hp.
  destruct (pca allel_pca T 2 (fst w) (snd w) w_size g) as [g' [u|e]];
    simpl in *.
  - rewrite IH. assumption.
  - assumption.
Qed.

(** Every window adds its row [out[2], out[3], out[4]] to the statistics,
    whatever [pc] is. *)
Lemma pca_appends_stats (allel_pca : list (list Z) -> result allel_model)
  (T pc : Z) (win : list (list Z)) (w_start w_size : Z) (g g1 : globals)
  (out : window_out) :
  window_result allel_pca T (map (@tl Z) win) w_start w_size g
  = (g1, Ok out) ->
  w_stats_lst (fst (pca allel_pca T pc win w_start w_size g))
  = w_stats_lst g ++ [(out_2 out, out_3 out, out_4 out)] /\
  w_mid_lst (fst (pca allel_pca T pc win w_start w_size g))
  = w_mid_lst g ++ [((2 * w_start + w_size - 2) ÷ 2)%Z] /\
  snd (pca allel_pca T pc win w_start w_size g) = Ok tt.
Proof.
  intros Hout.
  pose proof (window_result_lists allel_pca T (map (@tl Z) win)
                w_start w_size g) as (Hm & _ & Hs).
  unfold pca, bindM. rewrite Hout in *. simpl in Hm, Hs.
  destruct (pc =? 1)%Z; simpl; rewrite Hm, Hs; auto.
Qed.

(** C4.  With [pc = 2] no window ever adds its coordinates to [w_pca_lst]:
    only [pc == 1] reaches the [append] of line 168.  On a window for which
    the engine returns the components [1, -1] and [2, -2] (threshold set
    to 2 variants), the run for [pc = 1] builds the track from the first
    component, and the run for [pc = 2] has an empty coordinate list and
    raises in the DataFrame constructor, while both record the same
    statistics row. *)
Theorem C4_second_component_never_collected :
  (forall (allel_pca : list (list Z) -> result allel_model) (T w_size : Z)
          (windows : list (list (list Z) * Z)) (g : globals),
      w_pca_lst (fst (window_source windows w_size (pca allel_pca T 2) g))
      = w_pca_lst g) /\
  snd (windowed_pca Examples.engine2 2 1 ["a"; "b"]%string Examples.window2
         1000 Examples.no_globals)
  = Ok (mkDF ["a"; "b"]%string [500%Z] [[Some 1]; [Some (-1)]],
        mkStats [500%Z] [(Some ((3 # 5) * 100), Some ((1 # 5) * 100), 2%Z)]) /\
  snd (windowed_pca Examples.engine2 2 2 ["a"; "b"]%string Examples.window2
         1000 Examples.no_globals)
  = Raise ValueError /\
  w_pca_lst (fst (windowed_pca Examples.engine2 2 2 ["a"; "b"]%string
                    Examples.window2 1000 Examples.no_globals)) = [] /\
  w_stats_lst (fst (windowed_pca Examples.engine2 2 2 ["a"; "b"]%string
                      Examples.window2 1000 Examples.no_globals))
  = [(Some ((3 # 5) * 100), Some ((1 # 5) * 100), 2%Z)].
Proof.
  split; [|repeat split; reflexivity].
  intros. apply window_source_second_component.
Qed.

(** ** Guide samples given by the caller *)

(** C6.  The branch for supplied guide samples never reads them: it splits
    [mean_threshold].  Two different non-empty [guide_samples] give the
    same selection; with the integer threshold 3 the call raises
    [AttributeError] although the supplied sample "s1" is a row of the
    track; with [mean_threshold = "s2"] the guide is "s2", not the supplied
    "s1", and a supplied name that is no row of the track is not rejected;
    the call in [main] leaves [var_threshold] out and raises [TypeError]. *)
Theorem C6_supplied_guides_not_read :
  (forall (df : DataFrame) (vt mt : pyval) (c c' : ascii) (s s' : string),
      select_guides df vt mt (PyStr (String c s))
      = select_guides df vt mt (PyStr (String c' s'))) /\
  polarize Examples.track3 (PyInt 20) (PyInt 3) (PyStr "s1")
  = Raise AttributeError /\
  (exists gdf, select_guides Examples.track3 (PyInt 20) (PyStr "s2")
                 (PyStr "s1") = Ok (gdf, ["s2"%string])) /\
  (exists out, polarize Examples.track3 (PyInt 20) (PyStr "s2")
                 (PyStr "nobody") = Ok out) /\
  (forall (df : DataFrame) (gs : string),
      call_polarize (Some df) None (Some (PyInt Settings.mean_threshold))
        (Some (PyStr gs)) = Raise TypeError).
Proof.
  repeat split.
  - eexists. reflexivity.
  - eexists. reflexivity.
Qed.

(** ** Switching the axis *)

Lemma Qmin_cases (x y : Q) :
  (Qmin x y = x /\ x <= y) \/ (Qmin x y = y /\ y <= x).
Proof.
  unfold Qmin, GenericMinMax.gmin.
  destruct (x ?= y) eqn:E.
  - left. split; [reflexivity|]. apply Qeq_alt in E. rewrite E. apply Qle_refl.
  - left. split; [reflexivity|]. apply Qlt_alt in E. now apply Qlt_le_weak.
  - right. split; [reflexivity|]. apply Qgt_alt in E. now apply Qlt_le_weak.
Qed.

Lemma Qmax_cases (x y : Q) :
  (Qmax x y = x /\ y <= x) \/ (Qmax x y = y /\ x <= y).
Proof.
  unfold Qmax, GenericMinMax.gmax.
  destruct (x ?= y) eqn:E.
  - left. split; [reflexivity|]. apply Qeq_alt in E. rewrite E. apply Qle_refl.
  - right. split; [reflexivity|]. apply Qlt_alt in E. now apply Qlt_le_weak.
  - left. split; [reflexivity|]. apply Qgt_alt in E. now apply Qlt_le_weak.
Qed.

Lemma fold_Qmin_spec (xs : list Q) :
  forall x,
  In (fold_left Qmin xs x) (x :: xs) /\
  forall y, In y (x :: xs) -> fold_left Qmin xs x <= y.
Proof.
  induction xs as [|a xs IH]; intros x; simpl.
  - split; [now left|]. intros y [<-|[]]. apply Qle_refl.
  - destruct (IH (Qmin x a)) as [Hin Hle]. split.
    + destruct Hin as [Hin|Hin]; [|now right; right].
      rewrite <- Hin. destruct (Qmin_cases x a) as [[-> _]|[-> _]]; auto.
    + intros y Hy.
      assert (Hm : fold_left Qmin xs (Qmin x a) <= Qmin x a)
        by (apply Hle; now left).
      destruct Hy as [<-|[<-|Hy]].
      * pose proof (Q.le_min_l x a). lra.
      * pose proof (Q.le_min_r x a). lra.
      * apply Hle. now right.
Qed.

Lemma fold_Qmax_spec (xs : list Q) :
  forall x,
  In (fold_left Qmax xs x) (x :: xs) /\
  forall y, In y (x :: xs) -> y <= fold_left Qmax xs x.
Proof.
  induction xs as [|a xs IH]; intros x; simpl.
  - split; [now left|]. intros y [<-|[]]. apply Qle_refl.
  - destruct (IH (Qmax x a)) as [Hin Hle]. split.
    + destruct Hin as [Hin|Hin]; [|now right; right].
      rewrite <- Hin. destruct (Qmax_cases x a) as [[-> _]|[-> _]]; auto.
    + intros y Hy.
      assert (Hm : Qmax x a <= fold_left Qmax xs (Qmax x a))
        by (apply Hle; now left).
      destruct Hy as [<-|[<-|Hy]].
      * pose proof (Q.le_max_l x a). lra.
      * pose proof (Q.le_max_r x a). lra.
      * apply Hle. now right.
Qed.

Lemma arr_min_spec (l : list Q) (lo : Q) :
  arr_min l = Ok lo -> In lo l /\ forall y, In y l -> lo <= y.
Proof.
  destruct l as [|x xs]; [discriminate|]. intros H. inversion H.
  apply fold_Qmin_spec.
Qed.

Lemma arr_max_spec (l : list Q) (hi : Q) :
  arr_max l = Ok hi -> In hi l /\ forall y, In y l -> y <= hi.
Proof.
  destruct l as [|x xs]; [discriminate|]. intros H. inversion H.
  apply fold_Qmax_spec.
Qed.

Lemma to_numpy0_neg (df : DataFrame) :
  to_numpy0 (df_neg df) = map neg1 (to_numpy0 df).
Proof.
  unfold to_numpy0, df_neg. simpl.
  induction (values df) as [|row rows IH]; simpl; [reflexivity|].
  rewrite map_app, IH. f_equal. rewrite !map_map.
  apply map_ext. now intros [x|].
Qed.

(** After the switch the minimum is not larger in magnitude than the
    maximum, missing values read as 0. *)
Lemma switch_axis_post (df df' : DataFrame) :
  switch_axis df = Ok df' ->
  exists lo hi,
    arr_min (to_numpy0 df') = Ok lo /\ arr_max (to_numpy0 df') = Ok hi /\
    Qgtb (Qabs lo) (Qabs hi) = false.
Proof.
  unfold switch_axis. intros H.
  apply bind_Ok in H. destruct H as (lo & Hlo & H).
  apply bind_Ok in H. destruct H as (hi & Hhi & H).
  destruct (Qgtb (Qabs lo) (Qabs hi)) eqn:Hgt; inversion H; subst df';
    clear H; [|eauto].
  apply Qgtb_true_iff in Hgt.
  destruct (arr_min_spec _ _ Hlo) as [Hlo_in Hlo_le].
  destruct (arr_max_spec _ _ Hhi) as [Hhi_in Hhi_le].
  rewrite to_numpy0_neg.
  destruct (to_numpy0 df) as [|x xs] eqn:Hl; [discriminate|].
  rewrite <- Hl in *.
  destruct (arr_min (map neg1 (to_numpy0 df))) as [lo'|e] eqn:Hlo';
    [|rewrite Hl in Hlo'; discriminate].
  destruct (arr_max (map neg1 (to_numpy0 df))) as [hi'|e] eqn:Hhi';
    [|rewrite Hl in Hhi'; discriminate].
  exists lo', hi'. repeat split. apply Qgtb_false_iff.
  destruct (arr_min_spec _ _ Hlo') as [Hlo'_in Hlo'_le].
  destruct (arr_max_spec _ _ Hhi') as [Hhi'_in Hhi'_le].
  apply in_map_iff in Hlo'_in. destruct Hlo'_in as (y & <- & Hy).
  apply in_map_iff in Hhi'_in. destruct Hhi'_in as (z & <- & Hz).
  assert (Hy1 : neg1 y <= neg1 hi) by (apply Hlo'_le; now apply in_map).
  assert (Hz1 : neg1 lo <= neg1 z) by (apply Hhi'_le; now apply in_map).
  rewrite !neg1_opp in Hy1, Hz1. rewrite !Qabs_neg1.
  assert (Hy2 : y <= hi) by now apply Hhi_le.
  assert (Hz2 : lo <= z) by now apply Hlo_le.
  assert (Ey : y == hi) by lra.
  assert (Ez : z == lo) by lra.
  rewrite Ey, Ez. lra.
Qed.

(** Switching the axis of a switched track changes nothing. *)
Lemma switch_axis_stable (df df' : DataFrame) :
  switch_axis df = Ok df' -> switch_axis df' = Ok df'.
Proof.
  intros H. destruct (switch_axis_post _ _ H) as (lo & hi & Hlo & Hhi & Hgt).
  unfold switch_axis. rewrite Hlo, Hhi. simpl. now rewrite Hgt.
Qed.

(** What the switch does guarantee: no number of the track exceeds the
    maximum in magnitude. *)
Lemma switch_axis_bound (df df' : DataFrame) :
  switch_axis df = Ok df' ->
  exists hi, arr_max (to_numpy0 df') = Ok hi /\
             forall y, Spec.finite_value df' y -> Qabs y <= Qabs hi.
Proof.
  intros H. destruct (switch_axis_post _ _ H) as (lo & hi & Hlo & Hhi & Hgt).
  exists hi. split; [assumption|]. intros y (i & j & Hc).
  apply Qgtb_false_iff in Hgt.
  destruct (arr_min_spec _ _ Hlo) as [_ Hlo_le].
  destruct (arr_max_spec _ _ Hhi) as [_ Hhi_le].
  assert (Hin : In y (to_numpy0 df')).
  { unfold cell_at in Hc.
    destruct (nth_error (values df') i) as [row|] eqn:Hrow; [|discriminate].
    unfold to_numpy0. apply in_flat_map. exists row. split.
    - eapply nth_error_In; eassumption.
    - apply in_map_iff. exists (Some y). split; [reflexivity|].
      eapply nth_error_In; eassumption. }
  specialize (Hlo_le y Hin). specialize (Hhi_le y Hin).
  revert Hgt. apply Qabs_case; intros; apply Qabs_case; intros;
    revert Hgt; apply Qabs_case; intros; lra.
Qed.


(** ** Polarization only changes signs *)

Lemma sign_of_refl (x : cell) : sign_of x x.
Proof. now left. Qed.

Lemma sign_of_neg1 (x : cell) : sign_of x (option_map neg1 x).
Proof. right. destruct x as [x|]; simpl; [now rewrite neg1_opp | reflexivity]. Qed.

Lemma sign_of_trans (x y z : cell) : sign_of x y -> sign_of y z -> sign_of x z.
Proof.
  intros [->| ->] [->| ->]; try (now left); try (now right).
  left. destruct x as [x|]; simpl; [now rewrite Qopp_opp_eq | reflexivity].
Qed.

Lemma sign_of_row_refl (row : list cell) : sign_of_row row row.
Proof. induction row; constructor; [apply sign_of_refl | assumption]. Qed.

Lemma sign_of_row_trans (r1 r2 r3 : list cell) :
  sign_of_row r1 r2 -> sign_of_row r2 r3 -> sign_of_row r1 r3.
Proof.
  unfold sign_of_row. intros H12. revert r3.
  induction H12 as [|x y l l' Hxy _ IH]; intros r3 H23; inversion H23; subst;
    constructor.
  - eapply sign_of_trans; eassumption.
  - now apply IH.
Qed.

Lemma flip_in_row_sign (idx : Z) (cols : list Z) :
  forall row, sign_of_row row (flip_in_row idx cols row).
Proof.
  induction cols as [|c cols IH]; intros [|x row]; simpl;
    try apply sign_of_row_refl.
  constructor; [|apply IH].
  destruct (c =? idx)%Z; [apply sign_of_neg1 | apply sign_of_refl].
Qed.

Lemma row_fold_sign (cols : list Z) (ps : list (Z * Z)) :
  forall row, sign_of_row row (fold_left (row_step cols) ps row).
Proof.
  induction ps as [|p ps IH]; intros row; simpl.
  - apply sign_of_row_refl.
  - eapply sign_of_row_trans; [|apply IH]. unfold row_step.
    destruct (snd p <? 0)%Z; [apply flip_in_row_sign | apply sign_of_row_refl].
Qed.

Lemma neg_row_sign (row : list cell) :
  sign_of_row row (map (option_map neg1) row).
Proof.
  induction row; simpl; constructor; [apply sign_of_neg1 | assumption].
Qed.

Lemma Forall2_map_r {A B : Type} (R : A -> B -> Prop) (f : A -> B)
  (l : list A) :
  (forall a, R a (f a)) -> Forall2 R l (map f l).
Proof. intros H. induction l; simpl; constructor; auto. Qed.

Lemma sign_of_frame_trans (d1 d2 d3 : DataFrame) :
  sign_of_frame d1 d2 -> sign_of_frame d2 d3 -> sign_of_frame d1 d3.
Proof.
  intros (Hi & Hc & Hv) (Hi' & Hc' & Hv').
  repeat split; try congruence.
  clear - Hv Hv'. revert Hv'. generalize (values d3).
  induction Hv as [|x y l l' Hxy _ IH]; intros l3 H; inversion H; subst;
    constructor.
  - eapply sign_of_row_trans; eassumption.
  - now apply IH.
Qed.

Lemma switch_windows_sign (df : DataFrame) (sw : list Z) :
  sign_of_frame df (switch_windows df sw).
Proof.
  unfold switch_windows. rewrite fold_switch_step.
  repeat split. simpl. apply Forall2_map_r. intros row. apply row_fold_sign.
Qed.

Lemma switch_axis_cases (df df' : DataFrame) :
  switch_axis df = Ok df' -> df' = df \/ df' = df_neg df.
Proof.
  unfold switch_axis. intros H.
  apply bind_Ok in H. destruct H as (lo & _ & H).
  apply bind_Ok in H. destruct H as (hi & _ & H).
  destruct (Qgtb (Qabs lo) (Qabs hi)); inversion H; auto.
Qed.

Lemma switch_axis_sign (df df' : DataFrame) :
  switch_axis df = Ok df' -> sign_of_frame df df'.
Proof.
  intros H. destruct (switch_axis_cases _ _ H) as [-> | ->].
  - repeat split. rewrite <- (map_id (values df)) at 2.
    apply Forall2_map_r. apply sign_of_row_refl.
  - repeat split. simpl. apply Forall2_map_r. apply neg_row_sign.
Qed.

Lemma polarize_sign (df df' : DataFrame) (vt mt gs : pyval) :
  polarize df vt mt gs = Ok df' -> sign_of_frame df df'.
Proof.
  unfold polarize, polarize_with. intros H.
  apply bind_Ok in H. destruct H as (sel & _ & H).
  apply bind_Ok in H. destruct H as (gdf & _ & H).
  apply bind_Ok in H. destruct H as (rows_lst & _ & H).
  apply bind_Ok in H. destruct H as (sw & _ & H).
  eapply sign_of_frame_trans; [apply switch_windows_sign|].
  apply switch_axis_sign. eassumption.
Qed.

Lemma Forall2_nth_error {A B : Type} (R : A -> B -> Prop) (l : list A)
  (l' : list B) :
  Forall2 R l l' ->
  forall n,
  match nth_error l n, nth_error l' n with
  | Some a, Some b => R a b
  | None, None => True
  | _, _ => False
  end.
Proof.
  induction 1 as [|a b l l' Hab _ IH]; intros [|n]; simpl; auto.
  apply IH.
Qed.

Lemma sign_of_frame_cell (df df' : DataFrame) (i j : nat) :
  sign_of_frame df df' ->
  cell_at df' i j = cell_at df i j \/
  cell_at df' i j = option_map (option_map Qopp) (cell_at df i j).
Proof.
  intros (_ & _ & Hv). unfold cell_at.
  pose proof (Forall2_nth_error _ _ _ Hv i) as Hi.
  destruct (nth_error (values df) i) as [row|],
           (nth_error (values df') i) as [row'|]; try contradiction;
    [|now left].
  pose proof (Forall2_nth_error _ _ _ Hi j) as Hj.
  destruct (nth_error row j) as [x|], (nth_error row' j) as [y|];
    try contradiction; [|now left].
  destruct Hj as [-> | ->]; [now left | now right].
Qed.

(** ** Sorting a Series *)

Lemma key_le_total (asc : bool) (a b : option Q) :
  key_le asc a b = true \/ key_le asc b a = true.
Proof.
  destruct a as [x|], b as [y|]; simpl; auto.
  destruct asc; rewrite !Qle_bool_iff;
    destruct (Qlt_le_dec x y) as [H|H]; auto using Qlt_le_weak.
Qed.

Lemma key_le_trans (asc : bool) (a b c : option Q) :
  key_le asc a b = true -> key_le asc b c = true -> key_le asc a c = true.
Proof.
  destruct a as [x|], b as [y|], c as [z|]; simpl; auto; try discriminate.
  destruct asc; rewrite !Qle_bool_iff; intros; eapply Qle_trans; eassumption.
Qed.

Lemma insert_by_perm (asc : bool) (p : string * option Q) (s : Series) :
  Permutation (insert_by asc p s) (p :: s).
Proof.
  induction s as [|q s IH]; simpl; [reflexivity|].
  destruct (key_le asc (snd p) (snd q)); [reflexivity|].
  rewrite IH. apply perm_swap.
Qed.

Lemma sort_values_perm (asc : bool) (s : Series) :
  Permutation (sort_values asc s) s.
Proof.
  induction s as [|p s IH]; simpl; [reflexivity|].
  rewrite insert_by_perm. now constructor.
Qed.

Lemma insert_by_sorted (asc : bool) (p : string * option Q) (s : Series) :
  StronglySorted (key_rel asc) s ->
  StronglySorted (key_rel asc) (insert_by asc p s).
Proof.
  induction 1 as [|q s Hs IH Hq]; simpl.
  - repeat constructor.
  - destruct (key_le asc (snd p) (snd q)) eqn:E.
    + constructor; [now constructor|]. constructor; [exact E|].
      eapply Forall_impl; [|exact Hq]. intros r Hr.
      unfold key_rel in *. eapply key_le_trans; eassumption.
    + constructor; [assumption|].
      assert (Hqp : key_rel asc q p).
      { unfold key_rel. destruct (key_le_total asc (snd p) (snd q)); congruence. }
      eapply Permutation_Forall; [symmetry; apply insert_by_perm|].
      now constructor.
Qed.

Lemma sort_values_sorted (asc : bool) (s : Series) :
  StronglySorted (key_rel asc) (sort_values asc s).
Proof.
  induction s as [|p s IH]; simpl; [constructor|].
  now apply insert_by_sorted.
Qed.

Lemma in_firstn {A : Type} (k : nat) (l : list A) (x : A) :
  In x (firstn k l) -> In x l.
Proof.
  intros H. rewrite <- (firstn_skipn k l). apply in_or_app. now left.
Qed.

Lemma in_skipn {A : Type} (k : nat) (l : list A) (x : A) :
  In x (skipn k l) -> In x l.
Proof.
  intros H. rewrite <- (firstn_skipn k l). apply in_or_app. now right.
Qed.

Lemma sorted_firstn_skipn {A : Type} (R : A -> A -> Prop) (l : list A) :
  StronglySorted R l ->
  forall k x y, In x (firstn k l) -> In y (skipn k l) -> R x y.
Proof.
  induction 1 as [|a l Hl IH Ha]; intros [|k] x y Hx Hy; simpl in *;
    try contradiction.
  destruct Hx as [<-|Hx].
  - eapply Forall_forall; [exact Ha|]. eapply in_skipn. exact Hy.
  - eapply IH; eassumption.
Qed.

(** The [k] first labels of a sorted Series with distinct labels: their
    keys come before the keys of all other labels. *)
Lemma sorted_head_least (asc : bool) (s : Series) (k : nat) :
  NoDup (map fst s) ->
  forall a va b vb,
  In (a, va) s -> In (b, vb) s ->
  In a (firstn k (series_index (sort_values asc s))) ->
  ~ In b (firstn k (series_index (sort_values asc s))) ->
  key_le asc va vb = true.
Proof.
  intros Hnd a va b vb Ha Hb Hin Hout. unfold series_index in *.
  rewrite firstn_map in Hout. rewrite firstn_map in Hin.
  set (l := sort_values asc s) in *.
  assert (Hperm : Permutation l s) by apply sort_values_perm.
  assert (Hnd' : NoDup (map fst l)).
  { eapply Permutation_NoDup; [|exact Hnd].
    apply Permutation_map. now symmetry. }
  assert (Hsame : forall c v v', In (c, v) l -> In (c, v') l -> v = v').
  { clear - Hnd'. induction l as [|[c0 v0] l IH]; simpl; intros c v v' H1 H2;
      [contradiction|].
    inversion Hnd' as [|? ? Hnot Hnd'']; subst.
    destruct H1 as [H1|H1], H2 as [H2|H2].
    - congruence.
    - inversion H1; subst. exfalso. apply Hnot.
      apply in_map_iff. now exists (c, v').
    - inversion H2; subst. exfalso. apply Hnot.
      apply in_map_iff. now exists (c, v).
    - eapply IH; eassumption. }
  apply in_map_iff in Hin. destruct Hin as ([a' va'] & Ea & Hin).
  simpl in Ea. subst a'.
  assert (va' = va) as ->.
  { eapply Hsame; [eapply in_firstn; exact Hin|].
    eapply Permutation_in; [symmetry; exact Hperm | exact Ha]. }
  assert (Hb' : In (b, vb) (skipn k l)).
  { assert (Hbl : In (b, vb) l)
      by (eapply Permutation_in; [symmetry; exact Hperm | exact Hb]).
    rewrite <- (firstn_skipn k l) in Hbl. apply in_app_or in Hbl.
    destruct Hbl as [Hbl|Hbl]; [|assumption].
    exfalso. apply Hout. apply in_map_iff. now exists (b, vb). }
  exact (sorted_firstn_skipn _ _ (sort_values_sorted asc s) k _ _ Hin Hb').
Qed.

(** ** Rows, labels and [loc] *)

Lemma map_fst_combine {A B : Type} (a : list A) (b : list B) :
  (length a <= length b)%nat -> map fst (combine a b) = a.
Proof.
  revert b. induction a as [|x a IH]; intros [|y b] H; simpl in *;
    try reflexivity; try lia.
  f_equal. apply IH. lia.
Qed.

Lemma combine_map_r {A B C : Type} (f : B -> C) (a : list A) (b : list B) :
  combine a (map f b) = map (fun p => (fst p, f (snd p))) (combine a b).
Proof.
  revert b. induction a as [|x a IH]; intros [|y b]; simpl;
    try reflexivity.
  f_equal. apply IH.
Qed.

Lemma combine_fst_snd {A B : Type} (l : list (A * B)) :
  combine (map fst l) (map snd l) = l.
Proof.
  induction l as [|[x y] l IH]; simpl; [reflexivity | now f_equal].
Qed.

Lemma NoDup_firstn {A : Type} (k : nat) (l : list A) :
  NoDup l -> NoDup (firstn k l).
Proof.
  revert k. induction l as [|x l IH]; intros [|k] H; simpl;
    try constructor.
  - inversion H; subst. intros Hin. apply in_firstn in Hin. contradiction.
  - inversion H; subst. now apply IH.
Qed.

Lemma rows_of_index (df : DataFrame) :
  wf df -> map fst (rows_of df) = index df.
Proof.
  intros [Hlen _]. unfold rows_of. apply map_fst_combine. lia.
Qed.

Lemma lookup_rows_absent (rows : list (string * list cell)) (s : string) :
  ~ In s (map fst rows) -> lookup_rows rows s = [].
Proof.
  induction rows as [|[s1 r1] rows IH]; simpl; intros Hnot; [reflexivity|].
  destruct (String.eqb s1 s) eqn:E1.
  - apply String.eqb_eq in E1. subst s1. exfalso. apply Hnot. now left.
  - apply IH. intros H. apply Hnot. now right.
Qed.

Lemma lookup_rows_unique (rows : list (string * list cell)) (s : string)
  (r : list cell) :
  NoDup (map fst rows) -> In (s, r) rows -> lookup_rows rows s = [(s, r)].
Proof.
  induction rows as [|[s0 r0] rows IH]; simpl; intros Hnd Hin;
    [contradiction|].
  inversion Hnd as [|? ? Hnot Hnd']; subst.
  destruct Hin as [E|Hin].
  - inversion E; subst. rewrite String.eqb_refl. f_equal.
    now apply lookup_rows_absent.
  - destruct (String.eqb s0 s) eqn:E0.
    + apply String.eqb_eq in E0. subst s0. exfalso. apply Hnot.
      apply in_map_iff. now exists (s, r).
    + now apply IH.
Qed.

Lemma loc_rows_distinct (rows : list (string * list cell)) :
  NoDup (map fst rows) ->
  forall labels, incl labels (map fst rows) ->
  exists rs, loc_rows rows labels = Ok rs /\
             map fst rs = labels /\ incl rs rows.
Proof.
  intros Hnd labels. induction labels as [|l ls IH]; intros Hincl; simpl.
  - exists []. repeat split. intros x [].
  - assert (Hl : In l (map fst rows)) by (apply Hincl; now left).
    apply in_map_iff in Hl. destruct Hl as ([l' r] & E & Hin).
    simpl in E. subst l'.
    rewrite (lookup_rows_unique _ _ _ Hnd Hin).
    destruct IH as (rs & Hrs & Hfst & Hsub).
    { intros x Hx. apply Hincl. now right. }
    rewrite Hrs. simpl. exists ((l, r) :: rs). repeat split.
    + simpl. now f_equal.
    + intros x [<-|Hx]; auto.
Qed.

(** The two Series of the automatic selection, row by row. *)
Lemma var_abs_dropna (df : DataFrame) :
  var (df_abs (dropna df))
  = map (fun p => (fst p, stability df (snd p))) (rows_of df).
Proof.
  unfold var, rows_of, df_abs, dropna, stability. simpl.
  rewrite map_map, combine_map_r, map_map. reflexivity.
Qed.

Lemma sum_abs_dropna (df : DataFrame) :
  sum (df_abs (dropna df))
  = map (fun p => (fst p, Some (magnitude df (snd p)))) (rows_of df).
Proof.
  unfold sum, rows_of, df_abs, dropna, magnitude. simpl.
  rewrite map_map, combine_map_r, map_map. reflexivity.
Qed.

(** A window is kept by [dropna] exactly when no row misses it. *)
Lemma complete_mask_spec (df : DataFrame) (j : nat) :
  nth_error (complete_mask df) j = Some true <->
  (j < length (columns df))%nat /\
  forall row, In row (values df) -> nth_error row j <> Some None.
Proof.
  unfold complete_mask. rewrite nth_error_map, nth_error_seq.
  destruct (j <? length (columns df))%nat eqn:Hj; simpl.
  - apply Nat.ltb_lt in Hj. unfold column_complete. split.
    + intros H. inversion H as [Hall]. split; [assumption|].
      rewrite forallb_forall in Hall. intros row Hrow Hnone.
      specialize (Hall row Hrow). rewrite Hnone in Hall. discriminate.
    + intros [_ Hall]. f_equal. apply forallb_forall. intros row Hrow.
      specialize (Hall row Hrow).
      destruct (nth_error row j) as [[x|]|]; simpl;
        first [reflexivity | now exfalso; apply Hall].
  - apply Nat.ltb_ge in Hj. split; [discriminate | intros [H _]; lia].
Qed.

(** ** Automatic selection of the guide samples *)

(** C5, as stated, fails: with the first window skipped both samples are
    selected although each of them misses a window. *)
Lemma C5_counterexample :
  ~ (forall (df gdf : DataFrame) (vt mt : pyval) (names : list string),
        select_guides df vt mt PyNone = Ok (gdf, names) ->
        Spec.only_complete_samples df names).
Proof.
  intros H.
  assert (E : select_guides Examples.skipped_first (PyInt 2) (PyInt 2) PyNone
              = Ok (Examples.skipped_first, ["s1"; "s2"]%string))
    by reflexivity.
  apply (H _ _ _ _ _ E "s1"%string [None; Some 1; Some 1; Some 1]);
    simpl; auto.
Qed.

(** The automatic selection on a frame with distinct row labels. *)
Lemma select_guides_automatic :
  forall (df : DataFrame) (k m : nat) (gs : pyval),
    truthy gs = false -> wf df -> NoDup (index df) ->
    exists (gdf : DataFrame) (names : list string),
      select_guides df (PyInt (Z.of_nat k)) (PyInt (Z.of_nat m)) gs
      = Ok (gdf, names) /\
      length (index gdf) = Nat.min k (length (index df)) /\
      NoDup (index gdf) /\
      map fst (rows_of gdf) = index gdf /\
      incl (rows_of gdf) (rows_of df) /\
      (forall s r t r',
          In (s, r) (rows_of gdf) -> In (t, r') (rows_of df) ->
          ~ In t (index gdf) ->
          key_le true (stability df r) (stability df r') = true) /\
      length names = Nat.min m (length (index gdf)) /\
      NoDup names /\
      incl names (index gdf) /\
      (forall s r t r',
          In (s, r) (rows_of gdf) -> In (t, r') (rows_of gdf) ->
          In s names -> ~ In t names ->
          magnitude gdf r' <= magnitude gdf r) /\
      (forall (d : DataFrame) (j : nat),
          nth_error (complete_mask d) j = Some true <->
          (j < length (columns d))%nat /\
          forall row, In row (values d) -> nth_error row j <> Some None).
Proof.
  intros df k m gs Hgs Hwf Hnd.
  unfold select_guides. rewrite Hgs.
  set (S1 := var (df_abs (dropna df))).
  assert (HS1 : S1 = map (fun p => (fst p, stability df (snd p)))
                         (rows_of df)) by apply var_abs_dropna.
  assert (HS1fst : map fst S1 = index df).
  { rewrite HS1, map_map. simpl. now apply rows_of_index. }
  set (shortlist := firstn k (series_index (sort_values true S1))).
  assert (Hperm1 : Permutation (series_index (sort_values true S1))
                               (index df)).
  { rewrite <- HS1fst. apply Permutation_map. apply sort_values_perm. }
  assert (Hshort_nd : NoDup shortlist).
  { apply NoDup_firstn. eapply Permutation_NoDup; [symmetry; exact Hperm1|].
    exact Hnd. }
  assert (Hshort_incl : incl shortlist (map fst (rows_of df))).
  { rewrite (rows_of_index _ Hwf). intros x Hx. apply in_firstn in Hx.
    eapply Permutation_in; eassumption. }
  assert (Hshort_len : length shortlist = Nat.min k (length (index df))).
  { unfold shortlist. rewrite length_firstn.
    now rewrite (Permutation_length Hperm1). }
  assert (Hslice1 : slice0 (series_index (sort_values true S1))
                           (PyInt (Z.of_nat k)) = Ok shortlist).
  { unfold slice0. destruct (0 <=? Z.of_nat k)%Z eqn:E.
    - now rewrite Nat2Z.id.
    - apply Z.leb_gt in E. lia. }
  rewrite Hslice1. cbn [Py.bind].
  assert (Hrows_nd : NoDup (map fst (rows_of df)))
    by now rewrite (rows_of_index _ Hwf).
  destruct (loc_rows_distinct _ Hrows_nd shortlist Hshort_incl)
    as (rs & Hrs & Hfst & Hsub).
  unfold loc at 1. rewrite Hrs. cbn [Py.bind].
  set (gdf := mkDF (map fst rs) (columns df) (map snd rs)).
  assert (Hgrows : rows_of gdf = rs) by apply combine_fst_snd.
  set (S2 := sum (df_abs (dropna gdf))).
  assert (HS2 : S2 = map (fun p => (fst p, Some (magnitude gdf (snd p)))) rs).
  { unfold S2. rewrite sum_abs_dropna. now rewrite Hgrows. }
  assert (HS2fst : map fst S2 = shortlist).
  { rewrite HS2, map_map. simpl. exact Hfst. }
  set (names := firstn m (series_index (sort_values false S2))).
  assert (Hperm2 : Permutation (series_index (sort_values false S2))
                               shortlist).
  { rewrite <- HS2fst. apply Permutation_map. apply sort_values_perm. }
  assert (Hslice2 : slice0 (series_index (sort_values false S2))
                           (PyInt (Z.of_nat m)) = Ok names).
  { unfold slice0. destruct (0 <=? Z.of_nat m)%Z eqn:E.
    - now rewrite Nat2Z.id.
    - apply Z.leb_gt in E. lia. }
  rewrite Hslice2. cbn [Py.bind].
  exists gdf, names. split; [reflexivity|].
  assert (Hidx : index gdf = shortlist) by exact Hfst.
  rewrite Hidx, Hgrows.
  repeat match goal with |- _ /\ _ => split end.
  - exact Hshort_len.
  - exact Hshort_nd.
  - exact Hfst.
  - exact Hsub.
  - intros s r t r' Hs Ht Hout.
    apply (sorted_head_least true S1 k) with (a := s) (b := t);
      rewrite ?HS1fst; auto.
    + rewrite HS1. apply in_map_iff. exists (s, r). split; auto.
    + rewrite HS1. apply in_map_iff. exists (t, r'). split; auto.
    + fold shortlist. rewrite <- Hfst. apply in_map_iff. now exists (s, r).
  - unfold names. rewrite length_firstn.
    now rewrite (Permutation_length Hperm2).
  - apply NoDup_firstn.
    eapply Permutation_NoDup; [symmetry; exact Hperm2 | exact Hshort_nd].
  - intros x Hx. apply in_firstn in Hx. eapply Permutation_in; eassumption.
  - intros s r t r' Hs Ht Hin Hout.
    assert (Hle : key_le false (Some (magnitude gdf r))
                         (Some (magnitude gdf r')) = true).
    { apply (sorted_head_least false S2 m) with (a := s) (b := t);
        rewrite ?HS2fst; auto.
      - rewrite HS2. apply in_map_iff. exists (s, r). split; auto.
      - rewrite HS2. apply in_map_iff. exists (t, r'). split; auto. }
    unfold key_le in Hle. apply Qle_bool_iff in Hle. exact Hle.
  - apply complete_mask_spec.
Qed.

(** C5, amended.  Without guide samples from the caller, the selection
    looks at every sample, over the windows that no sample misses
    ([dropna(axis=1)] drops windows, not samples): the shortlist holds the
    [k] samples whose magnitudes vary least over those windows (an
    undefined variance counting as largest), and the guides are the [m]
    samples of the shortlist whose magnitudes sum highest over the windows
    that no shortlisted sample misses. *)
Theorem C5_automatic_guides :
  forall (df : DataFrame) (k m : nat) (gs : pyval),
    truthy gs = false -> wf df -> NoDup (index df) ->
    exists (gdf : DataFrame) (names : list string),
      select_guides df (PyInt (Z.of_nat k)) (PyInt (Z.of_nat m)) gs
      = Ok (gdf, names) /\
      length (index gdf) = Nat.min k (length (index df)) /\
      NoDup (index gdf) /\
      map fst (rows_of gdf) = index gdf /\
      incl (rows_of gdf) (rows_of df) /\
      (forall s r t r',
          In (s, r) (rows_of gdf) -> In (t, r') (rows_of df) ->
          ~ In t (index gdf) ->
          key_le true (stability df r) (stability df r') = true) /\
      length names = Nat.min m (length (index gdf)) /\
      NoDup names /\
      incl names (index gdf) /\
      (forall s r t r',
          In (s, r) (rows_of gdf) -> In (t, r') (rows_of gdf) ->
          In s names -> ~ In t names ->
          magnitude gdf r' <= magnitude gdf r) /\
      (forall (d : DataFrame) (j : nat),
          nth_error (complete_mask d) j = Some true <->
          (j < length (columns d))%nat /\
          forall row, In row (values d) -> nth_error row j <> Some None).
Proof.
  exact select_guides_automatic.
Qed.

Lemma C5_automatic_guides_witness :
  truthy PyNone = false /\
  wf Examples.track3 /\
  NoDup (index Examples.track3) /\
  exists (gdf : DataFrame) (names : list string),
    select_guides Examples.track3 (PyInt (Z.of_nat 2)) (PyInt (Z.of_nat 1))
      PyNone = Ok (gdf, names) /\
    length names = Nat.min 1 (length (index gdf)).
Proof.
  assert (Hwf : wf Examples.track3).
  { split; [reflexivity | repeat constructor]. }
  assert (Hnd : NoDup (index Examples.track3)).
  { simpl. repeat constructor; simpl; intros H;
      repeat (destruct H as [H|H]; [discriminate|]); exact H. }
  split; [reflexivity|]. split; [exact Hwf|]. split; [exact Hnd|].
  destruct (C5_automatic_guides Examples.track3 2 1 PyNone eq_refl Hwf Hnd)
    as (gdf & names & Hsel & _ & _ & _ & _ & _ & Hlen & _).
  exists gdf, names. split; [exact Hsel | exact Hlen].
Defined.

(** ** Votes and signs *)

Lemma Qsgn_pos (x : Q) : Qsgn x = 1%Z <-> 0 < x.
Proof.
  destruct x as [n d]. unfold Qsgn, Qlt. simpl. rewrite Z.mul_1_r.
  apply Z.sgn_pos_iff.
Qed.

Lemma Qsgn_neg (x : Q) : Qsgn x = (-1)%Z <-> x < 0.
Proof.
  destruct x as [n d]. unfold Qsgn, Qlt. simpl. rewrite Z.mul_1_r.
  apply Z.sgn_neg_iff.
Qed.

Lemma Qsgn_zero (x : Q) : Qsgn x = 0%Z <-> x == 0.
Proof.
  destruct x as [n d]. unfold Qsgn, Qeq. simpl. rewrite Z.mul_1_r.
  apply Z.sgn_null_iff.
Qed.

Lemma Qsgn_cases (x : Q) :
  (Qsgn x = 1%Z /\ 0 < x) \/ (Qsgn x = 0%Z /\ x == 0) \/
  (Qsgn x = (-1)%Z /\ x < 0).
Proof.
  destruct (Z.sgn_spec (Qnum x)) as [[H E]|[[H E]|[H E]]].
  - left. split; [exact E | now apply Qsgn_pos].
  - right. left. split; [exact E | now apply Qsgn_zero].
  - right. right. split; [exact E | now apply Qsgn_neg].
Qed.

Lemma Qsgn_neg1 (x : Q) : Qsgn (neg1 x) = (- Qsgn x)%Z.
Proof.
  rewrite neg1_opp. destruct x as [n d]. unfold Qsgn. simpl.
  apply Z.sgn_opp.
Qed.

(** The comparison of line 146 only looks at the signs. *)
Lemma vote_test_sign (v p : Q) :
  Qgtb (Qabs (v - p)) (Qabs (v - neg1 p)) = (Qsgn v * Qsgn p =? -1)%Z.
Proof.
  rewrite neg1_opp.
  destruct (Qsgn v * Qsgn p =? -1)%Z eqn:E.
  - apply Z.eqb_eq in E. apply Qgtb_true_iff.
    destruct (Qsgn_cases v) as [[Sv Hv]|[[Sv Hv]|[Sv Hv]]];
      destruct (Qsgn_cases p) as [[Sp Hp]|[[Sp Hp]|[Sp Hp]]];
      rewrite Sv, Sp in E; try discriminate;
      apply Qabs_case; intros; apply Qabs_case; intros; lra.
  - apply Z.eqb_neq in E. apply Qgtb_false_iff.
    destruct (Qsgn_cases v) as [[Sv Hv]|[[Sv Hv]|[Sv Hv]]];
      destruct (Qsgn_cases p) as [[Sp Hp]|[[Sp Hp]|[Sp Hp]]];
      rewrite Sv, Sp in E; try (exfalso; apply E; reflexivity);
      apply Qabs_case; intros; apply Qabs_case; intros; lra.
Qed.

(** Along a row without zeros the reference keeps the sign it starts
    with, and each vote compares the sign of its window with that sign. *)
Lemma fold_votes_sign (rest : list cell) :
  forall (prev : Q) (out : list Z),
  Qsgn prev <> 0%Z -> Forall steady_cell rest ->
  snd (fold_left vote_step rest (prev, out))
  = out ++ map (sign_vote (Qsgn prev)) rest.
Proof.
  induction rest as [|c rest IH]; intros prev out Hp Hs; cbn [fold_left].
  - cbn [snd map]. now rewrite app_nil_r.
  - inversion Hs as [|? ? Hc Hrest]; subst.
    destruct c as [v|]; unfold vote_step at 2.
    + rewrite vote_test_sign. simpl in Hc.
      destruct (Qsgn v * Qsgn prev =? -1)%Z eqn:E.
      * assert (Hsame : Qsgn (neg1 v) = Qsgn prev).
        { rewrite Qsgn_neg1. apply Z.eqb_eq in E.
          destruct (Qsgn_cases v) as [[Sv _]|[[Sv _]|[Sv _]]];
            destruct (Qsgn_cases prev) as [[Sp _]|[[Sp _]|[Sp _]]];
            rewrite ?Sv, ?Sp in *; try discriminate; try reflexivity;
            congruence. }
        rewrite IH by (rewrite ?Hsame; assumption).
        rewrite Hsame, <- app_assoc. cbn [map sign_vote app].
        now rewrite E.
      * assert (Hsame : Qsgn v = Qsgn prev).
        { apply Z.eqb_neq in E.
          destruct (Qsgn_cases v) as [[Sv _]|[[Sv _]|[Sv _]]];
            destruct (Qsgn_cases prev) as [[Sp _]|[[Sp _]|[Sp _]]];
            rewrite ?Sv, ?Sp in *; try reflexivity; try congruence;
            exfalso; apply E; reflexivity. }
        rewrite IH by (rewrite ?Hsame; assumption).
        rewrite Hsame, <- app_assoc. cbn [map sign_vote app].
        now rewrite E.
    + rewrite IH by assumption. rewrite <- app_assoc. reflexivity.
Qed.

Lemma row_votes_steady (x : Q) (rest : list cell) :
  steady_row (Some x :: rest) ->
  row_votes (Some x :: rest) = Ok (0%Z :: map (sign_vote (Qsgn x)) rest).
Proof.
  intros [Hx Hrest]. unfold row_votes.
  now rewrite fold_votes_sign.
Qed.

(** Negating a whole row does not change its votes. *)
Lemma vote_step_neg (prev : Q) (out : list Z) (c : cell) :
  vote_step (neg1 prev, out) (option_map neg1 c)
  = (neg1 (fst (vote_step (prev, out) c)), snd (vote_step (prev, out) c)).
Proof.
  destruct c as [v|]; unfold vote_step; cbn [option_map]; [|reflexivity].
  rewrite !vote_test_sign, !Qsgn_neg1, Z.mul_opp_opp.
  now destruct (Qsgn v * Qsgn prev =? -1)%Z.
Qed.

Lemma fold_votes_neg (rest : list cell) :
  forall (prev : Q) (out : list Z),
  fold_left vote_step (map (option_map neg1) rest) (neg1 prev, out)
  = (neg1 (fst (fold_left vote_step rest (prev, out))),
     snd (fold_left vote_step rest (prev, out))).
Proof.
  induction rest as [|c rest IH]; intros prev out; cbn [map fold_left].
  - reflexivity.
  - rewrite vote_step_neg.
    destruct (vote_step (prev, out) c) as [prev' out']. cbn [fst snd].
    apply IH.
Qed.

Lemma row_votes_neg (row : list cell) :
  row_votes (map (option_map neg1) row) = row_votes row.
Proof.
  destruct row as [|c rest]; [reflexivity|]. cbn [map]. unfold row_votes.
  destruct c as [x|]; cbn [option_map].
  - now rewrite fold_votes_neg.
  - change 0 with (neg1 0) at 1. now rewrite fold_votes_neg.
Qed.

(** Marked negations of cells and of votes. *)
Lemma sflip_nth_error (marks : list bool) :
  forall (row : list cell) (j : nat),
  nth_error (sflip marks row) j =
  match nth_error marks j with
  | Some true => option_map (option_map neg1) (nth_error row j)
  | _ => nth_error row j
  end.
Proof.
  induction marks as [|b marks IH]; intros [|x row] [|j]; simpl;
    try reflexivity; try apply IH.
  - now destruct b.
  - now destruct (nth_error marks j) as [[|]|].
  - now destruct b.
Qed.

Lemma sflip_keeps_magnitudes (marks : list bool) :
  keeps_magnitudes (sflip marks).
Proof.
  unfold keeps_magnitudes.
  induction marks as [|b marks IH]; intros [|x row]; simpl;
    try reflexivity.
  rewrite IH. f_equal. destruct b; [|reflexivity].
  destruct x as [x|]; cbn [option_map];
    [now rewrite Qabs_neg1 | reflexivity].
Qed.

Lemma neg_keeps_magnitudes (f : list cell -> list cell) :
  keeps_magnitudes f ->
  keeps_magnitudes (fun row => map (option_map neg1) (f row)).
Proof.
  unfold keeps_magnitudes. intros Hf row. cbv beta.
  rewrite map_map, <- (Hf row). apply map_ext. intros [x|]; cbn [option_map];
    [now rewrite Qabs_neg1 | reflexivity].
Qed.

Lemma sflip_steady (marks : list bool) :
  forall rest, Forall steady_cell rest ->
  Forall steady_cell (sflip marks rest).
Proof.
  induction marks as [|b marks IH]; intros [|c rest] H; simpl; auto.
  inversion H; subst. constructor; [|now apply IH].
  destruct b; [|assumption]. destruct c as [v|]; simpl in *; [|exact I].
  rewrite Qsgn_neg1. lia.
Qed.

Lemma sign_vote_sflip (s : Z) (marks : list bool) :
  (s = 1 \/ s = -1)%Z ->
  forall rest, Forall steady_cell rest ->
  map (sign_vote s) (sflip marks rest)
  = vflip marks (map (sign_vote s) rest).
Proof.
  intros Hs. induction marks as [|b marks IH]; intros [|c rest] H; simpl;
    try reflexivity.
  inversion H as [|? ? Hc Hrest]; subst. rewrite (IH _ Hrest). f_equal.
  destruct b; [|reflexivity]. destruct c as [v|]; simpl; [|reflexivity].
  rewrite Qsgn_neg1. simpl in Hc.
  destruct (Qsgn_cases v) as [[Sv _]|[[Sv _]|[Sv _]]]; rewrite Sv in *;
    destruct Hs as [-> | ->]; try reflexivity; congruence.
Qed.

(** The votes of a steady guide row after marked negations that leave its
    first window alone. *)
Lemma row_votes_sflip (marks : list bool) (row : list cell) (votes : list Z) :
  steady_row row -> row_votes row = Ok votes ->
  row_votes (sflip (false :: marks) row) = Ok (vflip (false :: marks) votes).
Proof.
  intros Hsteady Hvotes.
  destruct row as [|[x|] rest]; try (now exfalso).
  pose proof Hsteady as [Hx Hrest].
  pose proof (row_votes_steady _ _ Hsteady) as E.
  rewrite E in Hvotes. inversion Hvotes; subst votes.
  clear E Hvotes. cbn [sflip vflip].
  rewrite row_votes_steady by (split; [assumption | now apply sflip_steady]).
  rewrite sign_vote_sflip; [reflexivity | | assumption].
  destruct (Qsgn_cases x) as [[S _]|[[S _]|[S _]]]; auto. congruence.
Qed.

Lemma vflip_length (marks : list bool) :
  forall votes, length (vflip marks votes) = length votes.
Proof.
  induction marks as [|b marks IH]; intros [|v votes]; simpl; auto.
Qed.

Lemma vflip_nth (marks : list bool) :
  forall (votes : list Z) (j : nat),
  nth j (vflip marks votes) 0%Z
  = if nth j marks false then (- nth j votes 0)%Z else nth j votes 0%Z.
Proof.
  induction marks as [|b marks IH]; intros [|v votes] [|j]; simpl;
    try reflexivity; try apply IH.
  - now destruct b.
  - now destruct (nth j marks false).
Qed.

Lemma summed_vote_vflip (marks : list bool) (rows_lst : list (list Z))
  (j : nat) :
  summed_vote (map (vflip marks) rows_lst) j
  = if nth j marks false then (- summed_vote rows_lst j)%Z
    else summed_vote rows_lst j.
Proof.
  unfold summed_vote. induction rows_lst as [|votes rows IH]; simpl.
  - now destruct (nth j marks false).
  - unfold Zsum in *. rewrite IH, vflip_nth.
    destruct (nth j marks false); lia.
Qed.

(** ** The switching loop as marked negations *)

Lemma fold_switch_nonneg (ps : list (Z * Z)) :
  Forall (fun p => (0 <= snd p)%Z) ps ->
  forall df, fold_left switch_step ps df = df.
Proof.
  induction 1 as [|p ps Hp _ IH]; intros df; simpl; [reflexivity|].
  unfold switch_step at 2. apply Z.ltb_ge in Hp. rewrite Hp. apply IH.
Qed.

Lemma switch_windows_nonneg (df : DataFrame) (sw : list Z) :
  Forall (fun v => (0 <= v)%Z) sw -> switch_windows df sw = df.
Proof.
  intros H. unfold switch_windows. apply fold_switch_nonneg.
  apply Forall_forall. intros [c v] Hin. apply in_combine_r in Hin.
  simpl. eapply Forall_forall in H; eassumption.
Qed.

Lemma switch_windows_marks (df : DataFrame) (sw : list Z) :
  NoDup (columns df) -> length sw = length (columns df) ->
  switch_windows df sw = map_rows (sflip (map (fun v => (v <? 0)%Z) sw)) df.
Proof.
  intros Hnd Hlen. unfold switch_windows, map_rows.
  rewrite fold_switch_step. f_equal. apply map_ext. intros row.
  apply nth_error_ext. intros j.
  rewrite row_fold_nth_error by now apply NoDup_fst_combine.
  rewrite sflip_nth_error, nth_error_map.
  destruct (nth_error (columns df) j) as [c|] eqn:Hc.
  - rewrite (flipped_by_combine _ sw _ _ Hnd Hc).
    assert (Hj : (j < length sw)%nat).
    { rewrite Hlen. apply nth_error_Some. congruence. }
    rewrite (nth_error_nth' sw 0%Z Hj). simpl.
    now destruct (nth j sw 0 <? 0)%Z.
  - apply nth_error_None in Hc. rewrite <- Hlen in Hc.
    apply nth_error_None in Hc. now rewrite Hc.
Qed.

(** After the marks of its own negative entries, a vote total has no
    negative entry left. *)
Lemma switch_lst_vflip (rows_lst : list (list Z)) (sw : list Z) (n : nat) :
  Forall (fun votes => length votes = n) rows_lst ->
  switch_lst rows_lst = Ok sw ->
  exists sw',
    switch_lst (map (vflip (map (fun v => (v <? 0)%Z) sw)) rows_lst)
    = Ok sw' /\
    Forall (fun v => (0 <= v)%Z) sw'.
Proof.
  intros Hlen Hsw.
  set (marks := map (fun v => (v <? 0)%Z) sw).
  destruct rows_lst as [|r rows]; [discriminate|].
  assert (Hlen' : Forall (fun votes => length votes = n)
                         (map (vflip marks) (r :: rows))).
  { apply Forall_map. eapply Forall_impl; [|exact Hlen].
    intros votes Hv. cbv beta. now rewrite vflip_length. }
  destruct (switch_lst (map (vflip marks) (r :: rows))) as [sw'|e] eqn:Hsw';
    [|discriminate].
  exists sw'. split; [reflexivity|].
  apply Forall_nth. intros j d Hj.
  rewrite (nth_indep _ d 0%Z Hj).
  assert (Hn : length sw' = n).
  { cbn [map switch_lst] in Hsw'. inversion Hsw'. unfold transpose.
    rewrite !length_map, length_seq, vflip_length.
    now inversion Hlen. }
  rewrite Hn in Hj.
  destruct (switch_lst_nth _ _ _ _ Hlen' Hsw' Hj) as [_ ->].
  destruct (switch_lst_nth _ _ _ _ Hlen Hsw Hj) as [_ Hnth].
  rewrite summed_vote_vflip. unfold marks.
  change false with ((fun v => (v <? 0)%Z) 0%Z). rewrite map_nth.
  rewrite Hnth. destruct (summed_vote (r :: rows) j <? 0)%Z eqn:E.
  - apply Z.ltb_lt in E. lia.
  - now apply Z.ltb_ge in E.
Qed.

(** ** Frames that differ by signs have the same guide samples *)

Lemma rows_of_map_rows (f : list cell -> list cell) (df : DataFrame) :
  rows_of (map_rows f df)
  = map (fun p => (fst p, f (snd p))) (rows_of df).
Proof. unfold rows_of, map_rows. simpl. apply combine_map_r. Qed.

Lemma lookup_rows_map (f : list cell -> list cell)
  (rows : list (string * list cell)) (l : string) :
  lookup_rows (map (fun p => (fst p, f (snd p))) rows) l
  = map (fun p => (fst p, f (snd p))) (lookup_rows rows l).
Proof.
  unfold lookup_rows. induction rows as [|p rows IH]; simpl; [reflexivity|].
  destruct (String.eqb (fst p) l); simpl; now rewrite IH.
Qed.

Lemma loc_rows_map (f : list cell -> list cell)
  (rows : list (string * list cell)) (labels : list string) :
  loc_rows (map (fun p => (fst p, f (snd p))) rows) labels
  = match loc_rows rows labels with
    | Ok rs => Ok (map (fun p => (fst p, f (snd p))) rs)
    | Raise e => Raise e
    end.
Proof.
  induction labels as [|l ls IH]; simpl; [reflexivity|].
  rewrite lookup_rows_map, IH.
  destruct (lookup_rows rows l) as [|p found]; simpl; [reflexivity|].
  destruct (loc_rows rows ls) as [rest|e]; simpl; [|reflexivity].
  now rewrite map_app.
Qed.

Lemma loc_map_rows (f : list cell -> list cell) (df : DataFrame)
  (labels : list string) :
  loc (map_rows f df) labels
  = match loc df labels with
    | Ok d => Ok (map_rows f d)
    | Raise e => Raise e
    end.
Proof.
  unfold loc. rewrite rows_of_map_rows, loc_rows_map.
  destruct (loc_rows (rows_of df) labels) as [rs|e]; simpl; [|reflexivity].
  unfold map_rows. simpl. rewrite !map_map. reflexivity.
Qed.

Lemma keep_mask_map {A B : Type} (g : A -> B) (mask : list bool) :
  forall l, keep_mask mask (map g l) = map g (keep_mask mask l).
Proof.
  induction mask as [|b mask IH]; intros [|x l]; simpl; try reflexivity.
  destruct b; simpl; now rewrite IH.
Qed.

Lemma complete_mask_map_rows (f : list cell -> list cell) (df : DataFrame) :
  keeps_magnitudes f -> complete_mask (map_rows f df) = complete_mask df.
Proof.
  intros Hf. unfold complete_mask, map_rows. simpl.
  apply map_ext. intros j. unfold column_complete.
  induction (values df) as [|row rows IH]; simpl; [reflexivity|].
  rewrite IH. f_equal.
  pose proof (f_equal (fun l => nth_error l j) (Hf row)) as E.
  cbv beta in E. rewrite !nth_error_map in E. revert E.
  destruct (nth_error (f row) j) as [[x|]|], (nth_error row j) as [[y|]|];
    simpl; intros E; try discriminate; reflexivity.
Qed.

Lemma stability_map_rows (f : list cell -> list cell) (df : DataFrame)
  (row : list cell) :
  keeps_magnitudes f -> stability (map_rows f df) (f row) = stability df row.
Proof.
  intros Hf. unfold stability. rewrite (complete_mask_map_rows _ _ Hf).
  now rewrite <- !keep_mask_map, Hf.
Qed.

Lemma magnitude_map_rows (f : list cell -> list cell) (df : DataFrame)
  (row : list cell) :
  keeps_magnitudes f -> magnitude (map_rows f df) (f row) = magnitude df row.
Proof.
  intros Hf. unfold magnitude. rewrite (complete_mask_map_rows _ _ Hf).
  now rewrite <- !keep_mask_map, Hf.
Qed.

Lemma var_map_rows (f : list cell -> list cell) (df : DataFrame) :
  keeps_magnitudes f ->
  var (df_abs (dropna (map_rows f df))) = var (df_abs (dropna df)).
Proof.
  intros Hf. rewrite !var_abs_dropna, rows_of_map_rows, map_map.
  apply map_ext. intros p. simpl. now rewrite stability_map_rows.
Qed.

Lemma sum_map_rows (f : list cell -> list cell) (df : DataFrame) :
  keeps_magnitudes f ->
  sum (df_abs (dropna (map_rows f df))) = sum (df_abs (dropna df)).
Proof.
  intros Hf. rewrite !sum_abs_dropna, rows_of_map_rows, map_map.
  apply map_ext. intros p. simpl. now rewrite magnitude_map_rows.
Qed.

Lemma select_guides_map_rows (f : list cell -> list cell) (df : DataFrame)
  (vt mt gs : pyval) :
  keeps_magnitudes f ->
  select_guides (map_rows f df) vt mt gs
  = match select_guides df vt mt gs with
    | Ok sel => Ok (map_rows f (fst sel), snd sel)
    | Raise e => Raise e
    end.
Proof.
  intros Hf. unfold select_guides. destruct (truthy gs).
  - destruct (py_split mt) as [names|e]; simpl; [|reflexivity].
    rewrite loc_map_rows. now destruct (loc df names).
  - rewrite (var_map_rows _ _ Hf).
    destruct (slice0 _ vt) as [shortlist|e]; simpl; [|reflexivity].
    rewrite loc_map_rows.
    destruct (loc df shortlist) as [gdf|e]; simpl; [|reflexivity].
    rewrite (sum_map_rows _ _ Hf).
    now destruct (slice0 _ mt).
Qed.

(** ** Running [polarize] on its own output *)

Lemma loc_rows_incl (rows : list (string * list cell)) :
  forall labels rs, loc_rows rows labels = Ok rs -> incl rs rows.
Proof.
  induction labels as [|l ls IH]; simpl; intros rs H.
  - inversion H. intros x [].
  - destruct (lookup_rows rows l) as [|p found] eqn:Hfound; [discriminate|].
    apply bind_Ok in H. destruct H as (rest & Hrest & H).
    inversion H; subst rs. intros x Hx.
    change (In x ((p :: found) ++ rest)) in Hx. apply in_app_or in Hx.
    destruct Hx as [Hx|Hx]; [|eapply IH; eassumption].
    rewrite <- Hfound in Hx. unfold lookup_rows in Hx.
    now apply filter_In in Hx.
Qed.

Lemma loc_incl (df g : DataFrame) (labels : list string) :
  loc df labels = Ok g ->
  columns g = columns df /\ incl (values g) (values df).
Proof.
  unfold loc. intros H. apply bind_Ok in H. destruct H as (rs & Hrs & H).
  inversion H; subst g; clear H. simpl. split; [reflexivity|].
  intros row Hrow. apply in_map_iff in Hrow.
  destruct Hrow as ([l r] & E & Hin). simpl in E. subst r.
  apply (loc_rows_incl _ _ _ Hrs) in Hin. unfold rows_of in Hin.
  now apply in_combine_r in Hin.
Qed.

Lemma select_guides_incl (df gdf : DataFrame) (vt mt gs : pyval)
  (names : list string) :
  select_guides df vt mt gs = Ok (gdf, names) ->
  columns gdf = columns df /\ incl (values gdf) (values df).
Proof.
  unfold select_guides. intros H. destruct (truthy gs).
  - apply bind_Ok in H. destruct H as (l & _ & H).
    apply bind_Ok in H. destruct H as (g & Hg & H).
    inversion H; subst. eapply loc_incl; eassumption.
  - apply bind_Ok in H. destruct H as (l & _ & H).
    apply bind_Ok in H. destruct H as (g & Hg & H).
    apply bind_Ok in H. destruct H as (l' & _ & H).
    inversion H; subst. eapply loc_incl; eassumption.
Qed.

Lemma row_votes_head (row : list cell) (votes : list Z) :
  row_votes row = Ok votes -> nth 0 votes 0%Z = 0%Z.
Proof.
  destruct row as [|first rest]; [discriminate|]. unfold row_votes.
  set (prev := match first with Some x => x | None => 0 end).
  destruct (fold_votes_from rest prev [0%Z]) as (votes' & Hfold & _).
  rewrite Hfold. intros H. inversion H. reflexivity.
Qed.

Lemma summed_vote_first (rows : list (list cell)) (rows_lst : list (list Z)) :
  mapM row_votes rows = Ok rows_lst -> summed_vote rows_lst 0 = 0%Z.
Proof.
  intros H. apply mapM_Forall2 in H. unfold summed_vote.
  induction H as [|row votes rows rows_lst Hrow _ IH]; simpl;
    [reflexivity|].
  unfold Zsum in *. rewrite IH, (row_votes_head _ _ Hrow). reflexivity.
Qed.

Lemma mapM_lengths (rows : list (list cell)) (rows_lst : list (list Z))
  (n : nat) :
  Forall (fun row => length row = n) rows ->
  mapM row_votes rows = Ok rows_lst ->
  Forall (fun votes => length votes = n) rows_lst.
Proof.
  intros Hlen H. apply mapM_Forall2 in H.
  induction H as [|row votes rows rows_lst Hrow _ IH]; constructor.
  - inversion Hlen; subst. apply row_votes_length in Hrow. congruence.
  - inversion Hlen; subst. now apply IH.
Qed.

Lemma switch_lst_length (rows_lst : list (list Z)) (sw : list Z) (n : nat) :
  Forall (fun votes => length votes = n) rows_lst ->
  switch_lst rows_lst = Ok sw -> length sw = n.
Proof.
  intros Hlen Hsw. destruct rows_lst as [|r rows]; [discriminate|].
  simpl in Hsw. inversion Hsw. unfold transpose.
  rewrite !length_map, length_seq. now inversion Hlen.
Qed.

Lemma mapM_map_votes (f : list cell -> list cell) (marks : list bool)
  (rows : list (list cell)) (rows_lst : list (list Z)) :
  (forall row votes, In row rows -> row_votes row = Ok votes ->
                     row_votes (f row) = Ok (vflip marks votes)) ->
  mapM row_votes rows = Ok rows_lst ->
  mapM row_votes (map f rows) = Ok (map (vflip marks) rows_lst).
Proof.
  intros Hf H. apply mapM_Forall2 in H.
  induction H as [|row votes rows rows_lst Hrow _ IH]; simpl;
    [reflexivity|].
  rewrite (Hf row votes) by (simpl; auto).
  rewrite IH; [reflexivity|]. intros r v Hr. apply Hf. now right.
Qed.

Lemma polarize_with_steady (df gdf guides out : DataFrame)
  (names : list string) :
  wf df -> NoDup (columns df) ->
  columns gdf = columns df -> incl (values gdf) (values df) ->
  loc gdf names = Ok guides ->
  Forall steady_row (values guides) ->
  polarize_with df gdf names = Ok out ->
  exists f,
    keeps_magnitudes f /\ out = map_rows f df /\
    polarize_with out (map_rows f gdf) names = Ok out.
Proof.
  intros [_ Hrect] Hnd Hcols Hsub Hloc Hsteady Hrun.
  unfold polarize_with in Hrun. rewrite Hloc in Hrun. cbn [Py.bind] in Hrun.
  destruct (mapM row_votes (values guides)) as [V|e] eqn:HV; [|discriminate].
  cbn [Py.bind] in Hrun.
  destruct (switch_lst V) as [sw|e] eqn:Hsw; [|discriminate].
  cbn [Py.bind] in Hrun.
  set (n := length (columns df)).
  destruct (loc_incl _ _ _ Hloc) as [_ Hsub'].
  assert (Hglen : Forall (fun row => length row = n) (values guides)).
  { apply Forall_forall. intros row Hrow.
    eapply Forall_forall in Hrect; [exact Hrect|]. auto. }
  assert (HVlen : Forall (fun votes => length votes = n) V)
    by (eapply mapM_lengths; eassumption).
  assert (Hswlen : length sw = n) by (eapply switch_lst_length; eassumption).
  set (marks := map (fun v => (v <? 0)%Z) sw).
  assert (Hmarks : exists marks', marks = false :: marks').
  { destruct V as [|v V']; [discriminate|].
    destruct (values guides) as [|g gs] eqn:Hg; [discriminate|].
    assert (Hn : (0 < n)%nat).
    { inversion Hglen; subst. inversion Hsteady; subst.
      destruct g; [contradiction | simpl in *; lia]. }
    destruct (switch_lst_nth _ _ _ _ HVlen Hsw Hn) as [_ H0].
    rewrite (summed_vote_first _ _ HV) in H0.
    unfold marks. destruct sw as [|s0 sw']; [simpl in Hswlen; lia|].
    simpl in H0. subst s0. simpl. eauto. }
  destruct Hmarks as [marks' Hmarks].
  assert (Hdf1 : switch_windows df sw = map_rows (sflip marks) df)
    by (apply switch_windows_marks; assumption).
  pose proof (switch_axis_stable _ _ Hrun) as Hstable.
  assert (Hout : exists f,
             keeps_magnitudes f /\ out = map_rows f df /\
             forall row votes, In row (values guides) ->
               row_votes row = Ok votes ->
               row_votes (f row) = Ok (vflip marks votes)).
  { destruct (switch_axis_cases _ _ Hrun) as [E|E]; rewrite Hdf1 in E.
    - exists (sflip marks). split; [apply sflip_keeps_magnitudes|].
      split; [exact E|]. intros row votes Hrow Hvotes. rewrite Hmarks.
      apply row_votes_sflip; [|assumption].
      eapply Forall_forall in Hsteady; eassumption.
    - exists (fun row => map (option_map neg1) (sflip marks row)).
      split; [apply neg_keeps_magnitudes, sflip_keeps_magnitudes|].
      split.
      + rewrite E. unfold df_neg, map_rows. simpl. now rewrite map_map.
      + intros row votes Hrow Hvotes. rewrite row_votes_neg, Hmarks.
        apply row_votes_sflip; [|assumption].
        eapply Forall_forall in Hsteady; eassumption. }
  destruct Hout as (g & Hg & Eout & Hvotes).
  exists g. split; [exact Hg|]. split; [exact Eout|].
  unfold polarize_with. rewrite loc_map_rows, Hloc. cbn [Py.bind].
  change (values (map_rows g guides)) with (map g (values guides)).
  rewrite (mapM_map_votes g marks _ _ Hvotes HV). cbn [Py.bind].
  destruct (switch_lst_vflip _ _ _ HVlen Hsw) as (sw' & Hsw' & Hpos).
  fold marks in Hsw'. rewrite Hsw'. cbn [Py.bind].
  rewrite (switch_windows_nonneg _ _ Hpos). exact Hstable.
Qed.

(** C8, as stated, fails: on the track whose first window was skipped the
    run with both samples as guides switches windows 2 and 4, and a second
    run on its output switches them back. *)
Lemma C8_counterexample :
  exists (out out2 : DataFrame) (x y : Q),
    polarize Examples.skipped_first (PyInt 2) (PyInt 2) PyNone = Ok out /\
    polarize out (PyInt 2) (PyInt 2) PyNone = Ok out2 /\
    cell_at out 0 1 = Some (Some x) /\
    cell_at out2 0 1 = Some (Some y) /\
    x < 0 /\ 0 < y.
Proof.
  eexists. eexists. eexists. eexists.
  split; [vm_compute; reflexivity|].
  split; [vm_compute; reflexivity|].
  split; [vm_compute; reflexivity|].
  split; [vm_compute; reflexivity|].
  split; reflexivity.
Qed.

(** In the model, where a negated missing value is the missing value it
    was, a second run returns the track of the first as soon as every
    guide row has a value in the first window and holds no zero. *)
Lemma polarize_twice_steady :
  forall (w_pca_df out gdf guides : DataFrame) (vt mt gs : pyval)
         (names : list string),
    wf w_pca_df -> NoDup (columns w_pca_df) ->
    select_guides w_pca_df vt mt gs = Ok (gdf, names) ->
    loc gdf names = Ok guides ->
    Forall steady_row (values guides) ->
    polarize w_pca_df vt mt gs = Ok out ->
    polarize out vt mt gs = Ok out.
Proof.
  intros df out gdf guides vt mt gs names Hwf Hnd Hsel Hloc Hsteady Hrun.
  unfold polarize in Hrun. rewrite Hsel in Hrun. cbn [Py.bind fst snd] in Hrun.
  destruct (select_guides_incl _ _ _ _ _ _ Hsel) as [Hcols Hsub].
  destruct (polarize_with_steady _ _ _ _ _ Hwf Hnd Hcols Hsub Hloc Hsteady
              Hrun) as (f & Hf & Eout & Hrun2).
  unfold polarize. rewrite Eout at 1.
  rewrite (select_guides_map_rows _ _ _ _ _ Hf), Hsel.
  cbn [Py.bind fst snd]. exact Hrun2.
Qed.

Lemma nonzero_numbers_steady (row : list cell) :
  row <> [] -> Forall nonzero_number row -> steady_row row.
Proof.
  intros Hne Hrow. destruct row as [|c rest]; [congruence|].
  inversion Hrow as [|? ? Hc Hrest]; subst.
  destruct c as [x|]; [|contradiction]. split; [exact Hc|].
  eapply Forall_impl; [|exact Hrest]. intros [v|] Hv; [exact Hv | exact I].
Qed.



(** ** [polarize] returns *)

Lemma mapM_returns {A B : Type} (f : A -> result B) (l : list A) :
  Forall (fun x => exists y, f x = Ok y) l ->
  exists ys, mapM f l = Ok ys /\ length ys = length l.
Proof.
  induction 1 as [|x l [y Hy] _ [ys [IH Hlen]]]; simpl.
  - now exists [].
  - rewrite Hy, IH. exists (y :: ys). simpl. auto.
Qed.

Lemma row_votes_returns (row : list cell) :
  row <> [] -> exists votes, row_votes row = Ok votes.
Proof.
  destruct row as [|c rest]; [congruence|]. intros _. simpl. eauto.
Qed.

Lemma switch_axis_returns (df : DataFrame) :
  to_numpy0 df <> [] -> exists out, switch_axis df = Ok out.
Proof.
  unfold switch_axis. destruct (to_numpy0 df) as [|x xs]; [congruence|].
  intros _. simpl. eauto.
Qed.

(** On a track with at least one sample and one window, distinct sample
    labels and positive thresholds, the automatic path returns a track. *)
Lemma polarize_returns (df : DataFrame) (k m : nat) (gs : pyval) :
  truthy gs = false -> wf df -> NoDup (index df) ->
  index df <> [] -> columns df <> [] -> (0 < k)%nat -> (0 < m)%nat ->
  exists out,
    polarize df (PyInt (Z.of_nat k)) (PyInt (Z.of_nat m)) gs = Ok out.
Proof.
  intros Hgs Hwf Hnd Hidx Hcols Hk Hm.
  destruct (select_guides_automatic df k m gs Hgs Hwf Hnd)
    as (gdf & names & Hsel & Hlen1 & Hnd1 & Hfst & Hsub & _ & Hlen2 & Hnd2
        & Hincl & _).
  unfold polarize. rewrite Hsel. cbn [Py.bind fst snd].
  unfold polarize_with.
  assert (Hrows_nd : NoDup (map fst (rows_of gdf))) by now rewrite Hfst.
  assert (Hincl' : incl names (map fst (rows_of gdf))) by now rewrite Hfst.
  destruct (loc_rows_distinct _ Hrows_nd names Hincl')
    as (rs & Hrs & Hrs_fst & Hrs_sub).
  unfold loc. rewrite Hrs. cbn [Py.bind values].
  destruct Hwf as [Hvlen Hrect].
  assert (Hvotes : Forall (fun row => exists votes, row_votes row = Ok votes)
                          (map snd rs)).
  { apply Forall_forall. intros row Hrow. apply row_votes_returns.
    apply in_map_iff in Hrow. destruct Hrow as ([l r] & E & Hin).
    simpl in E. subst r. apply Hrs_sub, Hsub in Hin.
    unfold rows_of in Hin. apply in_combine_r in Hin.
    eapply Forall_forall in Hrect; [|exact Hin].
    intros ->. simpl in Hrect. destruct (columns df); [congruence|].
    discriminate. }
  destruct (mapM_returns _ _ Hvotes) as (V & HV & HVlen).
  rewrite HV. cbn [Py.bind].
  assert (Hnames : (0 < length names)%nat).
  { rewrite Hlen2, Hlen1. destruct (index df); [congruence|]. simpl.
    lia. }
  destruct V as [|v V'].
  { rewrite length_map, <- (length_map fst), Hrs_fst in HVlen.
    simpl in HVlen. lia. }
  cbn [switch_lst Py.bind].
  apply switch_axis_returns.
  pose proof (switch_windows_sign df
                (map Zsum (transpose (length v) (v :: V')))) as (_ & _ & Hv).
  destruct (values df) as [|row rows] eqn:Hvals.
  { destruct (index df); [congruence | simpl in Hvlen; discriminate]. }
  inversion Hv as [|? row' ? rows' Hrow _ E1 E2]; subst.
  unfold to_numpy0. rewrite <- E2. simpl.
  inversion Hrect as [|? ? Hrowlen _]; subst.
  destruct row as [|c row].
  { simpl in Hrowlen. destruct (columns df); [congruence | discriminate]. }
  inversion Hrow; subst. simpl. discriminate.
Qed.

(** C10.  The track [polarize] returns has the row labels and the column
    labels of its input, every cell is the cell of the input or its
    negation, and the missing cells are the same; and on a track with at
    least one sample and one window, distinct sample labels and positive
    thresholds the automatic path does return a track. *)
Theorem C10_polarize_changes_signs_only :
  (forall (w_pca_df out : DataFrame) (var_threshold mean_threshold
           guide_samples : pyval),
      polarize w_pca_df var_threshold mean_threshold guide_samples = Ok out ->
      index out = index w_pca_df /\
      columns out = columns w_pca_df /\
      length (values out) = length (values w_pca_df) /\
      (forall i j,
          cell_at out i j = cell_at w_pca_df i j \/
          cell_at out i j
          = option_map (option_map Qopp) (cell_at w_pca_df i j)) /\
      (forall i j,
          cell_at out i j = Some None <-> cell_at w_pca_df i j = Some None)) /\
  (forall (w_pca_df : DataFrame) (k m : nat),
      wf w_pca_df -> NoDup (index w_pca_df) ->
      index w_pca_df <> [] -> columns w_pca_df <> [] ->
      (0 < k)%nat -> (0 < m)%nat ->
      exists out,
        polarize w_pca_df (PyInt (Z.of_nat k)) (PyInt (Z.of_nat m)) PyNone
        = Ok out).
Proof.
  split.
  - intros df out vt mt gs H. apply polarize_sign in H.
    pose proof H as (Hi & Hc & Hv).
    repeat match goal with |- _ /\ _ => split end; try assumption.
    + symmetry. eapply Forall2_length; eassumption.
    + intros i j. now apply sign_of_frame_cell.
    + intros i j.
      destruct (sign_of_frame_cell df out i j H) as [E|E]; rewrite E;
        [tauto|].
      destruct (cell_at df i j) as [[x|]|]; simpl; split; intros E';
        first [discriminate | reflexivity].
  - intros df k m Hwf Hnd Hidx Hcols Hk Hm.
    now apply polarize_returns.
Qed.

Lemma C10_polarize_changes_signs_only_witness :
  (polarize Examples.skipped_first (PyInt 2) (PyInt 2) PyNone
   = Ok (mkDF ["s1"; "s2"]%string [500; 1500; 2500; 3500]%Z
           [[None; Some (1 * (-1)); Some 1; Some (1 * (-1))];
            [None; Some (1 * (-1)); Some (-1); Some (1 * (-1))]]) /\
   (forall i j,
       cell_at (mkDF ["s1"; "s2"]%string [500; 1500; 2500; 3500]%Z
                  [[None; Some (1 * (-1)); Some 1; Some (1 * (-1))];
                   [None; Some (1 * (-1)); Some (-1); Some (1 * (-1))]]) i j
       = Some None <->
       cell_at Examples.skipped_first i j = Some None)) /\
  (wf Examples.track3 /\ NoDup (index Examples.track3) /\
   index Examples.track3 <> [] /\ columns Examples.track3 <> [] /\
   (0 < 2)%nat /\ (0 < 1)%nat /\
   exists out,
     polarize Examples.track3 (PyInt (Z.of_nat 2)) (PyInt (Z.of_nat 1)) PyNone
     = Ok out).
Proof.
  assert (H : polarize Examples.skipped_first (PyInt 2) (PyInt 2) PyNone
              = Ok (mkDF ["s1"; "s2"]%string [500; 1500; 2500; 3500]%Z
                      [[None; Some (1 * (-1)); Some 1; Some (1 * (-1))];
                       [None; Some (1 * (-1)); Some (-1); Some (1 * (-1))]])).
  { reflexivity. }
  assert (Hwf : wf Examples.track3).
  { split; [reflexivity | repeat constructor]. }
  assert (Hnd : NoDup (index Examples.track3)).
  { simpl. repeat constructor; simpl; intros H';
      repeat (destruct H' as [H'|H']; [discriminate|]); exact H'. }
  assert (Hidx : index Examples.track3 <> []) by discriminate.
  assert (Hcols : columns Examples.track3 <> []) by discriminate.
  split.
  - split; [exact H|].
    exact (proj2 (proj2 (proj2 (proj2
             (proj1 C10_polarize_changes_signs_only _ _ _ _ _ H))))).
  - repeat (split; [first [assumption | lia]|]).
    exact (proj2 C10_polarize_changes_signs_only Examples.track3 2%nat 1%nat
             Hwf Hnd Hidx Hcols (Nat.lt_0_succ 1) (Nat.lt_0_succ 0)).
Defined.

(** ** Lines 265-326 of [main] *)

(** With the output of a previous run, these lines hand the tables read
    back on as they are: neither [windowed_pca] nor [polarize] runs. *)
Lemma main_loads_previous_output
  (allel_pca : list (list Z) -> result allel_model) (T pc : Z)
  (tables : DataFrame * StatsFrame) (ids : list string)
  (windows : list (list (list Z) * Z)) (w_size : Z) (gs : string)
  (g : globals) :
  main_data_path allel_pca T pc (Some tables) ids windows w_size gs g
  = (mkGlobals (w_mid_lst g) (w_pca_lst g) (w_stats_lst g)
       (stderr g ++ [(newline ++ "[INFO] Plotting data from previous run")
                     %string]),
     Ok tables).
Proof. reflexivity. Qed.

(** Without it, these lines end at the call of [polarize], which leaves
    [var_threshold] out, or earlier. *)
Lemma main_fresh_run_raises
  (allel_pca : list (list Z) -> result allel_model) (T pc : Z)
  (ids : list string) (windows : list (list (list Z) * Z)) (w_size : Z)
  (gs : string) (g : globals) :
  exists g' e, main_data_path allel_pca T pc None ids windows w_size gs g
               = (g', Raise e).
Proof.
  unfold main_data_path, bindM at 1 2. cbn [print_err].
  destruct (windowed_pca allel_pca T pc ids windows w_size _)
    as [g1 [tables|e]]; [|eauto].
  unfold bindM, lift, Utils.call_polarize. eauto.
Qed.

(** ** Text *)

Import Text Py2.

Lemma split_not_nil (sep : ascii) (s : string) : split sep s <> [].
Proof.
  destruct s as [|c s]; cbn [split]; [discriminate|].
  destruct (Ascii.eqb c sep); [discriminate|].
  destruct (split sep s); discriminate.
Qed.

Lemma split_without (sep : ascii) (s : string) :
  contains sep s = false -> split sep s = [s].
Proof.
  induction s as [|c s IH]; cbn [split contains]; intros H; [reflexivity|].
  apply orb_false_iff in H. destruct H as [Hc Hs].
  rewrite Hc, (IH Hs). reflexivity.
Qed.

Lemma split_app_sep (sep : ascii) (s rest : string) :
  contains sep s = false ->
  split sep (s ++ String sep rest) = s :: split sep rest.
Proof.
  induction s as [|c s IH]; cbn [split contains append]; intros H.
  - rewrite Ascii.eqb_refl. reflexivity.
  - apply orb_false_iff in H. destruct H as [Hc Hs].
    rewrite Hc, (IH Hs). reflexivity.
Qed.

Lemma split_join (sep : ascii) (l : list string) :
  l <> [] ->
  Forall (fun s => contains sep s = false) l ->
  split sep (join (String sep EmptyString) l) = l.
Proof.
  induction l as [|x l IH]; intros Hne Hall; [congruence|].
  inversion Hall as [|? ? Hx Hl]; subst.
  destruct l as [|y l].
  - cbn [join]. apply split_without; assumption.
  - change (join (String sep EmptyString) (x :: y :: l))
      with (x ++ String sep (join (String sep EmptyString) (y :: l)))%string.
    rewrite (split_app_sep _ _ _ Hx), IH; [reflexivity|discriminate|assumption].
Qed.

Lemma rstrip_app_space (s : string) (c : ascii) :
  is_space c = true -> rstrip (s ++ String c EmptyString) = rstrip s.
Proof.
  intros Hc. induction s as [|a s IH]; cbn [append rstrip].
  - rewrite Hc. reflexivity.
  - rewrite IH. reflexivity.
Qed.

Lemma rstrip_clean (s : string) :
  (forall c, last_char s = Some c -> is_space c = false) -> rstrip s = s.
Proof.
  induction s as [|a s IH]; intros H; [reflexivity|].
  cbn [rstrip]. destruct s as [|b s].
  - cbn [rstrip]. rewrite (H a eq_refl). reflexivity.
  - rewrite IH; [reflexivity|]. intros c Hc. apply H. exact Hc.
Qed.

Lemma last_char_app (a b : string) :
  b <> EmptyString -> last_char (a ++ b) = last_char b.
Proof.
  intros Hb. induction a as [|c a IH]; [reflexivity|].
  cbn [append last_char]. rewrite IH.
  destruct (a ++ b)%string eqn:E; [|reflexivity].
  destruct a; cbn [append] in E; [congruence|discriminate].
Qed.

Lemma strip_line (c : ascii) (t : string) :
  is_space c = false ->
  (forall d, last_char (String c t) = Some d -> is_space d = false) ->
  strip (String c t ++ String newline_char EmptyString) = String c t.
Proof.
  intros Hc Hlast. unfold strip.
  cbn [append lstrip]. rewrite Hc.
  change (String c (t ++ String newline_char EmptyString))
    with (String c t ++ String newline_char EmptyString)%string.
  rewrite rstrip_app_space by reflexivity.
  apply rstrip_clean. exact Hlast.
Qed.

Lemma endswith_length (p s : string) :
  endswith p s = true ->
  (String.length p <= String.length s)%nat /\
  (String.length p = String.length s -> p = s).
Proof.
  induction s as [|c s IH]; cbn [endswith]; intros H.
  - rewrite orb_false_r in H. apply String.eqb_eq in H. subst. split; auto.
  - apply orb_true_iff in H. destruct H as [H|H].
    + apply String.eqb_eq in H. subst. split; auto.
    + destruct (IH H) as [Hle _]. cbn [String.length]. split; [lia|lia].
Qed.

Lemma endswith_both (a b s : string) :
  endswith a s = true -> endswith b s = true ->
  (String.length a <= String.length b)%nat ->
  endswith a b = true.
Proof.
  induction s as [|c s IH]; intros Ha Hb Hlen.
  - cbn [endswith] in Ha, Hb. rewrite orb_false_r in Ha, Hb.
    apply String.eqb_eq in Ha, Hb. subst. reflexivity.
  - cbn [endswith] in Hb. apply orb_true_iff in Hb. destruct Hb as [Hb|Hb].
    + apply String.eqb_eq in Hb. subst b. exact Ha.
    + cbn [endswith] in Ha. apply orb_true_iff in Ha. destruct Ha as [Ha|Ha].
      * apply String.eqb_eq in Ha. subst a.
        destruct (endswith_length _ _ Hb) as [Hle _].
        cbn [String.length] in Hlen. lia.
      * exact (IH Ha Hb Hlen).
Qed.

Lemma fold_header_none (lines : list string) (found : option (list string)) :
  Forall (fun line => startswith "#CHROM" line = false) lines ->
  fold_left WindowedPcaMore.header_step lines found = found.
Proof.
  intros H. revert found.
  induction H as [|line lines Hl _ IH]; intros found; [reflexivity|].
  cbn [fold_left]. unfold WindowedPcaMore.header_step at 2.
  rewrite Hl. apply IH.
Qed.

Lemma fold_header_some (lines : list string) (found : list string) :
  exists l, fold_left WindowedPcaMore.header_step lines (Some found) = Some l.
Proof.
  revert found. induction lines as [|line lines IH]; intros found.
  - exists found. reflexivity.
  - cbn [fold_left]. unfold WindowedPcaMore.header_step at 2.
    destruct (startswith "#CHROM" line); apply IH.
Qed.

Lemma fold_header_exists (lines : list string) :
  Exists (fun line => startswith "#CHROM" line = true) lines ->
  exists l, fold_left WindowedPcaMore.header_step lines None = Some l.
Proof.
  induction 1 as [line lines Hl|line lines _ IH].
  - cbn [fold_left]. unfold WindowedPcaMore.header_step at 2. rewrite Hl.
    apply fold_header_some.
  - cbn [fold_left]. unfold WindowedPcaMore.header_step at 2.
    destruct (startswith "#CHROM" line); [apply fold_header_some|exact IH].
Qed.

Lemma fold_header_last (pre post : list string) (h : string) :
  startswith "#CHROM" h = true ->
  Forall (fun line => startswith "#CHROM" line = false) post ->
  fold_left WindowedPcaMore.header_step (pre ++ h :: post) None
  = Some (skipn 9 (split tab (strip h))).
Proof.
  intros Hh Hpost. rewrite fold_left_app. cbn [fold_left].
  unfold WindowedPcaMore.header_step at 2. rewrite Hh.
  apply fold_header_none. exact Hpost.
Qed.

Lemma fold_header_none_iff (lines : list string) :
  fold_left WindowedPcaMore.header_step lines None = None <->
  Forall (fun line => startswith "#CHROM" line = false) lines.
Proof.
  split; [|apply fold_header_none].
  induction lines as [|line lines IH]; intros H; [constructor|].
  cbn [fold_left] in H. unfold WindowedPcaMore.header_step at 2 in H.
  destruct (startswith "#CHROM" line) eqn:E.
  - destruct (fold_header_some lines (skipn 9 (split tab (strip line))))
      as [l Hl].
    rewrite Hl in H. discriminate.
  - constructor; [exact E|exact (IH H)].
Qed.

Lemma prefix_app (p s t : string) :
  String.prefix p s = true -> String.prefix p (s ++ t) = true.
Proof.
  revert s. induction p as [|a p IH]; intros s H;
    [destruct (s ++ t)%string; reflexivity|].
  destruct s as [|b s]; cbn [String.prefix append] in *; [discriminate|].
  destruct (ascii_dec a b); [apply IH; exact H|discriminate].
Qed.

Lemma prefix_head (a : ascii) (p s : string) :
  String.prefix (String a p) s = true -> exists t, s = String a t.
Proof.
  destruct s as [|b s]; cbn [String.prefix]; [discriminate|].
  destruct (ascii_dec a b); [subst; eauto|discriminate].
Qed.

Lemma header_fields (k : nat) (fields samples : list string)
  (c : ascii) (t : string) :
  length fields = k ->
  Forall (fun s => contains tab s = false) (fields ++ samples) ->
  join (String tab EmptyString) (fields ++ samples) = String c t ->
  is_space c = false ->
  (forall d, last_char (String c t) = Some d -> is_space d = false) ->
  skipn k (split tab (strip (String c t ++ String newline_char EmptyString)))
  = samples.
Proof.
  intros Hk Htab Hjoin Hc Hlast.
  rewrite (strip_line _ _ Hc Hlast), <- Hjoin, split_join.
  - subst k. rewrite skipn_app, skipn_all, Nat.sub_diag. reflexivity.
  - intros E. rewrite E in Hjoin. discriminate.
  - exact Htab.
Qed.

(** X1.  On a file that opens and decodes, given as the lines it yields,
    [fetch_variant_file_samples] ends with [UnboundLocalError], the name
    [variant_file_sample_lst] never bound, exactly in two cases: the path
    ends in [.vcf] or [.vcf.gz] and no line of the file starts with
    [#CHROM]; or the path has none of the four endings [.vcf], [.vcf.gz],
    [.tsv], [.tsv.gz]. *)
Theorem fetch_samples_unbound_iff (variant_file_path : string)
  (lines : list string) :
  WindowedPcaMore.fetch_variant_file_samples variant_file_path lines
  = Raise2 UnboundLocalError <->
  (if endswith ".vcf" variant_file_path
      || endswith ".vcf.gz" variant_file_path
   then Forall (fun line => startswith "#CHROM" line = false) lines
   else endswith ".tsv" variant_file_path
        || endswith ".tsv.gz" variant_file_path = false).
Proof.
  unfold WindowedPcaMore.fetch_variant_file_samples.
  destruct (endswith ".vcf" variant_file_path
            || endswith ".vcf.gz" variant_file_path).
  - rewrite <- fold_header_none_iff.
    destruct (fold_left WindowedPcaMore.header_step lines None);
      split; intros H; congruence.
  - destruct (endswith ".tsv" variant_file_path
              || endswith ".tsv.gz" variant_file_path);
      split; intros H; congruence.
Qed.

(** X2.  For a VCF, the samples come from the last line that starts with
    [#CHROM]: when that line is nine fields and the sample names joined by
    tabs, no field or name holds a tab and the line does not end in white
    space before its line end, the function returns the sample names, in
    order, whatever the lines before it are. *)
Theorem fetch_samples_vcf_header (variant_file_path : string)
  (pre post : list string) (fields samples : list string) :
  endswith ".vcf" variant_file_path
  || endswith ".vcf.gz" variant_file_path = true ->
  length fields = 9%nat ->
  Forall (fun s => contains tab s = false) (fields ++ samples) ->
  startswith "#CHROM" (join (String tab EmptyString) (fields ++ samples))
  = true ->
  (forall d,
     last_char (join (String tab EmptyString) (fields ++ samples)) = Some d ->
     is_space d = false) ->
  Forall (fun line => startswith "#CHROM" line = false) post ->
  WindowedPcaMore.fetch_variant_file_samples variant_file_path
    (pre ++ (join (String tab EmptyString) (fields ++ samples)
             ++ String newline_char EmptyString)%string :: post)
  = Ok2 samples.
Proof.
  intros Hpath Hlen Htab Hstart Hlast Hpost.
  unfold WindowedPcaMore.fetch_variant_file_samples. rewrite Hpath.
  destruct (prefix_head _ _ _ Hstart) as [t Ht].
  rewrite fold_header_last.
  - rewrite Ht.
    rewrite (header_fields 9 fields samples "#"%char t Hlen Htab Ht eq_refl);
      [reflexivity|].
    rewrite <- Ht. exact Hlast.
  - apply prefix_app. exact Hstart.
  - exact Hpost.
Qed.

Lemma fetch_samples_vcf_header_witness :
  WindowedPcaMore.fetch_variant_file_samples "calls.vcf.gz"
    (["##fileformat=VCFv4.2"; "#CHROM old"]%string
     ++ (join (String tab EmptyString)
           (["#CHROM"; "POS"; "ID"; "REF"; "ALT"; "QUAL"; "FILTER"; "INFO";
             "FORMAT"]%string ++ ["ind 1"; "ind2"]%string)
         ++ String newline_char EmptyString)%string
     :: ["chr1 data"]%string)
  = Ok2 ["ind 1"; "ind2"]%string.
Proof.
  apply (fetch_samples_vcf_header "calls.vcf.gz"
           ["##fileformat=VCFv4.2"; "#CHROM old"]%string
           ["chr1 data"]%string
           ["#CHROM"; "POS"; "ID"; "REF"; "ALT"; "QUAL"; "FILTER"; "INFO";
            "FORMAT"]%string ["ind 1"; "ind2"]%string).
  - reflexivity.
  - reflexivity.
  - repeat constructor.
  - reflexivity.
  - intros d H. vm_compute in H. injection H as <-. reflexivity.
  - repeat constructor.
Defined.

(** X3.  For a genotype file, the samples come from the first line: when
    it is two fields and the sample names joined by tabs, starts with a
    character that is no white space, and neither holds a tab inside a
    field nor ends in white space before its line end, the function
    returns the sample names, in order, and reads no other line. *)
Theorem fetch_samples_tsv_header (variant_file_path : string)
  (rest : list string) (fields samples : list string)
  (c : ascii) (t : string) :
  endswith ".tsv" variant_file_path
  || endswith ".tsv.gz" variant_file_path = true ->
  length fields = 2%nat ->
  Forall (fun s => contains tab s = false) (fields ++ samples) ->
  join (String tab EmptyString) (fields ++ samples) = String c t ->
  is_space c = false ->
  (forall d, last_char (String c t) = Some d -> is_space d = false) ->
  WindowedPcaMore.fetch_variant_file_samples variant_file_path
    ((String c t ++ String newline_char EmptyString)%string :: rest)
  = Ok2 samples.
Proof.
  intros Hpath Hlen Htab Hjoin Hc Hlast.
  unfold WindowedPcaMore.fetch_variant_file_samples.
  assert (Hvcf : endswith ".vcf" variant_file_path
                 || endswith ".vcf.gz" variant_file_path = false).
  { apply orb_true_iff in Hpath. apply orb_false_iff.
    destruct Hpath as [Hp|Hp]; split;
      match goal with
      | |- endswith ?a _ = false =>
          destruct (endswith a variant_file_path) eqn:E; [|reflexivity];
          first [ pose proof (endswith_both _ _ _ Hp E ltac:(cbn; lia)) as F
                | pose proof (endswith_both _ _ _ E Hp ltac:(cbn; lia)) as F ];
          vm_compute in F; discriminate
      end. }
  rewrite Hvcf, Hpath. cbn [hd].
  rewrite (header_fields 2 fields samples c t Hlen Htab Hjoin Hc Hlast).
  reflexivity.
Qed.

Lemma fetch_samples_tsv_header_witness :
  WindowedPcaMore.fetch_variant_file_samples "gt.tsv"
    (("chrom" ++ String tab ("pos" ++ String tab ("a1" ++ String tab "b2"))
      ++ String newline_char EmptyString)%string :: ["chr1"]%string)
  = Ok2 ["a1"; "b2"]%string.
Proof.
  apply (fetch_samples_tsv_header "gt.tsv" ["chr1"]%string
           ["chrom"; "pos"]%string ["a1"; "b2"]%string "c"%char
           ("hrom" ++ String tab ("pos" ++ String tab ("a1" ++ String tab "b2")))
           %string).
  - reflexivity.
  - reflexivity.
  - repeat constructor.
  - reflexivity.
  - reflexivity.
  - intros d H. vm_compute in H. injection H as <-. reflexivity.
Defined.

(** ** Command line *)

Lemma split_app_head (sep : ascii) (x y : string) :
  contains sep x = false ->
  split sep (x ++ y)
  = (x ++ hd EmptyString (split sep y))%string :: tl (split sep y).
Proof.
  induction x as [|c x IH]; cbn [contains append]; intros H.
  - destruct (split sep y) eqn:E; [|reflexivity].
    exfalso. exact (split_not_nil _ _ E).
  - apply orb_false_iff in H. destruct H as [Hc Hx].
    cbn [split]. rewrite Hc, (IH Hx). reflexivity.
Qed.

Lemma split_pieces_without (sep sep' : ascii) (s : string) :
  contains sep s = false ->
  Forall (fun p => contains sep p = false) (split sep' s).
Proof.
  induction s as [|c s IH]; cbn [contains split]; intros H.
  - repeat constructor.
  - apply orb_false_iff in H. destruct H as [Hc Hs]. specialize (IH Hs).
    destruct (Ascii.eqb c sep').
    + constructor; [reflexivity|exact IH].
    + destruct (split sep' s) as [|h t].
      * repeat constructor. cbn [contains]. rewrite Hc. reflexivity.
      * inversion IH; subst. constructor; [|assumption].
        cbn [contains]. rewrite Hc. assumption.
Qed.

Lemma hd_split_tail (tail : string) :
  tail = EmptyString \/ (exists t, tail = String ":" t)
  \/ (exists t, tail = String "-" t) ->
  hd EmptyString (split "-" (hd EmptyString (split ":" tail))) = EmptyString.
Proof.
  intros [->|[[t ->]|[t ->]]]; [reflexivity|reflexivity|].
  cbn [split]. change (Ascii.eqb "-" ":") with false. cbv iota.
  destruct (split ":" t) as [|h r]; reflexivity.
Qed.

(** X4.  [parse_arguments] of [windowed_pca.py] never prints its help
    message: the test [len(sys.argv) < 12] comes after the twelve names
    are unpacked, which only a list of exactly twelve values passes. *)
Theorem parse_arguments_never_prints_help (py_int : string -> result Z)
  (usage : string) (argv : list string) :
  fst (WindowedPcaMore.parse_arguments py_int usage argv) = [].
Proof.
  unfold WindowedPcaMore.parse_arguments.
  do 13 (destruct argv as [|? argv]; try reflexivity).
Qed.

(** X5.  With any number of command line values other than eleven after
    the script name, [parse_arguments] of [windowed_pca.py] raises
    [ValueError] at the unpacking and prints nothing. *)
Theorem parse_arguments_wrong_count (py_int : string -> result Z)
  (usage : string) (argv : list string) :
  length argv <> 12%nat ->
  WindowedPcaMore.parse_arguments py_int usage argv = ([], Raise ValueError).
Proof.
  intros H. unfold WindowedPcaMore.parse_arguments.
  do 13 (destruct argv as [|? argv]; try reflexivity).
  exfalso. apply H. reflexivity.
Qed.

Lemma parse_arguments_wrong_count_witness :
  WindowedPcaMore.parse_arguments (fun _ => Ok 0%Z) "help"
    ["windowed_pca.py"; "-h"]%string
  = ([], Raise ValueError).
Proof.
  apply (parse_arguments_wrong_count (fun _ => Ok 0%Z) "help"
           ["windowed_pca.py"; "-h"]%string).
  cbn [length]. lia.
Defined.

(** X6.  A region [chrom:start-stop] is taken apart at the first colon
    and at the first hyphen after it; what follows a second hyphen or a
    second colon is ignored.  The five numbers are converted in the order
    start, stop, window size, window step, component, the first failure
    being the one raised, and the output prefix is put in lower case. *)
Theorem parse_arguments_region (py_int : string -> result Z) (usage : string)
  (prog variant_file_path metadata_path output_prefix w_size w_step pc taxon
   group color_taxon guide_samples : string) (c a b tail : string) :
  contains ":" c = false ->
  contains ":" a = false -> contains "-" a = false ->
  contains ":" b = false -> contains "-" b = false ->
  tail = EmptyString \/ (exists t, tail = String ":" t)
  \/ (exists t, tail = String "-" t) ->
  snd (WindowedPcaMore.parse_arguments py_int usage
         [prog; variant_file_path; metadata_path; output_prefix;
          (c ++ String ":" (a ++ String "-" (b ++ tail)))%string;
          w_size; w_step; pc; taxon; group; color_taxon; guide_samples])
  = (start <- py_int a ;;
     stop <- py_int b ;;
     w_size <- py_int w_size ;;
     w_step <- py_int w_step ;;
     pc <- py_int pc ;;
     Ok (WindowedPcaMore.mkArguments variant_file_path metadata_path
           (lower output_prefix) c start stop w_size w_step pc taxon group
           color_taxon guide_samples)).
Proof.
  intros Hc Ha1 Ha2 Hb1 Hb2 Htail.
  unfold WindowedPcaMore.parse_arguments. cbn [snd].
  unfold WindowedPcaMore.parse_region.
  rewrite (split_app_sep ":" c _ Hc).
  rewrite (split_app_head ":" a _ Ha1).
  cbn [split]. change (Ascii.eqb "-" ":") with false. cbv iota.
  rewrite (split_app_head ":" b tail Hb1).
  cbn [hd tl]. unfold WindowedPcaMore.item. cbn [nth_error Py.bind hd].
  rewrite (split_app_sep "-" a _ Ha2).
  rewrite (split_app_head "-" b _ Hb2).
  rewrite (hd_split_tail tail Htail).
  cbn [nth_error Py.bind].
  replace (b ++ EmptyString)%string with b; [reflexivity|].
  clear. induction b as [|x b IH]; cbn [append]; congruence.
Qed.

Lemma parse_arguments_region_witness :
  snd (WindowedPcaMore.parse_arguments (fun _ => Ok 7%Z) "help"
         ["windowed_pca.py"; "in.vcf"; "meta.tsv"; "Out/Run";
          ("chr1" ++ String ":" ("1" ++ String "-" ("500" ++ "-900")));
          "100"; "10"; "1"; "genus"; "Homo"; "genus"; "None"]%string)
  = Ok (WindowedPcaMore.mkArguments "in.vcf" "meta.tsv" "out/run" "chr1"
          7 7 7 7 7 "genus" "Homo" "genus" "None").
Proof.
  apply (parse_arguments_region (fun _ => Ok 7%Z) "help" "windowed_pca.py"
           "in.vcf" "meta.tsv" "Out/Run" "100" "10" "1" "genus" "Homo"
           "genus" "None" "chr1" "1" "500" "-900");
    try reflexivity.
  right. right. exists "900"%string. reflexivity.
Defined.

(** X7.  A region without a colon, or without a hyphen, makes
    [parse_arguments] raise [IndexError], before any number is
    converted. *)
Theorem parse_arguments_region_index_error (py_int : string -> result Z)
  (usage : string)
  (prog variant_file_path metadata_path output_prefix region w_size w_step pc
   taxon group color_taxon guide_samples : string) :
  contains ":" region = false \/ contains "-" region = false ->
  snd (WindowedPcaMore.parse_arguments py_int usage
         [prog; variant_file_path; metadata_path; output_prefix; region;
          w_size; w_step; pc; taxon; group; color_taxon; guide_samples])
  = Raise IndexError.
Proof.
  intros H. unfold WindowedPcaMore.parse_arguments. cbn [snd].
  unfold WindowedPcaMore.parse_region, WindowedPcaMore.item.
  destruct (contains ":" region) eqn:Ecolon.
  - destruct H as [H|H]; [discriminate|].
    pose proof (split_pieces_without "-" ":" region H) as Hall.
    destruct (split ":" region) as [|p0 [|p1 ps]] eqn:E;
      [reflexivity|reflexivity|].
    cbn [nth_error Py.bind].
    inversion Hall as [|? ? _ Hall']; subst.
    inversion Hall' as [|? ? Hp1 _]; subst.
    rewrite (split_without "-" p1 Hp1). reflexivity.
  - rewrite (split_without ":" region Ecolon). reflexivity.
Qed.

Lemma parse_arguments_region_index_error_witness :
  snd (WindowedPcaMore.parse_arguments (fun _ => Ok 7%Z) "help"
         ["windowed_pca.py"; "in.vcf"; "meta.tsv"; "out"; "chr1:1000";
          "100"; "10"; "1"; "genus"; "Homo"; "genus"; "None"]%string)
  = Raise IndexError.
Proof.
  apply (parse_arguments_region_index_error (fun _ => Ok 7%Z) "help"
           "windowed_pca.py" "in.vcf" "meta.tsv" "out" "chr1:1000" "100"
           "10" "1" "genus" "Homo" "genus" "None").
  right. reflexivity.
Defined.

(** X8.  [parse_arguments] of [utils.py] prints its help message on every
    call that gets past the unpacking: the unpacking needs twelve values
    and the test asks for thirteen. *)
Theorem utils_parse_arguments_always_prints_help
  (py_int : string -> result Z) (usage : string) (argv : list string) :
  UtilsMore.parse_arguments py_int usage argv
  = if (length argv =? 12)%nat
    then ([usage],
          snd (UtilsMore.parse_arguments py_int usage argv))
    else ([], Raise ValueError).
Proof.
  unfold UtilsMore.parse_arguments.
  do 13 (destruct argv as [|? argv]; try reflexivity).
Qed.

(** ** The first steps of [main] *)

Lemma nodup_length_le (l : list string) :
  (length (nodup string_dec l) <= length l)%nat.
Proof.
  induction l as [|x l IH]; cbn [nodup length]; [lia|].
  destruct (in_dec string_dec x l); cbn [length]; lia.
Qed.

Lemma nodup_same_length (l : list string) :
  length (nodup string_dec l) = length l -> NoDup l.
Proof.
  induction l as [|x l IH]; cbn [nodup length]; intros H; [constructor|].
  destruct (in_dec string_dec x l) as [Hin|Hin].
  - pose proof (nodup_length_le l). lia.
  - cbn [length] in H. constructor; [exact Hin|apply IH; lia].
Qed.

Lemma split_two (sep : ascii) (s : string) :
  contains sep s = true -> exists h h' t, split sep s = h :: h' :: t.
Proof.
  induction s as [|c s IH]; cbn [contains split]; intros H; [discriminate|].
  destruct (Ascii.eqb c sep).
  - destruct (split sep s) as [|h t] eqn:E;
      [exfalso; exact (split_not_nil _ _ E)|eauto].
  - destruct (IH H) as (h & h' & t & E). rewrite E. eauto.
Qed.

Lemma last_split_cons (sep c : ascii) (s d : string) :
  contains sep s = true ->
  last (split sep (String c s)) d = last (split sep s) d.
Proof.
  intros H. destruct (split_two _ _ H) as (h & h' & t & E).
  cbn [split]. rewrite E. destruct (Ascii.eqb c sep); reflexivity.
Qed.

Lemma contains_app_sep (sep : ascii) (a b : string) :
  contains sep (a ++ String sep b) = true.
Proof.
  induction a as [|c a IH]; cbn [append contains].
  - rewrite Ascii.eqb_refl. reflexivity.
  - rewrite IH. apply orb_true_r.
Qed.

Lemma last_split_name (dir name : string) :
  contains slash name = false ->
  last (split slash (dir ++ String slash name)) EmptyString = name.
Proof.
  intros Hname. induction dir as [|c dir IH]; cbn [append].
  - cbn [split]. rewrite Ascii.eqb_refl, (split_without _ _ Hname).
    reflexivity.
  - rewrite last_split_cons; [exact IH|apply contains_app_sep].
Qed.

(** X9.  The test on the sample ids in [main] passes, printing nothing,
    exactly when no id occurs twice; otherwise [main] prints its notice
    and stops with [SystemExit]. *)
Theorem check_ids_unique_iff (ids : list string) :
  (WindowedPcaMore.check_ids ids = ([], Ok2 tt) <-> NoDup ids) /\
  (WindowedPcaMore.check_ids ids
   = ([WindowedPcaMore.duplicate_ids_notice], Raise2 SystemExit)
   <-> ~ NoDup ids).
Proof.
  unfold WindowedPcaMore.check_ids.
  destruct (Nat.eqb (length ids) (length (nodup string_dec ids))) eqn:E.
  - apply Nat.eqb_eq in E. symmetry in E. apply nodup_same_length in E.
    repeat split; intros; try assumption; try discriminate; contradiction.
  - apply Nat.eqb_neq in E.
    assert (H : ~ NoDup ids).
    { intros Hn. apply E. rewrite (nodup_fixed_point string_dec Hn).
      reflexivity. }
    repeat split; intros; try assumption; try discriminate; contradiction.
Qed.

(** X10.  When the output prefix is [dir/name], the path whose existence
    [main] tests is made of the characters of [name] alone, each followed
    by a slash, and does not mention [dir].  So when a directory named by
    the prefix exists, as after a run that created it, and that other
    path does not, [main] stops with [FileExistsError] at
    [os.makedirs]. *)
Theorem prepare_output_dir_probe (exists_ : string -> bool)
  (dir name : string) :
  contains slash name = false ->
  exists_ (join "/" (chars name) ++ "/")%string = false ->
  exists_ (dir ++ String slash name)%string = true ->
  WindowedPcaMore.probe_path (dir ++ String slash name)
  = (join "/" (chars name) ++ "/")%string /\
  WindowedPcaMore.prepare_output_dir exists_ (dir ++ String slash name)
  = Raise2 FileExistsError.
Proof.
  intros Hname Hprobe Hdir.
  assert (Hp : WindowedPcaMore.probe_path (dir ++ String slash name)
               = (join "/" (chars name) ++ "/")%string).
  { unfold WindowedPcaMore.probe_path. rewrite (last_split_name _ _ Hname).
    reflexivity. }
  split; [exact Hp|].
  unfold WindowedPcaMore.prepare_output_dir.
  rewrite contains_app_sep, Hp, Hprobe, Hdir. reflexivity.
Qed.

Lemma prepare_output_dir_probe_witness :
  WindowedPcaMore.probe_path "results/run" = "r/u/n/"%string /\
  WindowedPcaMore.prepare_output_dir (String.eqb "results/run") "results/run"
  = Raise2 FileExistsError.
Proof.
  apply (prepare_output_dir_probe (String.eqb "results/run") "results" "run");
    reflexivity.
Defined.

(** ** The covers of [plot_w_stats] *)

Lemma max_from_nan (l : list UtilsMore.pct) :
  Forall (fun p => p <> UtilsMore.PctNone) l ->
  UtilsMore.max_from UtilsMore.PctNaN l = Ok UtilsMore.PctNaN.
Proof.
  induction 1 as [|p l Hp _ IH]; [reflexivity|].
  cbn [UtilsMore.max_from].
  destruct p; [exact IH|exact IH|congruence].
Qed.

Lemma max_from_num (l : list UtilsMore.pct) (m : Q) :
  Forall (fun p => p <> UtilsMore.PctNone) l ->
  exists m',
    UtilsMore.max_from (UtilsMore.PctNum m) l = Ok (UtilsMore.PctNum m') /\
    m <= m' /\
    (forall y, In (UtilsMore.PctNum y) l -> y <= m') /\
    (m' = m \/ In (UtilsMore.PctNum m') l).
Proof.
  intros H. revert m.
  induction H as [|p l Hp _ IH]; intros m.
  - exists m. repeat split; [lra|intros y []|left; reflexivity].
  - cbn [UtilsMore.max_from]. destruct p as [x| |]; [| |congruence].
    + cbn [UtilsMore.py_gt Py.bind].
      destruct (Qgtb x m) eqn:E.
      * apply Qgtb_true_iff in E.
        destruct (IH x) as (m' & Hm & Hle & Hall & Hin).
        exists m'. repeat split; [exact Hm|lra| |].
        -- intros y [Hy|Hy]; [injection Hy as <-; exact Hle|exact (Hall y Hy)].
        -- right. destruct Hin as [->|Hin]; [left; reflexivity|right; exact Hin].
      * apply Qgtb_false_iff in E.
        destruct (IH m) as (m' & Hm & Hle & Hall & Hin).
        exists m'. repeat split; [exact Hm|exact Hle| |].
        -- intros y [Hy|Hy]; [injection Hy as <-; lra|exact (Hall y Hy)].
        -- destruct Hin as [->|Hin]; [left; reflexivity|right; right; exact Hin].
    + cbn [UtilsMore.py_gt Py.bind].
      destruct (IH m) as (m' & Hm & Hle & Hall & Hin).
      exists m'. repeat split; [exact Hm|exact Hle| |].
      * intros y [Hy|Hy]; [discriminate|exact (Hall y Hy)].
      * destruct Hin as [->|Hin]; [left; reflexivity|right; right; exact Hin].
Qed.

Import AuxMore.

Lemma missing_stretches_close (T : Z) (rows : list (Z * Z)) :
  UtilsMore.missing_stretches T rows
  = stretch_close (fold_left (UtilsMore.stretch_step T) rows ([], [])).
Proof.
  unfold UtilsMore.missing_stretches, stretch_close.
  destruct (fold_left (UtilsMore.stretch_step T) rows ([], [])) as [ms st].
  reflexivity.
Qed.

Lemma stretch_fold_prefix (T : Z) (rows : list (Z * Z))
  (ms : list (list Z)) (st : list Z) :
  fold_left (UtilsMore.stretch_step T) rows (ms, st)
  = (ms ++ fst (fold_left (UtilsMore.stretch_step T) rows ([], st)),
     snd (fold_left (UtilsMore.stretch_step T) rows ([], st))).
Proof.
  revert ms st. induction rows as [|[w n] rows IH]; intros ms st.
  - cbn [fold_left fst snd]. rewrite app_nil_r. reflexivity.
  - cbn [fold_left]. unfold UtilsMore.stretch_step at 2 4 6.
    destruct (T <=? n)%Z.
    + destruct st as [|a st].
      * apply IH.
      * rewrite (IH (ms ++ [a :: st]) []), (IH ([] ++ [a :: st]) []).
        cbn [fst snd app]. rewrite <- app_assoc. reflexivity.
    + apply IH.
Qed.

Lemma stretch_fold_below (T : Z) (rows : list (Z * Z)) (st : list Z) :
  Forall (fun row => below_threshold T row = true) rows ->
  fold_left (UtilsMore.stretch_step T) rows ([], st)
  = ([], st ++ map fst rows).
Proof.
  intros H. revert st.
  induction H as [|[w n] rows Hr _ IH]; intros st.
  - cbn [fold_left map]. rewrite app_nil_r. reflexivity.
  - cbn [fold_left]. unfold UtilsMore.stretch_step at 2.
    unfold below_threshold in Hr. cbn [snd] in Hr.
    apply Z.ltb_lt in Hr.
    destruct (T <=? n)%Z eqn:E; [apply Z.leb_le in E; lia|].
    rewrite IH. cbn [map fst]. rewrite <- app_assoc. reflexivity.
Qed.

Lemma stretch_step_pass (T w n : Z) (ms : list (list Z)) (st : list Z) :
  (T <= n)%Z ->
  UtilsMore.stretch_step T (ms, st) (w, n)
  = match st with
    | [] => (ms, [])
    | _ => (ms ++ [st], [])
    end.
Proof.
  intros H. unfold UtilsMore.stretch_step.
  apply Z.leb_le in H. rewrite H. destruct st; reflexivity.
Qed.

Lemma stretch_step_below (T w n : Z) (ms : list (list Z)) (st : list Z) :
  (n < T)%Z ->
  UtilsMore.stretch_step T (ms, st) (w, n) = (ms, st ++ [w]).
Proof.
  intros H. unfold UtilsMore.stretch_step.
  destruct (T <=? n)%Z eqn:E; [apply Z.leb_le in E; lia|reflexivity].
Qed.

Lemma stretch_fold_invariant (T : Z) (rows : list (Z * Z))
  (ms : list (list Z)) (st : list Z) :
  Forall (fun x => x <> []) ms ->
  Forall (fun x => x <> [])
    (fst (fold_left (UtilsMore.stretch_step T) rows (ms, st))) /\
  concat (fst (fold_left (UtilsMore.stretch_step T) rows (ms, st)))
  ++ snd (fold_left (UtilsMore.stretch_step T) rows (ms, st))
  = concat ms ++ st ++ map fst (filter (below_threshold T) rows).
Proof.
  revert ms st. induction rows as [|[w n] rows IH]; intros ms st Hms.
  - cbn [fold_left filter map fst snd]. rewrite app_nil_r. auto.
  - cbn [fold_left].
    change (filter (below_threshold T) ((w, n) :: rows))
      with (if (n <? T)%Z then (w, n) :: filter (below_threshold T) rows
            else filter (below_threshold T) rows).
    destruct (n <? T)%Z eqn:E.
    + apply Z.ltb_lt in E. rewrite (stretch_step_below T w n ms st E).
      destruct (IH ms (st ++ [w]) Hms) as [H1 H2].
      split; [exact H1|]. rewrite H2.
      cbn [map fst]. rewrite <- app_assoc. reflexivity.
    + apply Z.ltb_ge in E. rewrite (stretch_step_pass T w n ms st E).
      destruct st as [|a st].
      * apply IH. exact Hms.
      * destruct (IH (ms ++ [a :: st]) []) as [H1 H2].
        { apply Forall_app. split; [exact Hms|].
          constructor; [discriminate|constructor]. }
        split; [exact H1|]. rewrite H2.
        rewrite concat_app. cbn [concat app]. rewrite app_nil_r.
        rewrite <- app_assoc. reflexivity.
Qed.

Lemma gap_edges_total (ms : list (list Z)) :
  Forall (fun x => x <> []) ms ->
  UtilsMore.gap_edges ms
  = Ok (map (fun x => inject_Z (hd 0%Z x) - (1 # 10000)) ms
        ++ map (fun x => inject_Z (last x 0%Z) + (1 # 10000)) ms).
Proof.
  intros H. unfold UtilsMore.gap_edges.
  assert (H1 : mapM (fun x => a <- UtilsMore.first_item x ;;
                              Ok (inject_Z a - (1 # 10000))) ms
               = Ok (map (fun x => inject_Z (hd 0%Z x) - (1 # 10000)) ms)).
  { induction H as [|x ms Hx _ IH]; [reflexivity|].
    cbn [mapM map]. rewrite IH.
    destruct x as [|a x]; [congruence|reflexivity]. }
  assert (H2 : mapM (fun x => a <- UtilsMore.last_item x ;;
                              Ok (inject_Z a + (1 # 10000))) ms
               = Ok (map (fun x => inject_Z (last x 0%Z) + (1 # 10000)) ms)).
  { clear H1. induction H as [|x ms Hx _ IH]; [reflexivity|].
    cbn [mapM map]. rewrite IH.
    destruct x as [|a x]; [congruence|].
    cbn [UtilsMore.last_item Py.bind].
    replace (last (a :: x) 0%Z) with (last x a); [reflexivity|].
    clear. generalize 0%Z as d. revert a.
    induction x as [|b x IHx]; intros a d; [reflexivity|].
    change (last (a :: b :: x) d) with (last (b :: x) d).
    rewrite <- (IHx b d), <- (IHx b a). reflexivity. }
  rewrite H1, H2. reflexivity.
Qed.

Lemma missing_stretches_nonempty (T : Z) (rows : list (Z * Z)) :
  Forall (fun x => x <> []) (UtilsMore.missing_stretches T rows) /\
  concat (UtilsMore.missing_stretches T rows)
  = map fst (filter (below_threshold T) rows).
Proof.
  rewrite missing_stretches_close.
  destruct (stretch_fold_invariant T rows [] [] (Forall_nil _)) as [H1 H2].
  cbn [concat app] in H2.
  unfold stretch_close.
  destruct (fold_left (UtilsMore.stretch_step T) rows ([], [])) as [ms st].
  cbn [fst snd] in *. destruct st as [|a st].
  - rewrite app_nil_r in H2. auto.
  - split.
    + apply Forall_app. split; [exact H1|].
      constructor; [discriminate|constructor].
    + rewrite concat_app. cbn [concat]. rewrite app_nil_r. exact H2.
Qed.

(** X11.  When the first window of the table has no percentage for the
    first component (a window that was skipped), [pc_1_max], the height
    of the white covers, is NaN whatever the other windows hold: [max]
    keeps its first item unless a later one compares greater, and nothing
    compares greater than NaN. *)
Theorem stretch_data_nan_first (w n : Z) (rows : list (Z * UtilsMore.pct * Z))
  (min_var_per_w : Z) :
  Forall (fun r => snd (fst r) <> UtilsMore.PctNone) rows ->
  exists edges,
    UtilsMore.stretch_data ((w, UtilsMore.PctNaN, n) :: rows) min_var_per_w
    = Ok (UtilsMore.PctNaN,
          UtilsMore.missing_stretches min_var_per_w
            (map (fun r => (fst (fst r), snd r))
               ((w, UtilsMore.PctNaN, n) :: rows)),
          edges).
Proof.
  intros H. unfold UtilsMore.stretch_data.
  cbn [map UtilsMore.py_max fst snd].
  rewrite max_from_nan.
  - cbn [Py.bind].
    destruct (missing_stretches_nonempty min_var_per_w
                ((w, n) :: map (fun r => (fst (fst r), snd r)) rows))
      as [Hne _].
    rewrite (gap_edges_total _ Hne). cbn [Py.bind]. eauto.
  - apply Forall_map. exact H.
Qed.

Lemma stretch_data_nan_first_witness :
  exists edges,
    UtilsMore.stretch_data
      [(500, UtilsMore.PctNaN, 3); (1500, UtilsMore.PctNum 12, 80)]%Z 50
    = Ok (UtilsMore.PctNaN,
          UtilsMore.missing_stretches 50
            (map (fun r => (fst (fst r), snd r))
               [(500, UtilsMore.PctNaN, 3);
                (1500, UtilsMore.PctNum 12, 80)]%Z),
          edges).
Proof.
  apply (stretch_data_nan_first 500 3 [(1500, UtilsMore.PctNum 12, 80)]%Z 50).
  repeat constructor. discriminate.
Defined.

(** X12.  When the first window has a percentage and no value of the
    column is [None], [pc_1_max] is the largest percentage of the column:
    it is one of them and none is greater; NaNs further down are passed
    over. *)
Theorem stretch_data_max (w n : Z) (x : Q)
  (rows : list (Z * UtilsMore.pct * Z)) (min_var_per_w : Z) :
  Forall (fun r => snd (fst r) <> UtilsMore.PctNone) rows ->
  exists m stretches edges,
    UtilsMore.stretch_data ((w, UtilsMore.PctNum x, n) :: rows) min_var_per_w
    = Ok (UtilsMore.PctNum m, stretches, edges) /\
    (forall r y, In r ((w, UtilsMore.PctNum x, n) :: rows) ->
                 snd (fst r) = UtilsMore.PctNum y -> y <= m) /\
    (exists r, In r ((w, UtilsMore.PctNum x, n) :: rows) /\
               snd (fst r) = UtilsMore.PctNum m).
Proof.
  intros H. unfold UtilsMore.stretch_data.
  cbn [map UtilsMore.py_max fst snd].
  destruct (max_from_num (map (fun r => snd (fst r)) rows) x)
    as (m & Hm & Hle & Hall & Hin); [apply Forall_map; exact H|].
  rewrite Hm. cbn [Py.bind].
  destruct (missing_stretches_nonempty min_var_per_w
              ((w, n) :: map (fun r => (fst (fst r), snd r)) rows))
    as [Hne _].
  rewrite (gap_edges_total _ Hne). cbn [Py.bind].
  exists m. eexists. eexists. split; [reflexivity|]. split.
  - intros r y [<-|Hr] Hy.
    + cbn [fst snd] in Hy. injection Hy as <-. exact Hle.
    + apply Hall. rewrite <- Hy. apply in_map_iff. exists r. auto.
  - destruct Hin as [->|Hin].
    + exists (w, UtilsMore.PctNum x, n). split; [left; reflexivity|reflexivity].
    + apply in_map_iff in Hin. destruct Hin as (r & Hr & Hin).
      exists r. split; [right; exact Hin|exact Hr].
Qed.

Lemma stretch_data_max_witness :
  exists m stretches edges,
    UtilsMore.stretch_data
      [(500, UtilsMore.PctNum 12, 80); (1500, UtilsMore.PctNaN, 3);
       (2500, UtilsMore.PctNum 30, 90)]%Z 50
    = Ok (UtilsMore.PctNum m, stretches, edges) /\
    (forall r y,
       In r [(500, UtilsMore.PctNum 12, 80); (1500, UtilsMore.PctNaN, 3);
             (2500, UtilsMore.PctNum 30, 90)]%Z ->
       snd (fst r) = UtilsMore.PctNum y -> y <= m) /\
    (exists r,
       In r [(500, UtilsMore.PctNum 12, 80); (1500, UtilsMore.PctNaN, 3);
             (2500, UtilsMore.PctNum 30, 90)]%Z /\
       snd (fst r) = UtilsMore.PctNum m).
Proof.
  apply (stretch_data_max 500 80 12
           [(1500, UtilsMore.PctNaN, 3); (2500, UtilsMore.PctNum 30, 90)]%Z
           50).
  repeat constructor; discriminate.
Defined.

(** X13.  The stretches [plot_w_stats] covers hold, in the order of the
    table, exactly the midpoints of the windows with fewer variants than
    the threshold, each once, and no stretch is empty. *)
Theorem missing_stretches_partition (min_var_per_w : Z)
  (rows : list (Z * Z)) :
  Forall (fun x => x <> []) (UtilsMore.missing_stretches min_var_per_w rows) /\
  concat (UtilsMore.missing_stretches min_var_per_w rows)
  = map fst (filter (fun row => (snd row <? min_var_per_w)%Z) rows).
Proof.
  exact (missing_stretches_nonempty min_var_per_w rows).
Qed.

(** X14.  A window with enough variants separates the stretches: those of
    a table are the stretches of the rows before such a window followed
    by the stretches of the rows after it. *)
Theorem missing_stretches_split (min_var_per_w w n : Z)
  (before after : list (Z * Z)) :
  (min_var_per_w <= n)%Z ->
  UtilsMore.missing_stretches min_var_per_w (before ++ (w, n) :: after)
  = UtilsMore.missing_stretches min_var_per_w before
    ++ UtilsMore.missing_stretches min_var_per_w after.
Proof.
  intros H. rewrite !missing_stretches_close.
  rewrite fold_left_app. cbn [fold_left].
  destruct (fold_left (UtilsMore.stretch_step min_var_per_w) before ([], []))
    as [m1 s1].
  rewrite (stretch_step_pass _ w n m1 s1 H).
  unfold stretch_close at 2. cbn [fst snd].
  destruct s1 as [|a s1].
  - rewrite stretch_fold_prefix. unfold stretch_close. cbn [fst snd].
    destruct (snd (fold_left (UtilsMore.stretch_step min_var_per_w) after
                     ([], []))); [reflexivity|].
    rewrite app_assoc. reflexivity.
  - rewrite stretch_fold_prefix. unfold stretch_close. cbn [fst snd].
    destruct (snd (fold_left (UtilsMore.stretch_step min_var_per_w) after
                     ([], []))); [reflexivity|].
    rewrite app_assoc. reflexivity.
Qed.

Lemma missing_stretches_split_witness :
  UtilsMore.missing_stretches 50
    ([(500, 3); (1500, 7)] ++ (2500, 50) :: [(3500, 0)])%Z
  = UtilsMore.missing_stretches 50 [(500, 3); (1500, 7)]%Z
    ++ UtilsMore.missing_stretches 50 [(3500, 0)]%Z.
Proof.
  apply (missing_stretches_split 50 2500 50 [(500, 3); (1500, 7)]%Z
           [(3500, 0)]%Z).
  lia.
Defined.

(** X15.  Neighbouring windows below the threshold are covered together:
    a table whose windows all have fewer variants than the threshold
    gives one stretch, with all its midpoints in order. *)
Theorem missing_stretches_run (min_var_per_w : Z) (rows : list (Z * Z)) :
  rows <> [] ->
  Forall (fun row => (snd row < min_var_per_w)%Z) rows ->
  UtilsMore.missing_stretches min_var_per_w rows = [map fst rows].
Proof.
  intros Hne H. rewrite missing_stretches_close.
  rewrite stretch_fold_below.
  - unfold stretch_close. cbn [fst snd app].
    destruct rows as [|r rows]; [congruence|reflexivity].
  - eapply Forall_impl; [|exact H].
    intros r Hr. unfold below_threshold. apply Z.ltb_lt. exact Hr.
Qed.

Lemma missing_stretches_run_witness :
  UtilsMore.missing_stretches 50 [(500, 3); (1500, 7)]%Z
  = [map fst [(500, 3); (1500, 7)]%Z].
Proof.
  apply (missing_stretches_run 50 [(500, 3); (1500, 7)]%Z).
  - discriminate.
  - repeat constructor; cbn [snd]; lia.
Defined.

(** X16.  Taking the first and the last midpoint of every stretch never
    raises [IndexError]: the edges of the gaps are, for the stretches of
    any table, the first midpoints less 0.0001 followed by the last
    midpoints plus 0.0001. *)
Theorem gap_edges_of_stretches (min_var_per_w : Z) (rows : list (Z * Z)) :
  UtilsMore.gap_edges (UtilsMore.missing_stretches min_var_per_w rows)
  = Ok (map (fun x => inject_Z (hd 0%Z x) - (1 # 10000))
          (UtilsMore.missing_stretches min_var_per_w rows)
        ++ map (fun x => inject_Z (last x 0%Z) + (1 # 10000))
             (UtilsMore.missing_stretches min_var_per_w rows)).
Proof.
  apply gap_edges_total.
  exact (proj1 (missing_stretches_nonempty min_var_per_w rows)).
Qed.

(** ** The orientation of the input *)

Lemma neg1_neg1 (x : Q) : neg1 (neg1 x) = x.
Proof.
  destruct x as [n d]. unfold neg1, Qmult. cbn [Qnum Qden]. f_equal; lia.
Qed.

Lemma cell_neg_neg (c : option (option Q)) :
  option_map (option_map neg1) (option_map (option_map neg1) c) = c.
Proof.
  destruct c as [[x|]|]; cbn [option_map]; [rewrite neg1_neg1|..];
    reflexivity.
Qed.

Lemma df_neg_neg (df : DataFrame) : df_neg (df_neg df) = df.
Proof.
  unfold df_neg. cbn [index columns values]. rewrite map_map.
  rewrite <- (frame_eta df) at 4. f_equal.
  rewrite <- (map_id (values df)) at 2. apply map_ext. intros row.
  rewrite map_map. rewrite <- (map_id row) at 2. apply map_ext.
  intros [x|]; cbn [option_map]; [rewrite neg1_neg1|]; reflexivity.
Qed.

Lemma sflip_map_neg (marks : list bool) (row : list cell) :
  sflip marks (map (option_map neg1) row)
  = map (option_map neg1) (sflip marks row).
Proof.
  revert row. induction marks as [|b marks IH]; intros [|x row];
    cbn [sflip map]; try reflexivity.
  rewrite IH. destruct b; reflexivity.
Qed.

Lemma sflip_complement (marks : list bool) (row : list cell) :
  (length row <= length marks)%nat ->
  sflip marks row = map (option_map neg1) (sflip (map negb marks) row).
Proof.
  revert row. induction marks as [|b marks IH]; intros [|x row] H;
    cbn [sflip map length] in *; try reflexivity; [lia|].
  rewrite (IH row) by lia.
  destruct b; cbn [negb]; [reflexivity|].
  destruct x as [x|]; cbn [option_map]; [rewrite neg1_neg1|]; reflexivity.
Qed.

Lemma sflip_first_mark (marks : list bool) (row : list cell) :
  (length row <= S (length marks))%nat ->
  sflip (true :: marks) row
  = map (option_map neg1) (sflip (false :: map negb marks) row).
Proof.
  intros H. destruct row as [|x row]; [reflexivity|].
  cbn [sflip map]. cbn [length] in H.
  rewrite (sflip_complement marks row) by lia. reflexivity.
Qed.

Lemma mapM_votes_neg (rows : list (list cell)) :
  mapM row_votes (map (map (option_map neg1)) rows) = mapM row_votes rows.
Proof.
  induction rows as [|row rows IH]; [reflexivity|].
  cbn [map mapM]. rewrite row_votes_neg, IH. reflexivity.
Qed.

Lemma extremes_neg (l : list Q) (lo hi : Q) :
  arr_min l = Ok lo -> arr_max l = Ok hi ->
  exists lo' hi',
    arr_min (map neg1 l) = Ok lo' /\ arr_max (map neg1 l) = Ok hi' /\
    Qabs lo' == Qabs hi /\ Qabs hi' == Qabs lo.
Proof.
  intros Hlo Hhi.
  destruct (arr_min_spec _ _ Hlo) as [Hlo_in Hlo_le].
  destruct (arr_max_spec _ _ Hhi) as [Hhi_in Hhi_le].
  destruct l as [|x xs] eqn:Hl; [discriminate|]. rewrite <- Hl in *.
  destruct (arr_min (map neg1 l)) as [lo'|e] eqn:Hlo';
    [|rewrite Hl in Hlo'; discriminate].
  destruct (arr_max (map neg1 l)) as [hi'|e] eqn:Hhi';
    [|rewrite Hl in Hhi'; discriminate].
  exists lo', hi'. split; [reflexivity|]. split; [reflexivity|].
  destruct (arr_min_spec _ _ Hlo') as [Hlo'_in Hlo'_le].
  destruct (arr_max_spec _ _ Hhi') as [Hhi'_in Hhi'_le].
  apply in_map_iff in Hlo'_in. destruct Hlo'_in as (y & <- & Hy).
  apply in_map_iff in Hhi'_in. destruct Hhi'_in as (z & <- & Hz).
  assert (Hy1 : neg1 y <= neg1 hi) by (apply Hlo'_le; now apply in_map).
  assert (Hz1 : neg1 lo <= neg1 z) by (apply Hhi'_le; now apply in_map).
  rewrite !neg1_opp in Hy1, Hz1. rewrite !Qabs_neg1.
  assert (Hy2 : y <= hi) by now apply Hhi_le.
  assert (Hz2 : lo <= z) by now apply Hlo_le.
  assert (Ey : y == hi) by lra.
  assert (Ez : z == lo) by lra.
  rewrite Ey, Ez. split; reflexivity.
Qed.

Lemma switch_axis_neg (df out : DataFrame) :
  switch_axis df = Ok out ->
  (forall lo hi, arr_min (to_numpy0 out) = Ok lo ->
                 arr_max (to_numpy0 out) = Ok hi ->
                 ~ Qabs lo == Qabs hi) ->
  switch_axis (df_neg df) = Ok out.
Proof.
  intros Hrun Htie. unfold switch_axis in Hrun.
  apply bind_Ok in Hrun. destruct Hrun as (lo & Hlo & Hrun).
  apply bind_Ok in Hrun. destruct Hrun as (hi & Hhi & Hrun).
  destruct (extremes_neg _ _ _ Hlo Hhi) as (lo' & hi' & Hlo' & Hhi' & El & Eh).
  unfold switch_axis. rewrite to_numpy0_neg, Hlo', Hhi'. cbn [Py.bind].
  destruct (Qgtb (Qabs lo) (Qabs hi)) eqn:Hgt; injection Hrun as <-.
  - apply Qgtb_true_iff in Hgt.
    assert (Hgt' : Qgtb (Qabs lo') (Qabs hi') = false)
      by (apply Qgtb_false_iff; rewrite El, Eh; lra).
    rewrite Hgt'. reflexivity.
  - apply Qgtb_false_iff in Hgt.
    specialize (Htie lo hi Hlo Hhi).
    assert (Hgt' : Qgtb (Qabs lo') (Qabs hi') = true).
    { apply Qgtb_true_iff. rewrite El, Eh.
      destruct (Qlt_le_dec (Qabs lo) (Qabs hi)) as [Hlt|Hle]; [exact Hlt|].
      exfalso. apply Htie. lra. }
    rewrite Hgt', df_neg_neg. reflexivity.
Qed.

Lemma polarize_with_marked (df gdf guides out : DataFrame)
  (names : list string) (V : list (list Z)) (marks : list bool) :
  wf df -> NoDup (columns df) ->
  columns gdf = columns df -> incl (values gdf) (values df) ->
  loc gdf names = Ok guides ->
  Forall steady_row (values guides) ->
  mapM row_votes (values guides) = Ok V ->
  (forall j, nth j (false :: marks) false = true -> summed_vote V j <> 0%Z) ->
  polarize_with df gdf names = Ok out ->
  polarize_with (map_rows (sflip (false :: marks)) df)
    (map_rows (sflip (false :: marks)) gdf) names = Ok out.
Proof.
  intros [_ Hrect] Hnd Hcols Hsub Hloc Hsteady HV Hties Hrun.
  unfold polarize_with in Hrun. rewrite Hloc in Hrun. cbn [Py.bind] in Hrun.
  rewrite HV in Hrun. cbn [Py.bind] in Hrun.
  destruct (switch_lst V) as [sw|e] eqn:Hsw; [|discriminate].
  cbn [Py.bind] in Hrun.
  set (n := length (columns df)).
  destruct (loc_incl _ _ _ Hloc) as [_ Hsub'].
  assert (Hglen : Forall (fun row => length row = n) (values guides)).
  { apply Forall_forall. intros row Hrow.
    eapply Forall_forall in Hrect; [exact Hrect|]. auto. }
  assert (HVlen : Forall (fun votes => length votes = n) V)
    by (eapply mapM_lengths; eassumption).
  assert (Hswlen : length sw = n) by (eapply switch_lst_length; eassumption).
  set (m := false :: marks) in *.
  assert (Hvotes : forall row votes, In row (values guides) ->
            row_votes row = Ok votes ->
            row_votes (sflip m row) = Ok (vflip m votes)).
  { intros row votes Hrow Hv. apply row_votes_sflip; [|exact Hv].
    eapply Forall_forall in Hsteady; eassumption. }
  unfold polarize_with. rewrite loc_map_rows, Hloc. cbn [Py.bind].
  change (values (map_rows (sflip m) guides))
    with (map (sflip m) (values guides)).
  rewrite (mapM_map_votes (sflip m) m _ _ Hvotes HV). cbn [Py.bind].
  assert (HV'len : Forall (fun votes => length votes = n) (map (vflip m) V)).
  { apply Forall_map. eapply Forall_impl; [|exact HVlen].
    intros votes Hl. cbn beta. rewrite vflip_length. exact Hl. }
  destruct (switch_lst (map (vflip m) V)) as [sw'|e] eqn:Hsw';
    [|destruct V; discriminate].
  assert (Hsw'len : length sw' = n)
    by (eapply switch_lst_length; eassumption).
  cbn [Py.bind].
  assert (E : switch_windows (map_rows (sflip m) df) sw'
              = switch_windows df sw).
  { rewrite (switch_windows_marks (map_rows (sflip m) df) sw'),
      (switch_windows_marks df sw); try assumption.
    unfold map_rows. cbn [index columns values]. f_equal.
    rewrite map_map. apply map_ext_in. intros row Hrow.
    assert (Hlen : length row = n)
      by (eapply Forall_forall in Hrect; eassumption).
    apply nth_error_ext. intros j. rewrite !sflip_nth_error, !nth_error_map.
    destruct (Nat.lt_ge_cases j n) as [Hj|Hj].
    - rewrite (nth_error_nth' sw 0%Z), (nth_error_nth' sw' 0%Z) by lia.
      cbn [option_map].
      destruct (switch_lst_nth _ _ _ _ HVlen Hsw Hj) as [_ E1].
      destruct (switch_lst_nth _ _ _ _ HV'len Hsw' Hj) as [_ E2].
      rewrite E1, E2, summed_vote_vflip.
      specialize (Hties j).
      destruct (nth_error m j) as [[|]|] eqn:Em.
      + rewrite (nth_error_nth _ _ false Em) in *.
        specialize (Hties eq_refl).
        destruct (summed_vote V j <? 0)%Z eqn:E3;
          destruct (- summed_vote V j <? 0)%Z eqn:E4;
          try apply Z.ltb_lt in E3; try apply Z.ltb_ge in E3;
          try apply Z.ltb_lt in E4; try apply Z.ltb_ge in E4;
          try lia; [reflexivity|apply cell_neg_neg].
      + rewrite (nth_error_nth _ _ false Em). reflexivity.
      + apply nth_error_None in Em. rewrite (nth_overflow _ _ Em).
        reflexivity.
    - assert (Hnone : nth_error row j = None)
        by (apply nth_error_None; lia).
      rewrite Hnone.
      destruct (nth_error m j) as [[|]|];
        destruct (option_map (fun v => (v <? 0)%Z) (nth_error sw' j))
          as [[|]|];
        destruct (option_map (fun v => (v <? 0)%Z) (nth_error sw j))
          as [[|]|]; reflexivity. }
  rewrite E. exact Hrun.
Qed.

Lemma nth_map_negb (l : list bool) (j : nat) :
  (j < length l)%nat -> nth j (map negb l) false = negb (nth j l false).
Proof.
  revert j. induction l as [|b l IH]; intros [|j] H; cbn [length map nth] in *;
    try lia; [reflexivity|apply IH; lia].
Qed.

Lemma polarize_with_neg (df gdf out : DataFrame) (names : list string) :
  wf df -> NoDup (columns df) ->
  columns gdf = columns df -> incl (values gdf) (values df) ->
  polarize_with df gdf names = Ok out ->
  (forall lo hi, arr_min (to_numpy0 out) = Ok lo ->
                 arr_max (to_numpy0 out) = Ok hi ->
                 ~ Qabs lo == Qabs hi) ->
  polarize_with (df_neg df) (df_neg gdf) names = Ok out.
Proof.
  intros [_ Hrect] Hnd Hcols Hsub Hrun Htie.
  unfold polarize_with in *.
  change (df_neg gdf) with (map_rows (map (option_map neg1)) gdf).
  rewrite loc_map_rows.
  destruct (loc gdf names) as [guides|e] eqn:Hloc; [|discriminate].
  cbn [Py.bind] in *.
  change (values (map_rows (map (option_map neg1)) guides))
    with (map (map (option_map neg1)) (values guides)).
  rewrite mapM_votes_neg.
  destruct (mapM row_votes (values guides)) as [V|e] eqn:HV; [|discriminate].
  cbn [Py.bind] in *.
  destruct (switch_lst V) as [sw|e] eqn:Hsw; [|discriminate].
  cbn [Py.bind] in *.
  destruct (loc_incl _ _ _ Hloc) as [_ Hsub'].
  assert (Hglen : Forall (fun row => length row = length (columns df))
                    (values guides)).
  { apply Forall_forall. intros row Hrow.
    eapply Forall_forall in Hrect; [exact Hrect|]. auto. }
  assert (HVlen : Forall (fun votes => length votes = length (columns df)) V)
    by (eapply mapM_lengths; eassumption).
  assert (Hswlen : length sw = length (columns df))
    by (eapply switch_lst_length; eassumption).
  assert (E : switch_windows (df_neg df) sw
              = df_neg (switch_windows df sw)).
  { rewrite (switch_windows_marks (df_neg df) sw),
      (switch_windows_marks df sw); try assumption.
    unfold df_neg, map_rows. cbn [index columns values]. f_equal.
    rewrite !map_map. apply map_ext. intros row. apply sflip_map_neg. }
  rewrite E. apply switch_axis_neg; assumption.
Qed.

Lemma polarize_with_orientation
  (w_pca_df out gdf guides : DataFrame)
  (names : list string) (V : list (list Z)) (marks : list bool) :
  wf w_pca_df -> NoDup (columns w_pca_df) ->
  length marks = length (columns w_pca_df) ->
  columns gdf = columns w_pca_df -> incl (values gdf) (values w_pca_df) ->
  loc gdf names = Ok guides ->
  Forall steady_row (values guides) ->
  mapM row_votes (values guides) = Ok V ->
  (forall j, (0 < j < length marks)%nat ->
             nth j marks false <> nth 0 marks false ->
             summed_vote V j <> 0%Z) ->
  polarize_with w_pca_df gdf names = Ok out ->
  (forall lo hi, arr_min (to_numpy0 out) = Ok lo ->
                 arr_max (to_numpy0 out) = Ok hi ->
                 ~ Qabs lo == Qabs hi) ->
  polarize_with (map_rows (sflip marks) w_pca_df)
    (map_rows (sflip marks) gdf) names = Ok out.
Proof.
  intros Hwf Hnd Hmarks Hcols Hsub Hloc Hsteady HV Hties Hrun Htie.
  destruct marks as [|[|] marks'].
  - replace (map_rows (sflip []) w_pca_df) with w_pca_df.
    + replace (map_rows (sflip []) gdf) with gdf; [exact Hrun|].
      unfold map_rows. rewrite <- (frame_eta gdf) at 1. f_equal.
      rewrite <- (map_id (values gdf)) at 1. apply map_ext.
      intros [|x row]; reflexivity.
    + unfold map_rows. rewrite <- (frame_eta w_pca_df) at 1. f_equal.
      rewrite <- (map_id (values w_pca_df)) at 1. apply map_ext.
      intros [|x row]; reflexivity.
  - set (m2 := false :: map negb marks').
    assert (H2 : polarize_with (map_rows (sflip m2) w_pca_df)
                   (map_rows (sflip m2) gdf) names = Ok out).
    { apply (polarize_with_marked w_pca_df gdf guides out names V
               (map negb marks')); try assumption.
      intros [|j] Hj; [discriminate|]. cbn [nth] in Hj.
      assert (Hlt : (j < length marks')%nat).
      { destruct (Nat.lt_ge_cases j (length (map negb marks')))
          as [Hlt|Hge]; [rewrite length_map in Hlt; exact Hlt|].
        rewrite (nth_overflow _ _ Hge) in Hj. discriminate. }
      rewrite (nth_map_negb _ _ Hlt) in Hj.
      apply Hties; [cbn [length]; lia|]. cbn [nth].
      destruct (nth j marks' false); [discriminate Hj|discriminate]. }
    assert (Hwf2 : wf (map_rows (sflip m2) w_pca_df)).
    { destruct Hwf as [Hl Hrect]. split.
      - cbn [map_rows index values]. rewrite length_map. exact Hl.
      - cbn [map_rows columns values]. apply Forall_map.
        eapply Forall_impl; [|exact Hrect].
        intros row Hrow. cbn beta.
        rewrite <- Hrow, <- (length_map (option_map Qabs)),
          (sflip_keeps_magnitudes m2 row), length_map.
        reflexivity. }
    assert (Hneg : forall d,
               Forall (fun row => length row = length (columns w_pca_df))
                 (values d) ->
               map_rows (sflip (true :: marks')) d
               = df_neg (map_rows (sflip m2) d)).
    { intros d Hd. unfold df_neg, map_rows. cbn [index columns values].
      f_equal. rewrite map_map. apply map_ext_in. intros row Hrow.
      apply sflip_first_mark.
      eapply Forall_forall in Hd; [|exact Hrow].
      rewrite Hd, <- Hmarks. cbn [length]. lia. }
    rewrite (Hneg w_pca_df (proj2 Hwf)), (Hneg gdf).
    + apply polarize_with_neg;
        [exact Hwf2|exact Hnd|exact Hcols| |exact H2|exact Htie].
      cbn [map_rows values]. apply incl_map. exact Hsub.
    + apply Forall_forall. intros row Hrow.
      destruct Hwf as [_ Hrect].
      eapply Forall_forall in Hrect; [exact Hrect|]. auto.
  - apply (polarize_with_marked w_pca_df gdf guides out names V marks');
      try assumption.
    intros j Hj.
    destruct (Nat.lt_ge_cases j (length (false :: marks'))) as [Hlt|Hge];
      [|rewrite (nth_overflow _ _ Hge) in Hj; discriminate].
    destruct j as [|j]; [discriminate|].
    apply Hties; [lia|]. rewrite Hj. cbn [nth]. discriminate.
Qed.


(** ** Exceptions and edge cases of [polarize] *)

Lemma lookup_rows_nil_iff (rows : list (string * list cell)) (l : string) :
  lookup_rows rows l = [] <-> ~ In l (map fst rows).
Proof.
  split; [|apply lookup_rows_absent].
  intros H Hin. apply in_map_iff in Hin. destruct Hin as ([s r] & Hs & Hin).
  cbn [fst] in Hs. subst s.
  assert (Hf : In (l, r) (lookup_rows rows l)).
  { unfold lookup_rows. apply filter_In. split; [exact Hin|].
    cbn [fst]. apply String.eqb_refl. }
  rewrite H in Hf. exact Hf.
Qed.

Lemma lookup_rows_labels (rows : list (string * list cell)) (l : string)
  (p : string * list cell) :
  In p (lookup_rows rows l) -> fst p = l.
Proof.
  unfold lookup_rows. intros H. apply filter_In in H.
  destruct H as [_ H]. apply String.eqb_eq in H. exact H.
Qed.

Lemma loc_rows_raise (rows : list (string * list cell))
  (labels : list string) (e : exn) :
  loc_rows rows labels = Raise e ->
  e = KeyError /\ exists l, In l labels /\ ~ In l (map fst rows).
Proof.
  induction labels as [|l labels IH]; cbn [loc_rows]; [discriminate|].
  destruct (lookup_rows rows l) as [|p found] eqn:E.
  - intros H. injection H as <-. split; [reflexivity|].
    exists l. split; [left; reflexivity|].
    apply lookup_rows_nil_iff. exact E.
  - destruct (loc_rows rows labels) as [rest|e'] eqn:Er;
      cbn [Py.bind]; [discriminate|].
    intros H. injection H as <-.
    destruct (IH eq_refl) as [He (l' & Hl' & Hnot)].
    split; [exact He|]. exists l'. split; [right; exact Hl'|exact Hnot].
Qed.

Lemma loc_rows_labels (rows : list (string * list cell))
  (labels : list string) (rs : list (string * list cell)) :
  loc_rows rows labels = Ok rs ->
  incl labels (map fst rows) /\ incl labels (map fst rs).
Proof.
  revert rs. induction labels as [|l labels IH]; intros rs;
    cbn [loc_rows].
  - intros _. split; intros x [].
  - destruct (lookup_rows rows l) as [|p found] eqn:E; [discriminate|].
    destruct (loc_rows rows labels) as [rest|e'] eqn:Er;
      cbn [Py.bind]; [|discriminate].
    intros H. injection H as <-.
    destruct (IH rest eq_refl) as [H1 H2].
    assert (Hp : In p (lookup_rows rows l)) by (rewrite E; left; reflexivity).
    pose proof (lookup_rows_labels _ _ _ Hp) as Hl.
    split; intros x [<-|Hx].
    + rewrite <- Hl. apply in_map. unfold lookup_rows in Hp.
      apply filter_In in Hp. exact (proj1 Hp).
    + exact (H1 x Hx).
    + rewrite <- Hl. apply in_map. left. reflexivity.
    + apply in_map_iff. specialize (H2 x Hx). apply in_map_iff in H2.
      destruct H2 as (q & Hq & Hin). exists q. split; [exact Hq|].
      change (In q ((p :: found) ++ rest)). apply in_or_app. right. exact Hin.
Qed.

Lemma loc_rows_present (rows : list (string * list cell))
  (labels : list string) :
  incl labels (map fst rows) -> exists rs, loc_rows rows labels = Ok rs.
Proof.
  induction labels as [|l labels IH]; intros H; cbn [loc_rows]; [eauto|].
  destruct (lookup_rows rows l) as [|p found] eqn:E.
  - exfalso. apply lookup_rows_nil_iff in E. apply E, H. left. reflexivity.
  - destruct IH as [rest Hrest]; [intros x Hx; apply H; right; exact Hx|].
    rewrite Hrest. cbn [Py.bind]. eauto.
Qed.

Lemma mapM_votes_raise (rows : list (list cell)) (e : exn) :
  mapM row_votes rows = Raise e -> e = IndexError.
Proof.
  induction rows as [|row rows IH]; cbn [mapM]; [discriminate|].
  destruct row as [|c row]; cbn [row_votes].
  - intros H. injection H as <-. reflexivity.
  - destruct (mapM row_votes rows) as [V|e']; [discriminate|].
    intros H. injection H as <-. apply IH. reflexivity.
Qed.

Lemma polarize_with_no_key_error (df gdf : DataFrame) (names : list string) :
  incl names (map fst (rows_of gdf)) ->
  polarize_with df gdf names <> Raise KeyError.
Proof.
  intros Hin. unfold polarize_with, loc.
  destruct (loc_rows_present _ _ Hin) as [rs Hrs]. rewrite Hrs.
  cbn [Py.bind values].
  destruct (mapM row_votes (map snd rs)) as [V|e] eqn:HV; cbn [Py.bind].
  - destruct V as [|v V]; cbn [switch_lst Py.bind]; [discriminate|].
    unfold switch_axis.
    destruct (arr_min _) as [lo|e] eqn:Hlo; cbn [Py.bind].
    + destruct (arr_max _) as [hi|e] eqn:Hhi; cbn [Py.bind]; [discriminate|].
      unfold arr_max in Hhi. destruct (to_numpy0 _); [|discriminate].
      injection Hhi as <-. discriminate.
    + unfold arr_min in Hlo. destruct (to_numpy0 _); [|discriminate].
      injection Hlo as <-. discriminate.
  - rewrite (mapM_votes_raise _ _ HV). discriminate.
Qed.

(** X18.  When guide samples are supplied, the names [polarize] looks up
    are the comma-separated parts of [mean_threshold], and on a table
    with one label per row it raises [KeyError] exactly when one of these
    parts is not a sample of the track. *)
Theorem polarize_key_error_iff (w_pca_df : DataFrame)
  (var_threshold guide_samples : pyval) (s : string) :
  wf w_pca_df -> truthy guide_samples = true ->
  (polarize w_pca_df var_threshold (PyStr s) guide_samples = Raise KeyError
   <-> exists name, In name (split_comma s) /\ ~ In name (index w_pca_df)).
Proof.
  intros Hwf Htruthy. unfold polarize, select_guides. rewrite Htruthy.
  cbn [py_split Py.bind]. unfold loc at 1.
  rewrite <- (rows_of_index _ Hwf).
  destruct (loc_rows (rows_of w_pca_df) (split_comma s)) as [rs|e] eqn:Hrs;
    cbn [Py.bind fst snd].
  - destruct (loc_rows_labels _ _ _ Hrs) as [Hall Hrs'].
    split.
    + intros H. exfalso. revert H. apply polarize_with_no_key_error.
      unfold rows_of. cbn [index values]. rewrite combine_fst_snd.
      exact Hrs'.
    + intros (name & Hname & Hnot). exfalso. apply Hnot, Hall, Hname.
  - destruct (loc_rows_raise _ _ _ Hrs) as [-> Hmiss].
    split; [intros _; exact Hmiss|reflexivity].
Qed.

Lemma polarize_key_error_iff_witness :
  polarize Examples.track3 (PyInt 20) (PyStr "s1,s9") (PyStr "s1")
  = Raise KeyError
  <-> exists name, In name (split_comma "s1,s9")
                   /\ ~ In name (index Examples.track3).
Proof.
  apply (polarize_key_error_iff Examples.track3 (PyInt 20) (PyStr "s1")
           "s1,s9").
  - split; [reflexivity | repeat constructor].
  - reflexivity.
Defined.

(** X19.  Automatic selection with nothing to select from: when either
    threshold is 0, or the track has no sample, [polarize] ends with
    numpy's [AxisError], raised by [sum(axis=1)] on the array built from
    no guide row. *)
Theorem polarize_without_guides (w_pca_df : DataFrame) (k m : nat)
  (guide_samples : pyval) :
  truthy guide_samples = false ->
  wf w_pca_df -> NoDup (index w_pca_df) ->
  k = 0%nat \/ m = 0%nat \/ index w_pca_df = [] ->
  polarize w_pca_df (PyInt (Z.of_nat k)) (PyInt (Z.of_nat m)) guide_samples
  = Raise AxisError.
Proof.
  intros Hgs Hwf Hnd Hnone.
  destruct (select_guides_automatic w_pca_df k m guide_samples Hgs Hwf Hnd)
    as (gdf & names & Hsel & Hglen & _ & _ & _ & _ & Hnlen & _).
  assert (Hnames : names = []).
  { apply length_zero_iff_nil. rewrite Hnlen, Hglen.
    destruct Hnone as [-> | [-> | ->]]; cbn [length]; lia. }
  unfold polarize. rewrite Hsel. cbn [Py.bind fst snd]. subst names.
  reflexivity.
Qed.

Lemma polarize_without_guides_witness :
  polarize Examples.track3 (PyInt (Z.of_nat 2)) (PyInt (Z.of_nat 0)) PyNone
  = Raise AxisError.
Proof.
  apply (polarize_without_guides Examples.track3 2 0 PyNone).
  - reflexivity.
  - split; [reflexivity | repeat constructor].
  - simpl. repeat constructor; simpl; intros H;
      repeat (destruct H as [H|H]; [discriminate|]); exact H.
  - right. left. reflexivity.
Defined.

(** X20.  A track with samples but no window: with positive thresholds
    the automatic path selects guide samples and then raises
    [IndexError] at [row[0]], the first guide row being empty. *)
Theorem polarize_without_windows (w_pca_df : DataFrame) (k m : nat)
  (guide_samples : pyval) :
  truthy guide_samples = false ->
  wf w_pca_df -> NoDup (index w_pca_df) ->
  index w_pca_df <> [] -> columns w_pca_df = [] ->
  (0 < k)%nat -> (0 < m)%nat ->
  polarize w_pca_df (PyInt (Z.of_nat k)) (PyInt (Z.of_nat m)) guide_samples
  = Raise IndexError.
Proof.
  intros Hgs Hwf Hnd Hne Hcols Hk Hm.
  destruct (select_guides_automatic w_pca_df k m guide_samples Hgs Hwf Hnd)
    as (gdf & names & Hsel & Hglen & Hgnd & Hgfst & Hgsub & _ & Hnlen & _
        & Hnsub & _).
  unfold polarize. rewrite Hsel. cbn [Py.bind fst snd].
  unfold polarize_with, loc.
  destruct (loc_rows_distinct (rows_of gdf)) with (labels := names)
    as (rs & Hrs & Hfst & Hsub);
    [rewrite Hgfst; exact Hgnd|rewrite Hgfst; exact Hnsub|].
  rewrite Hrs. cbn [Py.bind values].
  destruct rs as [|[s row] rs].
  - exfalso. cbn [map] in Hfst. subst names.
    cbn [length] in Hnlen.
    assert (length (index w_pca_df) <> 0)%nat
      by (intros E; apply length_zero_iff_nil in E; contradiction).
    lia.
  - assert (Hrow : In row (values w_pca_df)).
    { assert (Hin : In (s, row) (rows_of w_pca_df))
        by (apply Hgsub, Hsub; left; reflexivity).
      unfold rows_of in Hin. exact (in_combine_r _ _ _ _ Hin). }
    destruct Hwf as [_ Hrect].
    eapply Forall_forall in Hrect; [|exact Hrow].
    rewrite Hcols in Hrect. destruct row; [reflexivity|discriminate].
Qed.

Lemma polarize_without_windows_witness :
  polarize (mkDF ["s1"; "s2"]%string [] [[]; []])
    (PyInt (Z.of_nat 2)) (PyInt (Z.of_nat 1)) PyNone
  = Raise IndexError.
Proof.
  apply (polarize_without_windows (mkDF ["s1"; "s2"]%string [] [[]; []])
           2 1 PyNone).
  - reflexivity.
  - split; [reflexivity | repeat constructor].
  - simpl. repeat constructor; simpl; intros H;
      repeat (destruct H as [H|H]; [discriminate|]); exact H.
  - discriminate.
  - reflexivity.
  - lia.
  - lia.
Defined.

(** ** The track [polarize] returns *)

Lemma finite_value_in (df : DataFrame) (y : Q) :
  Spec.finite_value df y -> In y (to_numpy0 df).
Proof.
  intros (i & j & Hc). unfold cell_at in Hc.
  destruct (nth_error (values df) i) as [row|] eqn:Hrow; [|discriminate].
  unfold to_numpy0. apply in_flat_map. exists row. split.
  - eapply nth_error_In; eassumption.
  - apply in_map_iff. exists (Some y). split; [reflexivity|].
    eapply nth_error_In; eassumption.
Qed.

Lemma in_to_numpy0 (df : DataFrame) (y : Q) :
  In y (to_numpy0 df) -> Spec.finite_value df y \/ y = 0.
Proof.
  unfold to_numpy0. intros H. apply in_flat_map in H.
  destruct H as (row & Hrow & Hy). apply in_map_iff in Hy.
  destruct Hy as ([x|] & Hx & Hin); [|right; symmetry; exact Hx].
  left. subst y.
  apply In_nth_error in Hrow. destruct Hrow as [i Hi].
  apply In_nth_error in Hin. destruct Hin as [j Hj].
  exists i, j. unfold cell_at. rewrite Hi. exact Hj.
Qed.

Lemma polarize_last_step (df out : DataFrame) (vt mt gs : pyval) :
  polarize df vt mt gs = Ok out ->
  exists (guides : DataFrame) (V : list (list Z)) (sw : list Z),
    mapM row_votes (values guides) = Ok V /\
    switch_lst V = Ok sw /\
    switch_axis (switch_windows df sw) = Ok out.
Proof.
  unfold polarize, polarize_with. intros H.
  apply bind_Ok in H. destruct H as (sel & _ & H).
  apply bind_Ok in H. destruct H as (guides & _ & H).
  apply bind_Ok in H. destruct H as (V & HV & H).
  apply bind_Ok in H. destruct H as (sw & Hsw & H).
  eauto 6.
Qed.

(** X21.  In the track [polarize] returns, unless all its values are
    equal, a value of the largest magnitude is non-negative: the maximum
    of the track is a number of the track, it is positive, and no number
    of the track exceeds it in magnitude. *)
Theorem polarize_largest_magnitude_nonneg (w_pca_df out : DataFrame)
  (var_threshold mean_threshold guide_samples : pyval) (x y : Q) :
  polarize w_pca_df var_threshold mean_threshold guide_samples = Ok out ->
  Spec.finite_value out x -> Spec.finite_value out y -> ~ x == y ->
  Spec.largest_magnitude_nonneg out.
Proof.
  intros Hrun Hx Hy Hxy.
  destruct (polarize_last_step _ _ _ _ _ Hrun) as (_ & _ & sw & _ & _ & Hax).
  destruct (switch_axis_post _ _ Hax) as (lo & hi & Hlo & Hhi & Hgt).
  apply Qgtb_false_iff in Hgt.
  destruct (arr_min_spec _ _ Hlo) as [_ Hlo_le].
  destruct (arr_max_spec _ _ Hhi) as [Hhi_in Hhi_le].
  pose proof (Hlo_le x (finite_value_in _ _ Hx)) as Hx1.
  pose proof (Hhi_le x (finite_value_in _ _ Hx)) as Hx2.
  pose proof (Hlo_le y (finite_value_in _ _ Hy)) as Hy1.
  pose proof (Hhi_le y (finite_value_in _ _ Hy)) as Hy2.
  assert (Hpos : 0 < hi).
  { destruct (Qlt_le_dec 0 hi) as [Hlt|Hle]; [exact Hlt|].
    exfalso. apply Hxy. revert Hgt.
    apply Qabs_case; intros; revert Hgt; apply Qabs_case; intros; lra. }
  exists hi. split; [|split; [lra|]].
  - destruct (in_to_numpy0 _ _ Hhi_in) as [Hf|E]; [exact Hf|].
    rewrite E in Hpos. exfalso. lra.
  - intros z Hz.
    pose proof (Hlo_le z (finite_value_in _ _ Hz)) as Hz1.
    pose proof (Hhi_le z (finite_value_in _ _ Hz)) as Hz2.
    revert Hgt. apply Qabs_case; intros; apply Qabs_case; intros;
      revert Hgt; apply Qabs_case; intros; lra.
Qed.

Lemma polarize_largest_magnitude_nonneg_witness :
  Spec.largest_magnitude_nonneg
    (mkDF ["s1"; "s2"; "s3"]%string [500; 1500; 2500]%Z
       [[Some (1 * (-1)); Some (1 * (-1)); Some (-1 * (-1) * (-1))];
        [Some (2 * (-1)); Some (-2 * (-1)); Some (3 * (-1) * (-1))];
        [Some (-3 * (-1)); None; Some (5 * (-1) * (-1))]]).
Proof.
  apply (polarize_largest_magnitude_nonneg Examples.track3 _
           (PyInt 2) (PyInt 1) PyNone (1 * (-1)) (2 * (-1))).
  - reflexivity.
  - exists 0%nat, 0%nat. reflexivity.
  - exists 1%nat, 0%nat. reflexivity.
  - vm_compute. discriminate.
Defined.





(** ** Windows and tables *)



(** X25.  The coordinate table [windowed_pca] builds from the collected
    vectors is their transpose: it has the sample ids as row labels and
    the midpoints as column labels, one row per id and one cell per
    window in each, and the cell of sample [i] in window [j] is entry [i]
    of the vector of window [j]. *)
Theorem coordinate_frame_transposes (l : list (list cell))
  (ids : list string) (mids : list Z) (df : DataFrame) :
  coordinate_frame l ids mids = Ok df ->
  index df = ids /\ columns df = mids /\ wf df /\
  forall i j, (i < length ids)%nat ->
    cell_at df i j
    = match nth_error l j with
      | Some v => nth_error v i
      | None => None
      end.
Proof.
  unfold coordinate_frame. intros H.
  apply bind_Ok in H. destruct H as ([rows cols] & Hshape & H).
  cbn [fst snd] in H.
  destruct (Nat.eqb rows (length ids) && Nat.eqb cols (length mids)) eqn:E;
    [|discriminate].
  injection H as <-. apply andb_true_iff in E. destruct E as [Er Ec].
  apply Nat.eqb_eq in Er, Ec.
  assert (Hl : Forall (fun v => length v = length ids) l /\
               (length ids = 0%nat \/ length l = length mids)).
  { unfold transposed_shape in Hshape. destruct l as [|v vs].
    - injection Hshape as <- <-. split; [constructor|left; auto].
    - destruct (forallb (fun u => Nat.eqb (length u) (length v)) vs) eqn:F;
        [|discriminate].
      injection Hshape as <- <-. split; [|right; auto].
      constructor; [exact Er|].
      rewrite forallb_forall in F. apply Forall_forall. intros u Hu.
      specialize (F u Hu). apply Nat.eqb_eq in F. congruence. }
  destruct Hl as [Hlen Hcount].
  cbn [index columns]. split; [reflexivity|]. split; [reflexivity|]. split.
  - split; cbn [values index columns].
    + unfold np_transpose. rewrite length_map, length_seq. reflexivity.
    + unfold np_transpose. apply Forall_map. apply Forall_forall.
      intros i Hi. rewrite length_map. apply in_seq in Hi.
      destruct Hcount as [H0|Hc]; [lia|exact Hc].
  - intros i j Hi. unfold cell_at, np_transpose. cbn [values].
    rewrite nth_error_map.
    rewrite (nth_error_nth' (seq 0 (length ids)) 0%nat)
      by (rewrite length_seq; exact Hi).
    rewrite seq_nth by exact Hi. cbn [option_map Nat.add].
    rewrite nth_error_map.
    destruct (nth_error l j) as [v|] eqn:Ev; [|reflexivity].
    cbn [option_map]. symmetry. apply nth_error_nth'.
    eapply Forall_forall in Hlen; [|eapply nth_error_In; exact Ev].
    rewrite Hlen. exact Hi.
Qed.

Lemma coordinate_frame_transposes_witness :
  index (mkDF ["a"; "b"]%string [500; 1500]%Z
           [[Some 1; None]; [Some (-1); None]]) = ["a"; "b"]%string /\
  columns (mkDF ["a"; "b"]%string [500; 1500]%Z
             [[Some 1; None]; [Some (-1); None]]) = [500; 1500]%Z /\
  wf (mkDF ["a"; "b"]%string [500; 1500]%Z
        [[Some 1; None]; [Some (-1); None]]) /\
  forall i j, (i < length ["a"; "b"]%string)%nat ->
    cell_at (mkDF ["a"; "b"]%string [500; 1500]%Z
               [[Some 1; None]; [Some (-1); None]]) i j
    = match nth_error [[Some 1; Some (-1)]; [None; None]] j with
      | Some v => nth_error v i
      | None => None
      end.
Proof.
  apply (coordinate_frame_transposes [[Some 1; Some (-1)]; [None; None]]
           ["a"; "b"]%string [500; 1500]%Z).
  reflexivity.
Defined.

Lemma pca_first_component
  (allel_pca : list (list Z) -> result allel_model) (T : Z)
  (win : list (list Z)) (w_start w_size : Z) (g : globals) :
  pca allel_pca T 1 win w_start w_size g
  = match window_result allel_pca T (map (@tl Z) win) w_start w_size g with
    | (g1, Ok out) =>
        (mkGlobals (w_mid_lst g1 ++ [((2 * w_start + w_size - 2) ÷ 2)%Z])
           (w_pca_lst g1 ++ [out_0 out])
           (w_stats_lst g1 ++ [(out_2 out, out_3 out, out_4 out)])
           (stderr g1), Ok tt)
    | (g1, Raise e) => (g1, Raise e)
    end.
Proof.
  unfold pca. unfold bindM at 1.
  destruct (window_result allel_pca T (map (@tl Z) win) w_start w_size g)
    as [g1 [out|e]]; reflexivity.
Qed.

(** X27.  With [pc = 1] a call of [pca] keeps the three module-level
    lists aligned: when it returns, each of [w_mid_lst], [w_pca_lst] and
    [w_stats_lst] has grown by exactly one entry; when it raises, none
    of them has changed. *)
Theorem pca_keeps_lists_aligned
  (allel_pca : list (list Z) -> result allel_model) (T : Z)
  (win : list (list Z)) (w_start w_size : Z) (g : globals) :
  length (w_mid_lst g) = length (w_pca_lst g) ->
  length (w_pca_lst g) = length (w_stats_lst g) ->
  length (w_mid_lst (fst (pca allel_pca T 1 win w_start w_size g)))
  = length (w_pca_lst (fst (pca allel_pca T 1 win w_start w_size g))) /\
  length (w_pca_lst (fst (pca allel_pca T 1 win w_start w_size g)))
  = length (w_stats_lst (fst (pca allel_pca T 1 win w_start w_size g))) /\
  match snd (pca allel_pca T 1 win w_start w_size g) with
  | Ok _ =>
      length (w_mid_lst (fst (pca allel_pca T 1 win w_start w_size g)))
      = S (length (w_mid_lst g))
  | Raise _ =>
      w_mid_lst (fst (pca allel_pca T 1 win w_start w_size g)) = w_mid_lst g /\
      w_pca_lst (fst (pca allel_pca T 1 win w_start w_size g)) = w_pca_lst g /\
      w_stats_lst (fst (pca allel_pca T 1 win w_start w_size g))
      = w_stats_lst g
  end.
Proof.
  intros H1 H2.
  destruct (window_result_lists allel_pca T (map (@tl Z) win) w_start w_size g)
    as (Hm & Hp & Hs).
  rewrite pca_first_component.
  destruct (window_result allel_pca T (map (@tl Z) win) w_start w_size g)
    as [g1 [out|e]]; cbn [fst snd w_mid_lst w_pca_lst w_stats_lst] in *.
  - rewrite !length_app. cbn [length]. rewrite Hm, Hp, Hs. lia.
  - rewrite Hm, Hp, Hs. auto.
Qed.

Lemma pca_keeps_lists_aligned_witness :
  length (w_mid_lst (fst (pca Examples.engine2 2 1 [[100; 0; 2]%Z] 1 1000
                            Examples.no_globals)))
  = length (w_pca_lst (fst (pca Examples.engine2 2 1 [[100; 0; 2]%Z] 1 1000
                              Examples.no_globals))) /\
  length (w_pca_lst (fst (pca Examples.engine2 2 1 [[100; 0; 2]%Z] 1 1000
                            Examples.no_globals)))
  = length (w_stats_lst (fst (pca Examples.engine2 2 1 [[100; 0; 2]%Z] 1 1000
                                Examples.no_globals))) /\
  match snd (pca Examples.engine2 2 1 [[100; 0; 2]%Z] 1 1000
               Examples.no_globals) with
  | Ok _ =>
      length (w_mid_lst (fst (pca Examples.engine2 2 1 [[100; 0; 2]%Z] 1 1000
                                Examples.no_globals)))
      = S (length (w_mid_lst Examples.no_globals))
  | Raise _ =>
      w_mid_lst (fst (pca Examples.engine2 2 1 [[100; 0; 2]%Z] 1 1000
                        Examples.no_globals))
      = w_mid_lst Examples.no_globals /\
      w_pca_lst (fst (pca Examples.engine2 2 1 [[100; 0; 2]%Z] 1 1000
                        Examples.no_globals))
      = w_pca_lst Examples.no_globals /\
      w_stats_lst (fst (pca Examples.engine2 2 1 [[100; 0; 2]%Z] 1 1000
                          Examples.no_globals))
      = w_stats_lst Examples.no_globals
  end.
Proof.
  apply (pca_keeps_lists_aligned Examples.engine2 2 [[100; 0; 2]%Z] 1 1000
           Examples.no_globals); reflexivity.
Defined.

(** ** The rounded comparison *)

Import AuxFloat.

Lemma exact_rounding (ratio : Q) : Float.rounding (fun x => x) ratio.
Proof.
  constructor; intros; try assumption; try reflexivity. lra.
Qed.

Lemma Qsgn_opp (x : Q) : Qsgn (- x) = (- Qsgn x)%Z.
Proof. rewrite <- neg1_opp. apply Qsgn_neg1. Qed.

Lemma Forall2_in_r {A B : Type} (R : A -> B -> Prop) (l : list A)
  (l' : list B) (b : B) :
  Forall2 R l l' -> In b l' -> exists a, In a l /\ R a b.
Proof.
  induction 1 as [|x y l l' Hxy _ IH]; intros Hin; [contradiction|].
  destruct Hin as [<-|Hin].
  - exists x. split; [left; reflexivity|exact Hxy].
  - destruct (IH Hin) as (a & Ha & HR). exists a. split; [right|]; assumption.
Qed.

Section FloatFacts.

Variable fl : Q -> Q.
Variable ratio : Q.
Hypothesis R : Float.rounding fl ratio.

Lemma fl_zero : fl 0 == 0.
Proof.
  pose proof (Float.fl_odd fl ratio R 0) as H.
  assert (E : fl (- 0) == fl 0) by (apply (Float.fl_compat fl ratio R); lra).
  rewrite E in H. lra.
Qed.

Lemma fl_held_opp (x : Q) : fl x == x -> fl (- x) == - x.
Proof.
  intros H. rewrite (Float.fl_odd fl ratio R x), H. reflexivity.
Qed.

Lemma float_vote_test (v p : Q) :
  fl v == v -> fl p == p -> Qsgn v <> 0%Z -> Qsgn p <> 0%Z ->
  Qabs v < ratio * Qabs p -> Qabs p < ratio * Qabs v ->
  Qgtb (Qabs (fl (v - p))) (Qabs (fl (v - neg1 p)))
  = (Qsgn v * Qsgn p =? -1)%Z.
Proof.
  intros Fv Fp Sv Sp Hvp Hpv.
  assert (E : fl (v - neg1 p) == fl (v + p)).
  { apply (Float.fl_compat fl ratio R). rewrite neg1_opp. ring. }
  pose proof fl_zero as Z0.
  pose proof (Float.fl_mono fl ratio R) as Mono.
  pose proof (Float.fl_odd fl ratio R) as Odd.
  pose proof (Float.fl_compat fl ratio R) as Compat.
  destruct (Qsgn_cases v) as [[Ev Hv]|[[Ev Hv]|[Ev Hv]]]; [|congruence|];
    destruct (Qsgn_cases p) as [[Ep Hp]|[[Ep Hp]|[Ep Hp]]]; try congruence;
    rewrite Ev, Ep; cbn [Z.mul Z.eqb Pos.mul Pos.eqb Z.opp].
  - (* both positive *)
    apply Qgtb_false_iff. rewrite E.
    assert (A1 : fl (v - p) <= fl (v + p)) by (apply Mono; lra).
    assert (A2 : fl (- (v + p)) <= fl (v - p)) by (apply Mono; lra).
    rewrite Odd in A2.
    apply Qabs_case; intros; apply Qabs_case; intros; lra.
  - (* v positive, p negative *)
    apply Qgtb_true_iff. rewrite E.
    rewrite (Qabs_pos v), (Qabs_neg p) in Hvp by lra.
    rewrite (Qabs_pos v), (Qabs_neg p) in Hpv by lra.
    pose proof (fl_held_opp p Fp) as Fb.
    assert (B1 : fl (v + p) <= fl v) by (apply Mono; lra).
    assert (B2 : fl (- - p) <= fl (v + p)) by (apply Mono; lra).
    assert (B3 : fl 0 <= fl (v + p) \/ fl (v + p) <= fl 0).
    { destruct (Qlt_le_dec (v + p) 0); [right|left]; apply Mono; lra. }
    assert (B4 : fl (- - p) == p).
    { rewrite (Compat (- - p) p) by ring. exact Fp. }
    destruct (Qlt_le_dec v (- p)) as [Hlt|Hle].
    + assert (G : - p < fl (- p + v)).
      { apply (Float.fl_gap fl ratio R); try assumption; lra. }
      rewrite (Compat (- p + v) (v - p)) in G by ring.
      apply Qabs_case; intros; apply Qabs_case; intros; lra.
    + assert (G : v < fl (v + - p)).
      { apply (Float.fl_gap fl ratio R); try assumption; lra. }
      rewrite (Compat (v + - p) (v - p)) in G by ring.
      apply Qabs_case; intros; apply Qabs_case; intros; lra.
  - (* v negative, p positive *)
    apply Qgtb_true_iff. rewrite E.
    rewrite (Qabs_neg v), (Qabs_pos p) in Hvp by lra.
    rewrite (Qabs_neg v), (Qabs_pos p) in Hpv by lra.
    pose proof (fl_held_opp v Fv) as Fa.
    assert (B1 : fl (v + p) <= fl p) by (apply Mono; lra).
    assert (B2 : fl v <= fl (v + p)) by (apply Mono; lra).
    assert (B3 : fl 0 <= fl (v + p) \/ fl (v + p) <= fl 0).
    { destruct (Qlt_le_dec (v + p) 0); [right|left]; apply Mono; lra. }
    assert (D : fl (v - p) == - fl (- v + p)).
    { rewrite <- Odd. apply Compat. ring. }
    destruct (Qlt_le_dec (- v) p) as [Hlt|Hle].
    + assert (G : p < fl (p + - v)).
      { apply (Float.fl_gap fl ratio R); try assumption; lra. }
      rewrite (Compat (p + - v) (- v + p)) in G by ring.
      rewrite D.
      apply Qabs_case; intros; apply Qabs_case; intros; lra.
    + assert (G : - v < fl (- v + p)).
      { apply (Float.fl_gap fl ratio R); try assumption; lra. }
      rewrite D.
      apply Qabs_case; intros; apply Qabs_case; intros; lra.
  - (* both negative *)
    apply Qgtb_false_iff. rewrite E.
    assert (A1 : fl (v + p) <= fl (v - p)) by (apply Mono; lra).
    assert (A2 : fl (v - p) <= fl (- (v + p))) by (apply Mono; lra).
    rewrite Odd in A2.
    apply Qabs_case; intros; apply Qabs_case; intros; lra.
Qed.

End FloatFacts.

Lemma float_fold_votes (fl : Q -> Q) (ratio : Q) (rest : list cell) :
  Float.rounding fl ratio ->
  forall (prev : Q) (out : list Z),
  fl prev == prev -> Qsgn prev <> 0%Z ->
  Forall steady_cell rest ->
  held fl rest ->
  (forall v, In (Some v) rest ->
             Qabs v < ratio * Qabs prev /\ Qabs prev < ratio * Qabs v) ->
  balanced ratio rest ->
  snd (fold_left (Float.vote_step fl) rest (prev, out))
  = out ++ map (sign_vote (Qsgn prev)) rest.
Proof.
  intros R.
  induction rest as [|c rest IH]; intros prev out Fp Sp Hs Hh Hnear Hbal;
    cbn [fold_left].
  - cbn [snd map]. now rewrite app_nil_r.
  - inversion Hs as [|? ? Hc Hrest]; subst.
    assert (Hh' : held fl rest) by (intros x Hx; apply Hh; right; exact Hx).
    assert (Hbal' : balanced ratio rest)
      by (intros x y Hx Hy; apply Hbal; right; assumption).
    destruct c as [v|]; unfold Float.vote_step at 2.
    + assert (Fv : fl v == v) by (apply Hh; left; reflexivity).
      destruct (Hnear v (or_introl eq_refl)) as [N1 N2].
      cbn [steady_cell] in Hc.
      rewrite (float_vote_test fl ratio R v prev Fv Fp Hc Sp N1 N2).
      destruct (Qsgn v * Qsgn prev =? -1)%Z eqn:E.
      * assert (Hsame : Qsgn (neg1 v) = Qsgn prev).
        { rewrite Qsgn_neg1. apply Z.eqb_eq in E.
          destruct (Qsgn_cases v) as [[Sv _]|[[Sv _]|[Sv _]]];
            destruct (Qsgn_cases prev) as [[Sq _]|[[Sq _]|[Sq _]]];
            rewrite ?Sv, ?Sq in *; try discriminate; try reflexivity;
            congruence. }
        rewrite IH; try assumption.
        -- rewrite Hsame, <- app_assoc. cbn [map sign_vote app].
           now rewrite E.
        -- rewrite neg1_opp. apply (fl_held_opp fl ratio R). exact Fv.
        -- rewrite Hsame. exact Sp.
        -- intros w Hw. rewrite Qabs_neg1. split; apply Hbal;
             first [left; reflexivity | right; exact Hw].
      * assert (Hsame : Qsgn v = Qsgn prev).
        { apply Z.eqb_neq in E.
          destruct (Qsgn_cases v) as [[Sv _]|[[Sv _]|[Sv _]]];
            destruct (Qsgn_cases prev) as [[Sq _]|[[Sq _]|[Sq _]]];
            rewrite ?Sv, ?Sq in *; try reflexivity; try congruence;
            exfalso; apply E; reflexivity. }
        rewrite IH; try assumption.
        -- rewrite Hsame, <- app_assoc. cbn [map sign_vote app].
           now rewrite E.
        -- intros w Hw. split; apply Hbal;
             first [left; reflexivity | right; exact Hw].
    + rewrite IH; try assumption.
      * rewrite <- app_assoc. reflexivity.
      * intros w Hw. apply Hnear. right. exact Hw.
Qed.

Lemma float_row_votes_exact (fl : Q -> Q) (ratio : Q) (row : list cell) :
  Float.rounding fl ratio -> sound_row fl ratio row ->
  Float.row_votes fl row = row_votes row.
Proof.
  intros R (Hs & Hh & Hbal).
  destruct row as [|[x|] rest]; try contradiction.
  rewrite (row_votes_steady x rest Hs). destruct Hs as [Sx Hrest].
  unfold Float.row_votes. f_equal.
  apply (float_fold_votes fl ratio rest R); try assumption.
  - apply Hh. left. reflexivity.
  - intros y Hy. apply Hh. right. exact Hy.
  - intros v Hv. split; apply Hbal;
      first [left; reflexivity | right; exact Hv].
  - intros v w Hv Hw. apply Hbal; right; assumption.
Qed.

Lemma float_mapM_votes_exact (fl : Q -> Q) (ratio : Q)
  (rows : list (list cell)) :
  Float.rounding fl ratio -> Forall (sound_row fl ratio) rows ->
  mapM (Float.row_votes fl) rows = mapM row_votes rows.
Proof.
  intros R H. induction H as [|row rows Hrow _ IH]; [reflexivity|].
  cbn [mapM]. rewrite (float_row_votes_exact fl ratio row R Hrow), IH.
  reflexivity.
Qed.

Lemma float_polarize_with_exact (fl : Q -> Q) (ratio : Q)
  (df gdf : DataFrame) (names : list string) :
  Float.rounding fl ratio ->
  (forall guides, loc gdf names = Ok guides ->
                  Forall (sound_row fl ratio) (values guides)) ->
  Float.polarize_with fl df gdf names = polarize_with df gdf names.
Proof.
  intros R H. unfold Float.polarize_with, polarize_with.
  destruct (loc gdf names) as [guides|e]; [|reflexivity].
  cbn [Py.bind].
  rewrite (float_mapM_votes_exact fl ratio _ R (H guides eq_refl)).
  reflexivity.
Qed.

Lemma float_polarize_exact (fl : Q -> Q) (ratio : Q) (df : DataFrame)
  (vt mt gs : pyval) :
  Float.rounding fl ratio ->
  Forall (sound_row fl ratio) (values df) ->
  Float.polarize fl df vt mt gs = polarize df vt mt gs.
Proof.
  intros R H. unfold Float.polarize, polarize.
  destruct (select_guides df vt mt gs) as [[gdf names]|e] eqn:Hsel;
    [|reflexivity].
  cbn [Py.bind fst snd].
  apply (float_polarize_with_exact fl ratio); [exact R|].
  intros guides Hloc.
  destruct (select_guides_incl _ _ _ _ _ _ Hsel) as [_ Hsub].
  destruct (loc_incl _ _ _ Hloc) as [_ Hsub'].
  apply Forall_forall. intros row Hrow.
  eapply Forall_forall in H; [exact H|]. auto.
Qed.

Lemma sound_sign_of_row (fl : Q -> Q) (ratio : Q) (row row' : list cell) :
  Float.rounding fl ratio ->
  sign_of_row row row' -> sound_row fl ratio row -> sound_row fl ratio row'.
Proof.
  intros R Hsign (Hs & Hh & Hbal).
  assert (Hback : forall y, In (Some y) row' ->
            exists x, In (Some x) row /\ (y = x \/ y = - x)).
  { intros y Hy.
    destruct (Forall2_in_r _ _ _ _ Hsign Hy) as (c & Hc & [E|E]).
    - exists y. split; [rewrite E; exact Hc|left; reflexivity].
    - destruct c as [x|]; [|discriminate]. cbn [option_map] in E.
      injection E as ->. exists x. split; [exact Hc|right; reflexivity]. }
  repeat split.
  - unfold sign_of_row in Hsign.
    destruct Hsign as [|c c' rest rest' Hc Hrest]; [contradiction|].
    destruct c as [x|]; [|contradiction]. destruct Hs as [Sx Hst].
    assert (Hc' : exists x', c' = Some x' /\ Qsgn x' <> 0%Z).
    { destruct Hc as [->| ->]; cbn [option_map].
      - eauto.
      - exists (- x). split; [reflexivity|]. rewrite Qsgn_opp. lia. }
    destruct Hc' as (x' & -> & Sx'). split; [exact Sx'|].
    clear - Hrest Hst. induction Hrest as [|d d' l l' Hd _ IH];
      constructor.
    + inversion Hst as [|? ? Hd0 _]; subst.
      destruct Hd as [->| ->]; [exact Hd0|].
      destruct d as [v|]; cbn [option_map steady_cell] in *; [|exact I].
      rewrite Qsgn_opp. lia.
    + inversion Hst; subst. apply IH. assumption.
  - intros y Hy. destruct (Hback y Hy) as (x & Hx & [->| ->]).
    + apply Hh. exact Hx.
    + apply (fl_held_opp fl ratio R). apply Hh. exact Hx.
  - intros y z Hy Hz.
    destruct (Hback y Hy) as (x & Hx & Ey).
    destruct (Hback z Hz) as (w & Hw & Ez).
    pose proof (Hbal x w Hx Hw) as Hxw.
    assert (Ay : Qabs y == Qabs x)
      by (destruct Ey as [->| ->]; [reflexivity|apply Qabs_opp]).
    assert (Az : Qabs z == Qabs w)
      by (destruct Ez as [->| ->]; [reflexivity|apply Qabs_opp]).
    rewrite Ay, Az. exact Hxw.
Qed.

Lemma regular_sound (fl : Q -> Q) (ratio : Q) (row : list cell) :
  row <> [] -> regular_row fl ratio row -> sound_row fl ratio row.
Proof.
  intros Hne (Hn & Hh & Hb). repeat split; try assumption.
  apply nonzero_numbers_steady; assumption.
Qed.

Lemma sflip_sign_of_row (marks : list bool) :
  forall row, sign_of_row row (sflip marks row).
Proof.
  induction marks as [|b marks IH]; intros [|x row]; cbn [sflip];
    try apply sign_of_row_refl.
  constructor; [|apply IH].
  destruct b; [apply sign_of_neg1|apply sign_of_refl].
Qed.

Lemma sound_rows_sign (fl : Q -> Q) (ratio : Q)
  (rows rows' : list (list cell)) :
  Float.rounding fl ratio ->
  Forall2 sign_of_row rows rows' ->
  Forall (sound_row fl ratio) rows -> Forall (sound_row fl ratio) rows'.
Proof.
  intros R H. induction H as [|row row' rows rows' Hrow _ IH]; intros Hs;
    constructor; inversion Hs; subst.
  - eapply sound_sign_of_row; eassumption.
  - apply IH. assumption.
Qed.

(** C8, amended.  On a track with at least one window in which every
    sample has a value in every window, none of them zero, and the values
    of a sample are floats of comparable magnitudes (none [ratio] times
    another, [ratio] being 2^53 for binary64), a second run of
    [polarize] with the same arguments selects the same guide samples,
    switches nothing and returns the track the first run returned.  The
    comparison of line 146 is taken with its two differences rounded. *)
Theorem C8_idempotent_on_regular_tracks :
  forall (fl : Q -> Q) (ratio : Q) (w_pca_df out : DataFrame)
         (vt mt gs : pyval),
    Float.rounding fl ratio ->
    wf w_pca_df -> NoDup (columns w_pca_df) -> columns w_pca_df <> [] ->
    Forall (regular_row fl ratio) (values w_pca_df) ->
    Float.polarize fl w_pca_df vt mt gs = Ok out ->
    Float.polarize fl out vt mt gs = Ok out.
Proof.
  intros fl ratio df out vt mt gs R Hwf Hnd Hne Hreg Hrun.
  assert (Hsound : Forall (sound_row fl ratio) (values df)).
  { destruct Hwf as [_ Hrect]. apply Forall_forall. intros row Hrow.
    apply regular_sound.
    - eapply Forall_forall in Hrect; [|exact Hrow].
      intros ->. cbn [length] in Hrect. symmetry in Hrect.
      apply length_zero_iff_nil in Hrect. contradiction.
    - eapply Forall_forall in Hreg; eassumption. }
  rewrite (float_polarize_exact fl ratio df vt mt gs R Hsound) in Hrun.
  pose proof (polarize_sign _ _ _ _ _ Hrun) as (_ & _ & Hsign).
  rewrite (float_polarize_exact fl ratio out vt mt gs R
             (sound_rows_sign fl ratio _ _ R Hsign Hsound)).
  pose proof Hrun as Hrun0.
  unfold polarize in Hrun.
  destruct (select_guides df vt mt gs) as [[gdf names]|e] eqn:Hsel;
    [|discriminate].
  cbn [Py.bind fst snd] in Hrun. unfold polarize_with in Hrun.
  destruct (loc gdf names) as [guides|e] eqn:Hloc; [|discriminate].
  apply (polarize_twice_steady df out gdf guides vt mt gs names);
    try assumption.
  destruct (select_guides_incl _ _ _ _ _ _ Hsel) as [_ Hsub].
  destruct (loc_incl _ _ _ Hloc) as [_ Hsub'].
  apply Forall_forall. intros row Hrow.
  eapply Forall_forall in Hsound; [|apply Hsub, Hsub'; exact Hrow].
  exact (proj1 Hsound).
Qed.

Lemma C8_idempotent_on_regular_tracks_witness :
  exists out,
    Float.polarize (fun x => x)
      (mkDF ["s1"; "s2"]%string [500; 1500; 2500]%Z
         [[Some 1; Some 1; Some (-1)]; [Some 2; Some (-2); Some 3]])
      (PyInt 2) (PyInt 1) PyNone = Ok out /\
    Float.polarize (fun x => x) out (PyInt 2) (PyInt 1) PyNone = Ok out.
Proof.
  eexists. split; [vm_compute; reflexivity|].
  apply (C8_idempotent_on_regular_tracks (fun x => x) 16
           (mkDF ["s1"; "s2"]%string [500; 1500; 2500]%Z
              [[Some 1; Some 1; Some (-1)]; [Some 2; Some (-2); Some 3]])).
  - apply exact_rounding.
  - split; [reflexivity | repeat constructor].
  - simpl. repeat constructor; simpl; intros H;
      repeat (destruct H as [H|H]; [discriminate|]); exact H.
  - discriminate.
  - repeat constructor; try discriminate;
      try (intros x Hx; reflexivity);
      intros x y Hx Hy; cbn [In] in Hx, Hy;
      repeat (destruct Hx as [Hx|Hx]; [injection Hx as <-|]);
      try contradiction;
      repeat (destruct Hy as [Hy|Hy]; [injection Hy as <-|]);
      try contradiction; reflexivity.
  - vm_compute. reflexivity.
Defined.

(** X17.  From the guide samples on, [polarize] does not depend on the
    sign each window came with.  Take a rectangular track without
    missing values, with distinct window labels, and any guide samples
    whose rows hold no zero and floats of comparable magnitudes; negate
    any set of windows (one mark per window).  If no window whose mark
    differs from the mark of the first window has its votes summing to
    zero, and the smallest and the largest value of the result differ in
    magnitude, then lines 129-168 return for the changed track the very
    track they return for the original.  The comparison of line 146 is
    taken with its two differences rounded. *)
Theorem polarize_with_orientation_free (fl : Q -> Q) (ratio : Q)
  (w_pca_df out gdf guides : DataFrame)
  (names : list string) (V : list (list Z)) (marks : list bool) :
  Float.rounding fl ratio ->
  wf w_pca_df -> NoDup (columns w_pca_df) ->
  Forall (Forall (fun c : cell => c <> None)) (values w_pca_df) ->
  length marks = length (columns w_pca_df) ->
  columns gdf = columns w_pca_df -> incl (values gdf) (values w_pca_df) ->
  loc gdf names = Ok guides ->
  Forall (sound_row fl ratio) (values guides) ->
  mapM (Float.row_votes fl) (values guides) = Ok V ->
  (forall j, (0 < j < length marks)%nat ->
             nth j marks false <> nth 0 marks false ->
             summed_vote V j <> 0%Z) ->
  Float.polarize_with fl w_pca_df gdf names = Ok out ->
  (forall lo hi, arr_min (to_numpy0 out) = Ok lo ->
                 arr_max (to_numpy0 out) = Ok hi ->
                 ~ Qabs lo == Qabs hi) ->
  Float.polarize_with fl (map_rows (sflip marks) w_pca_df)
    (map_rows (sflip marks) gdf) names = Ok out.
Proof.
  intros R Hwf Hnd _ Hmarks Hcols Hsub Hloc Hsound HV Hties Hrun Htie.
  rewrite (float_mapM_votes_exact fl ratio _ R Hsound) in HV.
  rewrite (float_polarize_with_exact fl ratio w_pca_df gdf names R) in Hrun.
  2:{ intros guides' Hloc'. rewrite Hloc in Hloc'. injection Hloc' as <-.
      exact Hsound. }
  rewrite (float_polarize_with_exact fl ratio _ _ names R).
  2:{ intros guides' Hloc'. rewrite loc_map_rows, Hloc in Hloc'.
      injection Hloc' as <-. cbn [map_rows values].
      apply (sound_rows_sign fl ratio (values guides)); [exact R| |exact Hsound].
      apply Forall2_map_r. apply sflip_sign_of_row. }
  apply (polarize_with_orientation w_pca_df out gdf guides names V marks);
    try assumption.
  eapply Forall_impl; [|exact Hsound]. intros row Hrow. exact (proj1 Hrow).
Qed.

Lemma polarize_with_orientation_free_witness :
  exists out,
    Float.polarize_with (fun x => x)
      (mkDF ["s1"; "s2"]%string [500; 1500; 2500]%Z
         [[Some 1; Some 1; Some (-1)]; [Some 2; Some (-2); Some 3]])
      (mkDF ["s1"; "s2"]%string [500; 1500; 2500]%Z
         [[Some 1; Some 1; Some (-1)]; [Some 2; Some (-2); Some 3]])
      ["s2"%string] = Ok out /\
    Float.polarize_with (fun x => x)
      (map_rows (sflip [true; false; true])
         (mkDF ["s1"; "s2"]%string [500; 1500; 2500]%Z
            [[Some 1; Some 1; Some (-1)]; [Some 2; Some (-2); Some 3]]))
      (map_rows (sflip [true; false; true])
         (mkDF ["s1"; "s2"]%string [500; 1500; 2500]%Z
            [[Some 1; Some 1; Some (-1)]; [Some 2; Some (-2); Some 3]]))
      ["s2"%string] = Ok out.
Proof.
  eexists. split; [vm_compute; reflexivity|].
  apply (polarize_with_orientation_free (fun x => x) 16
           (mkDF ["s1"; "s2"]%string [500; 1500; 2500]%Z
              [[Some 1; Some 1; Some (-1)]; [Some 2; Some (-2); Some 3]]) _
           (mkDF ["s1"; "s2"]%string [500; 1500; 2500]%Z
              [[Some 1; Some 1; Some (-1)]; [Some 2; Some (-2); Some 3]])
           (mkDF ["s2"]%string [500; 1500; 2500]%Z
              [[Some 2; Some (-2); Some 3]])
           ["s2"%string] [[0; 1; -1]%Z] [true; false; true]).
  - apply exact_rounding.
  - split; [reflexivity | repeat constructor].
  - simpl. repeat constructor; simpl; intros H;
      repeat (destruct H as [H|H]; [discriminate|]); exact H.
  - repeat constructor; discriminate.
  - reflexivity.
  - reflexivity.
  - intros row Hrow. exact Hrow.
  - reflexivity.
  - repeat constructor; try discriminate;
      try (intros x Hx; reflexivity);
      intros x y Hx Hy; cbn [In] in Hx, Hy;
      repeat (destruct Hx as [Hx|Hx]; [injection Hx as <-|]);
      try contradiction;
      repeat (destruct Hy as [Hy|Hy]; [injection Hy as <-|]);
      try contradiction; reflexivity.
  - reflexivity.
  - intros [|[|[|j]]] Hj _; cbn [length] in Hj; try lia;
      vm_compute; discriminate.
  - vm_compute. reflexivity.
  - intros lo hi Hlo Hhi. vm_compute in Hlo, Hhi.
    injection Hlo as <-. injection Hhi as <-. vm_compute. discriminate.
Defined.

Lemma float_fold_prefix (fl : Q -> Q) (rest : list cell) :
  forall st, exists tail,
    snd (fold_left (Float.vote_step fl) rest st) = snd st ++ tail.
Proof.
  induction rest as [|c rest IH]; intros [prev out]; cbn [fold_left].
  - exists []. cbn [snd]. now rewrite app_nil_r.
  - unfold Float.vote_step at 2. destruct c as [w|].
    + destruct (Qgtb _ _).
      * destruct (IH (neg1 w, out ++ [1%Z])) as [tail H]. rewrite H.
        cbn [snd]. rewrite <- app_assoc. eauto.
      * destruct (IH (w, out ++ [(-1)%Z])) as [tail H]. rewrite H.
        cbn [snd]. rewrite <- app_assoc. eauto.
    + destruct (IH (prev, out ++ [0%Z])) as [tail H]. rewrite H.
      cbn [snd]. rewrite <- app_assoc. eauto.
Qed.

Lemma float_row_votes_head (fl : Q -> Q) (row : list cell)
  (votes : list Z) :
  Float.row_votes fl row = Ok votes -> nth 0 votes 0%Z = 0%Z.
Proof.
  destruct row as [|first rest]; [discriminate|]. unfold Float.row_votes.
  set (prev := match first with Some x => x | None => 0 end).
  destruct (float_fold_prefix fl rest (prev, [0%Z])) as [tail H].
  rewrite H. intros E. injection E as <-. reflexivity.
Qed.

(** X22.  The first window is the reference and is never switched by
    the votes: whatever the guide rows hold and however the differences
    of line 146 are rounded, the first entry of [switch_lst] is 0, and
    the loop of lines 160-162 leaves the first window of every sample as
    it was. *)
Theorem first_window_never_switched (fl : Q -> Q) (w_pca_df : DataFrame)
  (guide_rows : list (list cell)) (rows_lst : list (list Z))
  (switch : list Z) :
  NoDup (columns w_pca_df) -> columns w_pca_df <> [] ->
  mapM (Float.row_votes fl) guide_rows = Ok rows_lst ->
  switch_lst rows_lst = Ok switch ->
  nth 0 switch 0%Z = 0%Z /\
  forall i, cell_at (switch_windows w_pca_df switch) i 0
            = cell_at w_pca_df i 0.
Proof.
  intros Hnd Hne HV Hsw.
  assert (H0 : nth 0 switch 0%Z = 0%Z).
  { assert (Hs : summed_vote rows_lst 0 = 0%Z).
    { apply mapM_Forall2 in HV. unfold summed_vote. clear Hsw.
      induction HV as [|row votes rows rows_lst' Hrow _ IH]; [reflexivity|].
      cbn [map Zsum fold_right]. unfold Zsum in IH. rewrite IH.
      rewrite (float_row_votes_head fl _ _ Hrow). reflexivity. }
    destruct rows_lst as [|v V]; [discriminate|].
    cbn [switch_lst] in Hsw. injection Hsw as <-.
    unfold summed_vote in Hs.
    destruct v as [|v0 v]; [reflexivity|].
    cbn [length transpose seq map nth]. exact Hs. }
  split; [exact H0|].
  intros i. rewrite switch_windows_cell;
    [|exact Hnd|destruct (columns w_pca_df); [congruence|cbn; lia]].
  rewrite H0. reflexivity.
Qed.

Lemma first_window_never_switched_witness :
  nth 0 [0; -1; 2]%Z 0%Z = 0%Z /\
  forall i, cell_at (switch_windows Examples.track3 [0; -1; 2]%Z) i 0
            = cell_at Examples.track3 i 0.
Proof.
  apply (first_window_never_switched (fun x => x) Examples.track3
           [[Some 1; Some 1; Some (-1)]; [Some (-3); None; Some 5]]
           [[0; -1; 1]; [0; 0; 1]]%Z [0; -1; 2]%Z).
  - simpl. repeat constructor; simpl; intros H;
      repeat (destruct H as [H|H]; [discriminate|]); exact H.
  - discriminate.
  - vm_compute. reflexivity.
  - reflexivity.
Defined.

(** X23.  For a guide sample with a value in the first window, no zero,
    and floats of comparable magnitudes (none [ratio] times another,
    [ratio] being 2^53 for binary64), the running reference keeps the
    sign of the first window, so every later window is compared with
    the first one: with the differences of line 146 rounded, it votes +1
    when its value has the opposite sign, -1 when it has the same sign,
    and 0 when it is missing. *)
Theorem row_votes_compare_first (fl : Q -> Q) (ratio : Q) (x : Q)
  (rest : list cell) :
  Float.rounding fl ratio ->
  sound_row fl ratio (Some x :: rest) ->
  exists votes,
    Float.row_votes fl (Some x :: rest) = Ok (0%Z :: votes) /\
    length votes = length rest /\
    forall j,
      match nth_error rest j with
      | Some (Some v) =>
          (v * x < 0 -> nth j votes 0%Z = 1%Z) /\
          (0 < v * x -> nth j votes 0%Z = (-1)%Z)
      | Some None => nth j votes 0%Z = 0%Z
      | None => True
      end.
Proof.
  intros R Hsound. pose proof (proj1 Hsound) as Hs.
  exists (map (sign_vote (Qsgn x)) rest).
  split.
  { rewrite (float_row_votes_exact fl ratio _ R Hsound).
    apply row_votes_steady. exact Hs. }
  split; [apply length_map|].
  intros j. destruct (nth_error rest j) as [c|] eqn:E; [|exact I].
  assert (Hn : nth j (map (sign_vote (Qsgn x)) rest) 0%Z
               = sign_vote (Qsgn x) c).
  { apply nth_error_nth. rewrite nth_error_map, E. reflexivity. }
  rewrite Hn. destruct c as [v|]; [|reflexivity].
  cbn [sign_vote].
  destruct (Qsgn_cases v) as [[Sv Hv]|[[Sv Hv]|[Sv Hv]]];
    destruct (Qsgn_cases x) as [[Sx Hx]|[[Sx Hx]|[Sx Hx]]];
    rewrite Sv, Sx; cbn [Z.mul Z.eqb Pos.mul Pos.eqb];
    split; intros H; try reflexivity; exfalso;
    try (rewrite Hv in H; lra); try (rewrite Hx in H; lra); nra.
Qed.

Lemma row_votes_compare_first_witness :
  exists votes,
    Float.row_votes (fun x => x) (Some 2 :: [Some (-2); None; Some 3])
    = Ok (0%Z :: votes) /\
    length votes = length [Some (-2); None; Some 3] /\
    forall j,
      match nth_error [Some (-2); None; Some 3] j with
      | Some (Some v) =>
          (v * 2 < 0 -> nth j votes 0%Z = 1%Z) /\
          (0 < v * 2 -> nth j votes 0%Z = (-1)%Z)
      | Some None => nth j votes 0%Z = 0%Z
      | None => True
      end.
Proof.
  apply (row_votes_compare_first (fun x => x) 16 2
           [Some (-2); None; Some 3]).
  - apply exact_rounding.
  - split; [|split].
    + split; [discriminate|]. repeat constructor; discriminate.
    + intros x Hx. reflexivity.
    + intros x y Hx Hy; cbn [In] in Hx, Hy;
        repeat (destruct Hx as [Hx|Hx];
                [first [injection Hx as <- | discriminate]|]);
        try contradiction;
        repeat (destruct Hy as [Hy|Hy];
                [first [injection Hy as <- | discriminate]|]);
        try contradiction; reflexivity.
Defined.

(** X28.  Where the model compares exact differences and the program
    rounded ones, the two agree on the rows that matter: on a track
    whose every sample has a value in the first window, no zero, and
    floats of comparable magnitudes, each row gets the same votes from
    the loop with the differences of line 146 rounded as from the loop
    with exact differences, and [polarize] returns the same track. *)
Theorem rounded_votes_agree (fl : Q -> Q) (ratio : Q) (w_pca_df : DataFrame)
  (vt mt gs : pyval) :
  Float.rounding fl ratio ->
  Forall (sound_row fl ratio) (values w_pca_df) ->
  (forall row, In row (values w_pca_df) ->
               Float.row_votes fl row = row_votes row) /\
  Float.polarize fl w_pca_df vt mt gs = polarize w_pca_df vt mt gs.
Proof.
  intros R H. split.
  - intros row Hrow. apply (float_row_votes_exact fl ratio); [exact R|].
    eapply Forall_forall in H; eassumption.
  - apply (float_polarize_exact fl ratio); assumption.
Qed.

Lemma rounded_votes_agree_witness :
  (forall row,
     In row [[Some 1; Some 1; Some (-1)]; [Some 2; Some (-2); Some 3]] ->
     Float.row_votes (fun x => x) row = row_votes row) /\
  Float.polarize (fun x => x)
    (mkDF ["s1"; "s2"]%string [500; 1500; 2500]%Z
       [[Some 1; Some 1; Some (-1)]; [Some 2; Some (-2); Some 3]])
    (PyInt 2) (PyInt 1) PyNone
  = polarize
      (mkDF ["s1"; "s2"]%string [500; 1500; 2500]%Z
         [[Some 1; Some 1; Some (-1)]; [Some 2; Some (-2); Some 3]])
      (PyInt 2) (PyInt 1) PyNone.
Proof.
  apply (rounded_votes_agree (fun x => x) 16
           (mkDF ["s1"; "s2"]%string [500; 1500; 2500]%Z
              [[Some 1; Some 1; Some (-1)]; [Some 2; Some (-2); Some 3]])
           (PyInt 2) (PyInt 1) PyNone).
  - apply exact_rounding.
  - repeat constructor; try discriminate;
      try (intros x Hx; reflexivity);
      intros x y Hx Hy; cbn [In] in Hx, Hy;
      repeat (destruct Hx as [Hx|Hx]; [injection Hx as <-|]);
      try contradiction;
      repeat (destruct Hy as [Hy|Hy]; [injection Hy as <-|]);
      try contradiction; reflexivity.
Defined.

(** ** The midpoint of a window *)

Lemma Qtrunc_half (k : Z) :
  (0 <= k)%Z -> forall x, x == inject_Z k / 2 -> Float.Qtrunc x = (k / 2)%Z.
Proof.
  intros Hk x Hx. unfold Float.Qtrunc.
  assert (H0 : 0 <= x).
  { rewrite Hx. unfold Qdiv, Qle. cbn. lia. }
  apply Qle_bool_iff in H0. rewrite H0.
  rewrite (Qfloor_comp _ _ Hx). unfold Qdiv, Qfloor. cbn.
  rewrite Z.mul_1_r. reflexivity.
Qed.

Lemma float_w_mid (fl : Q -> Q) (ratio : Q) (w_start w_size : Z) :
  Float.rounding fl ratio ->
  (1 <= w_start)%Z -> (1 <= w_size)%Z ->
  inject_Z (2 * w_start + w_size) <= ratio ->
  Float.w_mid fl w_start w_size = ((2 * w_start + w_size - 2) / 2)%Z.
Proof.
  intros R Hstart Hsize Hratio.
  pose proof (Float.fl_compat fl ratio R) as Compat.
  assert (Half : forall k : Z, (0 <= k <= 2 * w_start + w_size)%Z ->
                   fl (inject_Z k / 2) == inject_Z k / 2).
  { intros k Hk. apply (Float.fl_half fl ratio R).
    rewrite Qabs_pos by (change 0 with (inject_Z 0); rewrite <- Zle_Qle; lia).
    eapply Qle_trans; [|exact Hratio].
    rewrite <- Zle_Qle. lia. }
  assert (E1 : fl (inject_Z w_start) == inject_Z w_start).
  { rewrite (Compat (inject_Z w_start) (inject_Z (2 * w_start) / 2)).
    - rewrite Half by lia. rewrite inject_Z_mult. field.
    - rewrite inject_Z_mult. field. }
  assert (E2 : fl (inject_Z w_size / 2) == inject_Z w_size / 2)
    by (apply Half; lia).
  assert (E3 : fl (fl (inject_Z w_start) + fl (inject_Z w_size / 2))
               == inject_Z (2 * w_start + w_size) / 2).
  { rewrite (Compat _ (inject_Z (2 * w_start + w_size) / 2)).
    - apply Half. lia.
    - rewrite E1, E2, inject_Z_plus, inject_Z_mult. field. }
  assert (E4 : fl (fl (fl (inject_Z w_start) + fl (inject_Z w_size / 2)) - 1)
               == inject_Z (2 * w_start + w_size - 2) / 2).
  { rewrite (Compat _ (inject_Z (2 * w_start + w_size - 2) / 2)).
    - apply Half. lia.
    - rewrite E3. unfold Z.sub. rewrite !inject_Z_plus, inject_Z_mult.
      change (inject_Z (- (2))) with (- (2)). field. }
  unfold Float.w_mid. apply Qtrunc_half; [lia|exact E4].
Qed.

(** X24.  For a window that starts at a positive position, with
    [2 * w_start + w_size] up to [ratio] (2^53 for binary64), every
    intermediate result of [int(w_start + w_size/2 - 1)] is a float and
    nothing is lost to rounding: the midpoint [pca] records is
    [w_start - 1 + w_size // 2]; it lies inside the window when the
    window is at least 2 bp wide, and just before it when the window is
    1 bp wide. *)
Theorem pca_midpoint (fl : Q -> Q) (ratio : Q)
  (allel_pca : list (list Z) -> result allel_model)
  (T pc : Z) (win : list (list Z)) (w_start w_size : Z) (g g' : globals) :
  Float.rounding fl ratio ->
  (1 <= w_start)%Z -> (1 <= w_size)%Z ->
  inject_Z (2 * w_start + w_size) <= ratio ->
  pca allel_pca T pc win w_start w_size g = (g', Ok tt) ->
  Float.w_mid fl w_start w_size = (w_start - 1 + w_size / 2)%Z /\
  w_mid_lst g' = w_mid_lst g ++ [Float.w_mid fl w_start w_size] /\
  ((2 <= w_size)%Z ->
   (w_start <= Float.w_mid fl w_start w_size <= w_start + w_size - 1)%Z) /\
  (w_size = 1%Z -> Float.w_mid fl w_start w_size = (w_start - 1)%Z).
Proof.
  intros R Hstart Hsize Hratio Hrun.
  assert (E : Float.w_mid fl w_start w_size = (w_start - 1 + w_size / 2)%Z).
  { rewrite (float_w_mid fl ratio w_start w_size R Hstart Hsize Hratio).
    replace (2 * w_start + w_size - 2)%Z
      with (w_size + (w_start - 1) * 2)%Z by lia.
    rewrite Z.div_add by lia. lia. }
  split; [exact E|]. split.
  - destruct (window_result allel_pca T (map (@tl Z) win) w_start w_size g)
      as [g1 [out|e]] eqn:Hres.
    + destruct (pca_appends_stats allel_pca T pc win w_start w_size g g1 out
                  Hres) as (_ & Hmid & _).
      rewrite Hrun in Hmid. cbn [fst] in Hmid. rewrite Hmid, E.
      rewrite Z.quot_div_nonneg by lia.
      replace (2 * w_start + w_size - 2)%Z
        with (w_size + (w_start - 1) * 2)%Z by lia.
      rewrite Z.div_add by lia.
      replace (w_size / 2 + (w_start - 1))%Z
        with (w_start - 1 + w_size / 2)%Z by lia.
      reflexivity.
    + exfalso. unfold pca in Hrun. unfold bindM at 1 in Hrun.
      rewrite Hres in Hrun. discriminate.
  - rewrite E. split.
    + intros H2.
      pose proof (Z.div_le_lower_bound w_size 2 1 ltac:(lia) ltac:(lia)).
      pose proof (Z.div_le_upper_bound w_size 2 (w_size - 1) ltac:(lia)
                    ltac:(lia)).
      lia.
    + intros ->. change (1 / 2)%Z with 0%Z. lia.
Qed.

Lemma pca_midpoint_witness :
  Float.w_mid (fun x => x) 1 1000 = (1 - 1 + 1000 / 2)%Z /\
  w_mid_lst (fst (pca Examples.engine2 2 1
                    (fst (hd ([], 0%Z) Examples.window2)) 1 1000
                    Examples.no_globals))
  = w_mid_lst Examples.no_globals ++ [Float.w_mid (fun x => x) 1 1000] /\
  ((2 <= 1000)%Z ->
   (1 <= Float.w_mid (fun x => x) 1 1000 <= 1 + 1000 - 1)%Z) /\
  (1000%Z = 1%Z -> Float.w_mid (fun x => x) 1 1000 = (1 - 1)%Z).
Proof.
  apply (pca_midpoint (fun x => x) 9007199254740992 Examples.engine2 2 1
           (fst (hd ([], 0%Z) Examples.window2)) 1 1000 Examples.no_globals
           (fst (pca Examples.engine2 2 1
                   (fst (hd ([], 0%Z) Examples.window2)) 1 1000
                   Examples.no_globals))).
  - apply exact_rounding.
  - lia.
  - lia.
  - vm_compute. discriminate.
  - reflexivity.
Defined.

(** ** The call of [read_metadata] *)

(** X26.  The call of [read_metadata] in [main] never returns.  [main]
    passes the metadata path and the list of samples, in this order, to
    parameters that are the variant file path and the metadata path: the
    metadata file is opened for its first line, and [pd.read_csv] gets
    the list of samples, which it refuses with [ValueError].  So the call
    ends with what opening or reading the metadata file raises, or with
    [ValueError], whatever the files hold; the lines of [main] after it
    are not reached. *)
Theorem main_read_metadata_never_returns (E table : Type)
  (readline : string -> E + string) (metadata_path : string)
  (variant_file_sample_lst : list string) (taxon group : string) :
  exists r : Metadata.outcome E table,
    (forall read_csv_path rest,
        Metadata.main_read_metadata E table readline read_csv_path rest
          metadata_path variant_file_sample_lst taxon group = r) /\
    (forall t, r <> Metadata.Returned t) /\
    (forall line, readline metadata_path = inr line ->
                  r = Metadata.PyRaise ValueError).
Proof.
  unfold Metadata.main_read_metadata, Metadata.read_metadata.
  destruct (readline metadata_path) as [e|line].
  - exists (Metadata.IoRaise e). repeat split; try discriminate.
  - exists (Metadata.PyRaise ValueError). repeat split; discriminate.
Qed.

(** ** The tables as text *)

Lemma nearest_close (x : Q) : Qabs (inject_Z (Serial.nearest x) - x) <= 1 # 2.
Proof.
  unfold Serial.nearest.
  pose proof (Qfloor_le x) as Hlo. pose proof (Qlt_floor x) as Hhi.
  rewrite inject_Z_plus in Hhi. change (inject_Z 1) with 1 in Hhi.
  destruct (Qcompare (x - inject_Z (Qfloor x)) (1 # 2)) eqn:E.
  - apply Qeq_alt in E.
    destruct (Z.even (Qfloor x)); [|rewrite inject_Z_plus];
      apply Qabs_case; intros; change (inject_Z 1) with 1 in *; lra.
  - apply Qlt_alt in E. apply Qabs_case; intros; lra.
  - apply Qgt_alt in E. rewrite inject_Z_plus.
    change (inject_Z 1) with 1. apply Qabs_case; intros; lra.
Qed.

Lemma nearest_whole (x : Q) (k : Z) : x == inject_Z k -> Serial.nearest x = k.
Proof.
  intros H. unfold Serial.nearest.
  assert (F : Qfloor x = k) by (rewrite (Qfloor_comp _ _ H); apply Qfloor_Z).
  rewrite F.
  assert (E : Qcompare (x - inject_Z k) (1 # 2) = Lt).
  { rewrite <- Qlt_alt, H. lra. }
  rewrite E. reflexivity.
Qed.

Lemma reread_cell (c : cell) :
  Serial.reread c (Serial.read_field (Serial.write_cell c)).
Proof.
  destruct c as [x|]; cbn [Serial.write_cell Serial.read_field Serial.reread];
    [|exact I].
  intros _. split.
  - pose proof (nearest_close (x * Serial.ten7)) as H.
    apply Qabs_Qle_condition in H. destruct H as [H1 H2].
    unfold Serial.ten7, Qdiv in *.
    change (/ 10000000) with (1 # 10000000).
    apply Qabs_case; intros; lra.
  - intros k Hk.
    assert (E : x * Serial.ten7 == inject_Z k).
    { rewrite Hk. unfold Serial.ten7. field. }
    rewrite (nearest_whole _ _ E). symmetry. exact Hk.
Qed.

(** C9, as stated, fails: a coordinate with more than seven decimals,
    here 2^-30, is written as 0.0000000 and comes back as 0. *)
Lemma C9_counterexample :
  exists (df : DataFrame) (x y : Q),
    cell_at df 0 0 = Some (Some x) /\
    cell_at (Serial.round_trip df) 0 0 = Some (Some y) /\
    ~ y == x.
Proof.
  exists (mkDF ["s1"%string] [500%Z] [[Some (1 # 1073741824)]]).
  exists (1 # 1073741824), (0 / Serial.ten7).
  split; [reflexivity|]. split; [reflexivity|].
  vm_compute. discriminate.
Qed.

(** C9, amended.  Writing a table with seven decimals and the token NA
    and reading it back keeps the labels, the shape and the missing
    positions; a coordinate of magnitude up to 10^6 comes back within
    10^-7 of itself, and as itself when it has at most seven decimals.
    The same holds of the two percentages of the statistics table, whose
    midpoints and variant counts come back as they were.  Lines 266-283
    of [main], entered with the output of a previous run, pass the
    tables read back on as they are and do not call [polarize]. *)
Theorem C9_round_trip_to_seven_decimals :
  (forall df : DataFrame,
      index (Serial.round_trip df) = index df /\
      columns (Serial.round_trip df) = columns df /\
      Forall2 (Forall2 Serial.reread) (values df)
        (values (Serial.round_trip df))) /\
  (forall s : StatsFrame,
      stats_index (Serial.stats_round_trip s) = stats_index s /\
      Forall2 (fun r r' => Serial.reread (fst (fst r)) (fst (fst r')) /\
                           Serial.reread (snd (fst r)) (snd (fst r')) /\
                           snd r' = snd r)
        (stats_rows s) (stats_rows (Serial.stats_round_trip s))) /\
  (forall (allel_pca : list (list Z) -> result allel_model) (T pc : Z)
          (tables : DataFrame * StatsFrame) (ids : list string)
          (windows : list (list (list Z) * Z)) (w_size : Z) (gs : string)
          (g : globals),
      main_data_path allel_pca T pc (Some tables) ids windows w_size gs g
      = (mkGlobals (w_mid_lst g) (w_pca_lst g) (w_stats_lst g)
           (stderr g
            ++ [(newline ++ "[INFO] Plotting data from previous run")
                %string]),
         Ok tables)).
Proof.
  split; [|split].
  - intros df. split; [reflexivity|]. split; [reflexivity|].
    unfold Serial.round_trip, Serial.read_csv, Serial.to_csv.
    cbn [values Serial.text_fields]. rewrite map_map.
    apply Forall2_map_r. intros row. rewrite map_map.
    apply Forall2_map_r. apply reread_cell.
  - intros s. split; [reflexivity|].
    unfold Serial.stats_round_trip. cbn [stats_rows].
    apply Forall2_map_r. intros [[p1 p2] n]. cbn [fst snd].
    split; [apply reread_cell|]. split; [apply reread_cell|reflexivity].
  - intros. reflexivity.
Qed.
